(** * ireland-weather-data: the CSV mirroring tool

    A shallow embedding of the two fetchers of the repository:
    the sequential loop of [main.go] (module [Seq]) and the worker
    pool with [fetchOne] (module [Pool]).  The Go standard library
    calls they make are modelled in [GoStd]; the file system, the
    HTTP server and the clock are an explicit environment.  The tool
    that lists the directories the catalog does not name is in
    [Unknown]. *)

From Stdlib Require Import ZArith NArith Lia Ascii String.
From stdpp Require Import base tactics option list gmap strings relations.

Local Open Scope Z_scope.

(* ================================================================= *)
(** * Part I: definitions *)
(* ================================================================= *)

(** ** The Go standard library functions used by the program *)

Module GoStd.

(** [os.PathSeparator] on the platform of the workflow. *)
Definition is_sep (c : ascii) : bool := Ascii.eqb c "/".

(** [strings.HasPrefix]. *)
Fixpoint HasPrefix (s pre : string) {struct pre} : bool :=
  match pre, s with
  | "", _ => true
  | String a pre', String b s' => Ascii.eqb a b && HasPrefix s' pre'
  | String _ _, "" => false
  end.

(** [strings.HasSuffix]:
    [len(s) >= len(suffix) && s[len(s)-len(suffix):] == suffix]. *)
Definition HasSuffix (s suffix : string) : bool :=
  (String.length suffix <=? String.length s)%nat
  && String.eqb
       (substring (String.length s - String.length suffix)
                  (String.length suffix) s)
       suffix.

(** [strings.TrimSuffix]: [s[:len(s)-len(suffix)]] when [s] ends in
    [suffix], [s] itself otherwise. *)
Definition TrimSuffix (s suffix : string) : string :=
  if HasSuffix s suffix
  then substring 0 (String.length s - String.length suffix) s
  else s.

(** The elements of a path between its separators; never the empty
    list: [split_slash "a//b" = ["a"; ""; "b"]]. *)
Fixpoint split_slash (s : string) : list string :=
  match s with
  | "" => [""]
  | String c s' =>
      if is_sep c then "" :: split_slash s'
      else match split_slash s' with
           | x :: xs => String c x :: xs
           | [] => [String c ""]
           end
  end.

(** [strings.Join(elems, "/")]. *)
Fixpoint join_sep (elems : list string) : string :=
  match elems with
  | [] => ""
  | [e] => e
  | e :: rest => e +:+ "/" +:+ join_sep rest
  end.

(** The loop of [filepath.Base] that strips trailing separators. *)
Fixpoint trim_trailing_seps (s : string) : string :=
  match s with
  | "" => ""
  | String c s' =>
      match trim_trailing_seps s' with
      | "" => if is_sep c then "" else String c ""
      | t => String c t
      end
  end.

(** [filepath.Base]: the last element of the path, after trailing
    separators are removed; ["."] for the empty path and ["/"] for a
    path of separators only. *)
Definition Base (path : string) : string :=
  if decide (path = "") then "."
  else
    let e := List.last (split_slash (trim_trailing_seps path)) "" in
    if decide (e = "") then "/" else e.

(** One element of the scan of [filepath.Clean]; [out] holds the kept
    elements, the most recent first.  An empty element and ["."] are
    dropped; [".."] removes the element before it, is dropped at the
    root, and is kept at the start of a relative path. *)
Definition clean_step (rooted : bool) (out : list string) (elem : string)
  : list string :=
  if decide (elem = "") then out
  else if decide (elem = ".") then out
  else if decide (elem = "..") then
    match out with
    | top :: rest => if decide (top = "..") then elem :: out else rest
    | [] => if rooted then out else [elem]
    end
  else elem :: out.

(** [filepath.Clean]. *)
Definition Clean (path : string) : string :=
  if decide (path = "") then "."
  else
    let rooted := HasPrefix path "/" in
    let out := fold_left (clean_step rooted) (split_slash path) [] in
    let body := join_sep (rev out) in
    if rooted then "/" +:+ body
    else if decide (body = "") then "." else body.

(** [filepath.Join]: empty elements before the first non-empty one are
    ignored, the rest is joined with separators and cleaned. *)
Fixpoint Join (elem : list string) : string :=
  match elem with
  | [] => ""
  | e :: rest => if decide (e = "") then Join rest else Clean (join_sep elem)
  end.

(** [joinPath] of package [os], used by [os.CreateTemp]. *)
Definition ends_with_sep (s : string) : bool :=
  match String.rev s with
  | String c _ => is_sep c
  | "" => false
  end.

Definition joinPath (dir name : string) : string :=
  if ends_with_sep dir then dir +:+ name else dir +:+ "/" +:+ name.

(** Decimal digits. *)
Definition digit (n : N) : ascii := ascii_of_N (48 + n).

(** The loop of [uitoa]; the buffer of the Go function holds 20
    digits, enough for a 64-bit value. *)
Fixpoint uitoa_loop (fuel : nat) (val : N) (acc : string) : string :=
  match fuel with
  | O => acc
  | S fuel' =>
      if (10 <=? val)%N
      then uitoa_loop fuel' (val / 10) (String (digit (val mod 10)) acc)
      else String (digit val) acc
  end.

Definition uitoa (val : N) : string :=
  if (val =? 0)%N then "0" else uitoa_loop 20 val "".

(** [nextRandom] of package [os]: the decimal form of a 32-bit value. *)
Definition nextRandom (r : N) : string := uitoa (r mod 2 ^ 32)%N.

(** Zero padding of [appendInt] in package [time]. *)
Fixpoint zeros (n : nat) : string :=
  match n with O => "" | S n' => String "0" (zeros n') end.

Definition appendInt (x : Z) (width : nat) : string :=
  let digits := uitoa (Z.to_N (Z.abs x)) in
  (if x <? 0 then "-" else "")
  +:+ zeros (width - String.length digits) +:+ digits.

(** The civil date of an instant, as [time.Time.Date] returns it. *)
Record Date := { year : Z; month : Z; day : Z }.

(** [t.Format("2006-01-02")]. *)
Definition Format_2006_01_02 (t : Date) : string :=
  appendInt (year t) 4 +:+ "-" +:+ appendInt (month t) 2
  +:+ "-" +:+ appendInt (day t) 2.

(** A date of the calendar with a four digit year. *)
Definition valid_date (t : Date) : Prop :=
  0 <= year t <= 9999 /\ 1 <= month t <= 12 /\ 1 <= day t <= 31.

(** Header keys: [textproto.CanonicalMIMEHeaderKey].  A key with a
    byte that is no token character is returned as it is. *)
Definition is_lower (c : ascii) : bool :=
  let n := N_of_ascii c in (97 <=? n)%N && (n <=? 122)%N.
Definition is_upper (c : ascii) : bool :=
  let n := N_of_ascii c in (65 <=? n)%N && (n <=? 90)%N.
Definition is_digit (c : ascii) : bool :=
  let n := N_of_ascii c in (48 <=? n)%N && (n <=? 57)%N.

Definition is_token_byte (c : ascii) : bool :=
  is_lower c || is_upper c || is_digit c
  || bool_decide (c ∈ ["!"; "#"; "$"; "%"; "&"; "'"; "*"; "+"; "-"; ".";
                       "^"; "_"; "`"; "|"; "~"]%char).

Fixpoint all_token_bytes (s : string) : bool :=
  match s with
  | "" => true
  | String c s' => is_token_byte c && all_token_bytes s'
  end.

Fixpoint canonical_loop (upper : bool) (s : string) : string :=
  match s with
  | "" => ""
  | String c s' =>
      let c' :=
        if upper && is_lower c then ascii_of_N (N_of_ascii c - 32)
        else if negb upper && is_upper c then ascii_of_N (N_of_ascii c + 32)
        else c in
      String c' (canonical_loop (Ascii.eqb c' "-") s')
  end.

Definition CanonicalMIMEHeaderKey (s : string) : string :=
  if all_token_bytes s then canonical_loop true s else s.

(** [http.Header]: a map from canonical keys to their values. *)
Abbreviation Header := (gmap string (list string)).

Definition Header_Set (h : Header) (key value : string) : Header :=
  <[CanonicalMIMEHeaderKey key := [value]]> h.

(** [Header.Get]: the first value of the key, [""] when there is none. *)
Definition Header_Get (h : Header) (key : string) : string :=
  match h !! CanonicalMIMEHeaderKey key with
  | Some (v :: _) => v
  | _ => ""
  end.

End GoStd.

(** ** Data model, environment and effects *)

Module Model.
Import GoStd.

Definition dataSourcesFile : string := "data-sources.yaml".
Definition metadataFile : string := ".metadata.yaml".
Definition maxParallel : nat := 16.

Definition StatusOK : Z := 200.
Definition StatusNotModified : Z := 304.

(** [type MetadataEntry struct]; a field that is not set is the empty
    string, which [omitempty] leaves out of the file. *)
Record MetadataEntry := { LastModified : string; ETag : string }.

Global Instance MetadataEntry_eq_dec : EqDecision MetadataEntry.
Proof. solve_decision. Defined.

(** [MetadataEntry{}]. *)
Definition zero_entry : MetadataEntry := {| LastModified := ""; ETag := "" |}.

(** [metadata[url]]: indexing a Go map gives the zero value for a
    missing key. *)
Definition map_index (m : gmap string MetadataEntry) (url : string)
  : MetadataEntry :=
  default zero_entry (m !! url).

Record fetchTask := { dir : string; url : string }.

Record Request := { Method : string; URL : string; ReqHeader : Header }.

Record Response :=
  { StatusCode : Z; Status : string; RespHeader : Header; Body : string }.

(** A regular file: its bytes and its modification time. *)
Record File := { content : string; mtime : Z }.

(** The errors a task can meet, by the call that returns them. *)
Inductive error :=
| ErrNewRequest          (* http.NewRequest *)
| ErrDo                  (* http.DefaultClient.Do *)
| ErrUnexpected (status : string)  (* fmt.Errorf("unexpected response: %s") *)
| ErrCreateTemp          (* os.CreateTemp, ioutil.TempFile *)
| ErrCopy                (* io.Copy *)
| ErrRename.             (* os.Rename *)

(** The lines written with [log.Printf] and [log.Fatalf]. *)
Inductive logline :=
| LogChecking (url : string)
| LogNotModified (url : string)
| LogDownloaded (url outPath : string)
| LogErrorFetching (url : string) (e : error)
| LogErrorCreatingRequest (e : error)
| LogRequestFailed (url : string) (e : error)
| LogUnexpectedResponse (url status : string)
| LogRetryRequestFailed (url : string) (e : error)
| LogErrorCreatingTempFile (e : error)
| LogErrorWritingToFile (e : error)
| LogErrorRenamingFile (e : error)
| LogFatal (msg : string).

(** What the program shares between tasks: the files, the metadata
    map and the error flag of [main]; with the requests sent, the
    renames done and the lines logged so far. *)
Record World :=
  { fs : gmap string File;
    metadata : gmap string MetadataEntry;
    hadError : bool;
    sent : list Request;
    moved : list (string * string);
    logs : list logline }.

Definition set_fs (f : gmap string File → gmap string File) (w : World) :=
  {| fs := f (fs w); metadata := metadata w; hadError := hadError w;
     sent := sent w; moved := moved w; logs := logs w |}.
Definition set_metadata
    (f : gmap string MetadataEntry → gmap string MetadataEntry) (w : World) :=
  {| fs := fs w; metadata := f (metadata w); hadError := hadError w;
     sent := sent w; moved := moved w; logs := logs w |}.
Definition set_hadError (b : bool) (w : World) :=
  {| fs := fs w; metadata := metadata w; hadError := b;
     sent := sent w; moved := moved w; logs := logs w |}.
Definition add_sent (r : Request) (w : World) :=
  {| fs := fs w; metadata := metadata w; hadError := hadError w;
     sent := sent w ++ [r]; moved := moved w; logs := logs w |}.
Definition add_moved (old new : string) (w : World) :=
  {| fs := fs w; metadata := metadata w; hadError := hadError w;
     sent := sent w; moved := moved w ++ [(old, new)]; logs := logs w |}.
Definition add_log (l : logline) (w : World) :=
  {| fs := fs w; metadata := metadata w; hadError := hadError w;
     sent := sent w; moved := moved w; logs := logs w ++ [l] |}.

(** What the outside decides for one task: whether the URL makes a
    request, what the server answers to the n-th request of the task,
    how [http.ParseTime] reads a date, the clock, the random names
    tried for the temporary file, which system calls fail and the
    value of [$TMPDIR]. *)
Record Env :=
  { new_request_ok : string → bool;
    server : nat → Request → option Response;
    parse_time : string → option Z;
    now : Z;
    temp_rand : nat → N;
    create_temp_ok : bool;
    copy_error : option nat;
    rename_ok : bool;
    chtimes_ok : bool;
    tmpdir : string }.

(** [os.TempDir]: [$TMPDIR], or [/tmp] when that is empty. *)
Definition TempDir (env : Env) : string :=
  if decide (tmpdir env = "") then "/tmp" else tmpdir env.

(** The start of the names of [os.CreateTemp(dir, pattern)]:
    [joinPath(dir, pattern)], with [os.TempDir()] for an empty [dir]. *)
Definition temp_prefix (env : Env) (dir pattern : string) : string :=
  joinPath (if decide (dir = "") then TempDir env else dir) pattern.

(** [os.CreateTemp]: up to 10000 names [prefix + nextRandom()] are
    tried, the first that does not exist is created ([O_EXCL]). *)
Definition temp_tries : nat := 100 * 100.

Fixpoint create_temp_try (tries i : nat) (rand : nat → N) (prefix : string)
    (files : gmap string File) : option string :=
  match tries with
  | O => None
  | S tries' =>
      let name := prefix +:+ nextRandom (rand i) in
      match files !! name with
      | Some _ => create_temp_try tries' (S i) rand prefix files
      | None => Some name
      end
  end.

Definition do_create_temp (env : Env) (dir pattern : string) (w : World)
  : World * option string :=
  if create_temp_ok env then
    match create_temp_try temp_tries 0 (temp_rand env)
            (temp_prefix env dir pattern) (fs w) with
    | Some name =>
        (set_fs (insert name {| content := ""; mtime := now env |}) w,
         Some name)
    | None => (w, None)
    end
  else (w, None).

(** [io.Copy(tmpFile, resp.Body)] then [tmpFile.Close()]: the bytes
    that arrive before an error are in the file. *)
Definition do_copy (env : Env) (name body : string) (w : World)
  : World * bool :=
  let data := match copy_error env with
              | None => body
              | Some n => substring 0 n body
              end in
  (set_fs (alter (λ _, {| content := data; mtime := now env |}) name) w,
   bool_decide (copy_error env = None)).

(** [os.Rename]: replaces the target in one step; a rename that
    succeeds is recorded in [moved]. *)
Definition do_rename (env : Env) (old new : string) (w : World)
  : World * bool :=
  if rename_ok env then
    match fs w !! old with
    | Some f =>
        (add_moved old new (set_fs (λ m, <[new := f]> (delete old m)) w),
         true)
    | None => (w, false)
    end
  else (w, false).

(** [os.Chtimes(path, time.Now(), t)]; its error is not looked at. *)
Definition do_chtimes (env : Env) (path : string) (t : Z) (w : World)
  : World :=
  if chtimes_ok env
  then set_fs (alter (λ f, {| content := content f; mtime := t |}) path) w
  else w.

(** [os.Remove]; its error is not looked at. *)
Definition do_remove (path : string) (w : World) : World :=
  set_fs (delete path) w.

(** [http.DefaultClient.Do]: the [n]-th request of the task. *)
Definition do_request (env : Env) (n : nat) (req : Request) (w : World)
  : World * option Response :=
  (add_sent req w, server env n req).

(** Programs over these effects.  Each constructor but [Ret] is one
    step that other goroutines cannot split. *)
Inductive Prog (A : Type) : Type :=
| Ret (a : A)
| Log (l : logline) (k : Prog A)
| MetaGet (url : string) (k : MetadataEntry → Prog A)
| MetaSet (url : string) (e : MetadataEntry) (k : Prog A)
| FlagError (k : Prog A)
| ClientDo (n : nat) (req : Request) (k : option Response → Prog A)
| CreateTemp (dir pattern : string) (k : option string → Prog A)
| CopyClose (name body : string) (k : bool → Prog A)
| Rename (old new : string) (k : bool → Prog A)
| Chtimes (path : string) (t : Z) (k : Prog A)
| Remove (path : string) (k : Prog A).

Arguments Ret {A} a.
Arguments Log {A} l k.
Arguments MetaGet {A} url k.
Arguments MetaSet {A} url e k.
Arguments FlagError {A} k.
Arguments ClientDo {A} n req k.
Arguments CreateTemp {A} dir pattern k.
Arguments CopyClose {A} name body k.
Arguments Rename {A} old new k.
Arguments Chtimes {A} path t k.
Arguments Remove {A} path k.

Fixpoint bind {A B} (p : Prog A) (f : A → Prog B) : Prog B :=
  match p with
  | Ret a => f a
  | Log l k => Log l (bind k f)
  | MetaGet u k => MetaGet u (λ e, bind (k e) f)
  | MetaSet u e k => MetaSet u e (bind k f)
  | FlagError k => FlagError (bind k f)
  | ClientDo n r k => ClientDo n r (λ x, bind (k x) f)
  | CreateTemp d p k => CreateTemp d p (λ x, bind (k x) f)
  | CopyClose n b k => CopyClose n b (λ x, bind (k x) f)
  | Rename o n k => Rename o n (λ x, bind (k x) f)
  | Chtimes p t k => Chtimes p t (bind k f)
  | Remove p k => Remove p (bind k f)
  end.

Global Instance Prog_ret : MRet Prog := @Ret.
Global Instance Prog_bind : MBind Prog := λ A B f p, bind p f.

(** The single effects as programs. *)
Definition log (l : logline) : Prog unit := Log l (Ret tt).
Definition meta_get (u : string) : Prog MetadataEntry := MetaGet u Ret.
Definition meta_set (u : string) (e : MetadataEntry) : Prog unit :=
  MetaSet u e (Ret tt).
Definition flag_error : Prog unit := FlagError (Ret tt).
Definition client_do (n : nat) (r : Request) : Prog (option Response) :=
  ClientDo n r Ret.
Definition create_temp (d p : string) : Prog (option string) :=
  CreateTemp d p Ret.
Definition copy_close (n b : string) : Prog bool := CopyClose n b Ret.
Definition rename (o n : string) : Prog bool := Rename o n Ret.
Definition chtimes (p : string) (t : Z) : Prog unit := Chtimes p t (Ret tt).
Definition remove (p : string) : Prog unit := Remove p (Ret tt).

(** [defer cleanup]: runs when the rest of the function returns. *)
Definition defer {A} (cleanup : Prog unit) (rest : Prog A) : Prog A :=
  r ← rest; cleanup;; Ret r.

(** One step of a program that has not returned, in a process whose
    metadata map is a map.  On the nil map, which [readMetadata]
    returns for a null document, [MetaSet] is a panic instead: see
    [panics], [unwind] and [run_nil] below. *)
Definition step_prog {A} (env : Env) (p : Prog A) (w : World)
  : option (Prog A * World) :=
  match p with
  | Ret _ => None
  | Log l k => Some (k, add_log l w)
  | MetaGet u k => Some (k (map_index (metadata w) u), w)
  | MetaSet u e k => Some (k, set_metadata (insert u e) w)
  | FlagError k => Some (k, set_hadError true w)
  | ClientDo n r k => let '(w', x) := do_request env n r w in Some (k x, w')
  | CreateTemp d p k =>
      let '(w', x) := do_create_temp env d p w in Some (k x, w')
  | CopyClose n b k => let '(w', x) := do_copy env n b w in Some (k x, w')
  | Rename o n k => let '(w', x) := do_rename env o n w in Some (k x, w')
  | Chtimes p t k => Some (k, do_chtimes env p t w)
  | Remove p k => Some (k, do_remove p w)
  end.

(** A program run to its end with no other goroutine in between. *)
Fixpoint run {A} (env : Env) (p : Prog A) (w : World) : World * A :=
  match p with
  | Ret a => (w, a)
  | Log l k => run env k (add_log l w)
  | MetaGet u k => run env (k (map_index (metadata w) u)) w
  | MetaSet u e k => run env k (set_metadata (insert u e) w)
  | FlagError k => run env k (set_hadError true w)
  | ClientDo n r k =>
      let '(w', x) := do_request env n r w in run env (k x) w'
  | CreateTemp d p k =>
      let '(w', x) := do_create_temp env d p w in run env (k x) w'
  | CopyClose n b k => let '(w', x) := do_copy env n b w in run env (k x) w'
  | Rename o n k => let '(w', x) := do_rename env o n w in run env (k x) w'
  | Chtimes p t k => run env k (do_chtimes env p t w)
  | Remove p k => run env k (do_remove p w)
  end.

(** What a step did, with the answer it got. *)
Inductive event :=
| EvLog (l : logline)
| EvMetaGet (url : string) (e : MetadataEntry)
| EvMetaSet (url : string) (e : MetadataEntry)
| EvFlagError
| EvDo (n : nat) (req : Request) (resp : option Response)
| EvCreateTemp (dir pattern : string) (name : option string)
| EvCopy (name body : string) (ok : bool)
| EvRename (old new : string) (ok : bool)
| EvChtimes (path : string) (t : Z)
| EvRemove (path : string).

(** The steps of a run of a program, each with the world after it. *)
Fixpoint history {A} (env : Env) (p : Prog A) (w : World)
  : list (event * World) :=
  match p with
  | Ret a => []
  | Log l k => let w' := add_log l w in (EvLog l, w') :: history env k w'
  | MetaGet u k =>
      let e := map_index (metadata w) u in
      (EvMetaGet u e, w) :: history env (k e) w
  | MetaSet u e k =>
      let w' := set_metadata (insert u e) w in
      (EvMetaSet u e, w') :: history env k w'
  | FlagError k =>
      let w' := set_hadError true w in (EvFlagError, w') :: history env k w'
  | ClientDo n r k =>
      let '(w', x) := do_request env n r w in
      (EvDo n r x, w') :: history env (k x) w'
  | CreateTemp d p k =>
      let '(w', x) := do_create_temp env d p w in
      (EvCreateTemp d p x, w') :: history env (k x) w'
  | CopyClose n b k =>
      let '(w', x) := do_copy env n b w in
      (EvCopy n b x, w') :: history env (k x) w'
  | Rename o n k =>
      let '(w', x) := do_rename env o n w in
      (EvRename o n x, w') :: history env (k x) w'
  | Chtimes p t k =>
      let w' := do_chtimes env p t w in (EvChtimes p t, w') :: history env k w'
  | Remove p k =>
      let w' := do_remove p w in (EvRemove p, w') :: history env k w'
  end.

(** The nil map.  [var m Metadata] that the decoder leaves nil is
    read like the empty map, [metadata[url]] giving the zero value;
    the assignment [metadata[url] = e] to it is a run time panic.  A
    panic runs what the function has deferred, which in these
    programs are the [os.Remove] calls at the head of what is left of
    the task, and the process ends with status 2. *)
Definition panics {A} (p : Prog A) : bool :=
  match p with MetaSet _ _ _ => true | _ => false end.

Fixpoint unwind {A} (p : Prog A) (w : World) : World :=
  match p with
  | Remove path k => unwind k (do_remove path w)
  | _ => w
  end.

(** A program run to its end on the nil map, the map of the world
    being the empty one; [None] is the panic. *)
Fixpoint run_nil {A} (env : Env) (p : Prog A) (w : World)
  : World * option A :=
  match p with
  | Ret a => (w, Some a)
  | Log l k => run_nil env k (add_log l w)
  | MetaGet u k => run_nil env (k (map_index (metadata w) u)) w
  | MetaSet u e k => (unwind k w, None)
  | FlagError k => run_nil env k (set_hadError true w)
  | ClientDo n r k =>
      let '(w', x) := do_request env n r w in run_nil env (k x) w'
  | CreateTemp d p k =>
      let '(w', x) := do_create_temp env d p w in run_nil env (k x) w'
  | CopyClose n b k =>
      let '(w', x) := do_copy env n b w in run_nil env (k x) w'
  | Rename o n k =>
      let '(w', x) := do_rename env o n w in run_nil env (k x) w'
  | Chtimes p t k => run_nil env k (do_chtimes env p t w)
  | Remove p k => run_nil env k (do_remove p w)
  end.

(** The request both fetchers build: a GET with the conditional
    headers of the stored entry. *)
Definition with_header (cond : bool) (key value : string) (r : Request)
  : Request :=
  if cond
  then {| Method := Method r; URL := URL r;
          ReqHeader := Header_Set (ReqHeader r) key value |}
  else r.

Definition NewRequest (env : Env) (method url : string) : option Request :=
  if new_request_ok env url
  then Some {| Method := method; URL := url; ReqHeader := ∅ |}
  else None.

Definition conditional (meta : MetadataEntry) (req : Request) : Request :=
  with_header (negb (String.eqb (ETag meta) "")) "If-None-Match" (ETag meta)
    (with_header (negb (String.eqb (LastModified meta) ""))
       "If-Modified-Since" (LastModified meta) req).

(** The path of the downloaded file. *)
Definition outPathOf (dir url today : string) : string :=
  let base := Base url in
  Join [dir; TrimSuffix base ".csv" +:+ "-" +:+ today +:+ ".csv"].

Global Arguments outPathOf : simpl never.
Global Arguments conditional : simpl never.
Global Arguments NewRequest : simpl never.
Global Arguments map_index : simpl never.
Global Arguments do_create_temp : simpl never.
Global Arguments Header_Get : simpl never.

End Model.

(** ** The metadata file *)

Module Yaml.
Import GoStd Model.

#[local] Set Warnings "-register-all".

(** The documents the program writes and reads: null, strings and
    mappings. *)
Inductive node :=
| Null
| Scalar (s : string)
| Mapping (kvs : list (string * node)).

(** The encoder and the decoder of [gopkg.in/yaml.v3], between a
    document and its text.  [emit] writes the keys of a map in the
    order of the library, and [parse] gives the document as the
    decoder hands it to the Go value: with what YAML makes of the text
    itself, the merge key [<<] among it, resolved.  [None] is an
    error of the decoder, the [io.EOF] of an empty text too. *)
Record Codec := { emit : node → string; parse : string → option node }.

(** [type Metadata map[string]MetadataEntry]: a value of the type is
    the nil map or a map. *)
Inductive Metadata :=
| NilMap
| Loaded (m : gmap string MetadataEntry).

(** A field with the tag [omitempty]. *)
Definition omitempty (key value : string) : list (string * node) :=
  if decide (value = "") then [] else [(key, Scalar value)].

(** [MetadataEntry] with its tags [yaml:"last_modified,omitempty"] and
    [yaml:"etag,omitempty"]. *)
Definition marshal_entry (e : MetadataEntry) : node :=
  Mapping (omitempty "last_modified" (LastModified e)
           ++ omitempty "etag" (ETag e)).

(** [Metadata], a mapping with one key for each URL.  The pairs are
    those of a Go map and have no order of their own: [emit] writes
    them in the order of the library.  The nil map is written like
    the empty one, as [{}]. *)
Definition marshal (m : gmap string MetadataEntry) : node :=
  Mapping (prod_map id marshal_entry <$> map_to_list m).

(** One key of a mapping that is read into a [MetadataEntry]; a key
    that is no field of the struct is ignored, and a null leaves the
    field as it is. *)
Definition unmarshal_field (e : MetadataEntry) (kv : string * node)
  : option MetadataEntry :=
  if decide (kv.1 = "last_modified") then
    match kv.2 with
    | Scalar v => Some {| LastModified := v; ETag := ETag e |}
    | Null => Some e
    | Mapping _ => None
    end
  else if decide (kv.1 = "etag") then
    match kv.2 with
    | Scalar v => Some {| LastModified := LastModified e; ETag := v |}
    | Null => Some e
    | Mapping _ => None
    end
  else Some e.

Fixpoint unmarshal_fields (e : MetadataEntry) (kvs : list (string * node))
  : option MetadataEntry :=
  match kvs with
  | [] => Some e
  | kv :: rest => e' ← unmarshal_field e kv; unmarshal_fields e' rest
  end.

(** A key that is defined twice in a mapping is an error; a null
    value of a key of the map gives the zero entry. *)
Definition unmarshal_entry (n : node) : option MetadataEntry :=
  match n with
  | Mapping kvs =>
      if decide (NoDup kvs.*1) then unmarshal_fields zero_entry kvs else None
  | Null => Some zero_entry
  | Scalar _ => None
  end.

(** [Decode(&m)] for [var m Metadata]: a null document leaves the map
    nil, without an error. *)
Definition unmarshal (n : node) : option Metadata :=
  match n with
  | Mapping kvs =>
      if decide (NoDup kvs.*1) then
        entries ← mapM (λ kv, e ← unmarshal_entry kv.2; Some (kv.1, e)) kvs;
        Some (Loaded (list_to_map entries))
      else None
  | Null => Some NilMap
  | Scalar _ => None
  end.

(** [func readMetadata() Metadata]; [None] is the exit of
    [log.Fatalf].  [open_ok] is false when the file is there and
    cannot be opened. *)
Definition readMetadata (c : Codec) (open_ok : bool)
    (files : gmap string File) : option Metadata :=
  match files !! metadataFile with
  | None => Some (Loaded ∅)
  | Some f =>
      if open_ok then n ← parse c (content f); unmarshal n else None
  end.

(** The entries of a value of the type, as [metadata[url]] reads
    them: none in the nil map. *)
Definition map_of (md : Metadata) : gmap string MetadataEntry :=
  match md with NilMap => ∅ | Loaded m => m end.

Definition is_nil (md : Metadata) : bool :=
  match md with NilMap => true | Loaded _ => false end.

(** Which calls of [writeMetadata] fail, and its clock. *)
Record WriteEnv :=
  { create_ok : bool; encode_ok : bool; move_ok : bool; write_now : Z }.

(** [func writeMetadata(m Metadata)]; the boolean is false at an exit
    of [log.Fatalf]. *)
Definition writeMetadata (c : Codec) (we : WriteEnv) (w : World)
  : World * bool :=
  let tmp := metadataFile +:+ ".tmp" in
  if negb (create_ok we) then
    (add_log (LogFatal "Failed to write metadata") w, false)
  else
    let w1 :=
      set_fs (insert tmp {| content := ""; mtime := write_now we |}) w in
    if negb (encode_ok we) then
      (add_log (LogFatal "Failed to encode metadata") w1, false)
    else
      let f := {| content := emit c (marshal (metadata w));
                  mtime := write_now we |} in
      let w2 := set_fs (insert tmp f) w1 in
      if negb (move_ok we) then
        (add_log (LogFatal "Failed to move metadata file") w2, false)
      else
        (set_fs (λ m, <[metadataFile := f]> (delete tmp m)) w2, true).

(** One directory of [data-sources.yaml] in a run: whether
    [os.MkdirAll] succeeds, and its URLs, each with what the outside
    does during its task. *)
Record DirJob :=
  { dj_dir : string; dj_mkdir_ok : bool; dj_tasks : list (string * Env) }.

(** What a run starts from.  [in_sources] is the catalog in the order
    the loop over the map visits it, [None] when [readDataSources]
    ends in [log.Fatalf]. *)
Record Input :=
  { in_today : Date;
    in_sources : option (list DirJob);
    in_codec : Codec;
    in_open_ok : bool;
    in_files : gmap string File;
    in_write : WriteEnv }.

Definition start_world (files : gmap string File)
    (md : gmap string MetadataEntry) : World :=
  {| fs := files; metadata := md; hadError := false;
     sent := []; moved := []; logs := [] |}.

(** The end of [main], after the tasks: [writeMetadata(metadata)],
    then [os.Exit(1)] if [hadError]. *)
Definition finish (c : Codec) (we : WriteEnv) (w : World) : World * Z :=
  let '(w', ok) := writeMetadata c we w in
  (w', if ok then (if hadError w' then 1 else 0) else 1).

End Yaml.

(** ** The worker pool fetcher: [fetchOne] and its caller *)

Module Pool.
Import GoStd Model Yaml.

(** [func fetchOne(dir, url, today string, metadata Metadata,
    mu *sync.Mutex) error]; [None] is the [nil] error. *)
Definition fetchOne (env : Env) (dir url today : string)
  : Prog (option error) :=
  log (LogChecking url);;
  meta ← meta_get url;
  match NewRequest env "GET" url with
  | None => mret (Some ErrNewRequest)
  | Some req =>
    let req := conditional meta req in
    resp ← client_do 0 req;
    match resp with
    | None => mret (Some ErrDo)
    | Some resp =>
      if decide (StatusCode resp = StatusNotModified) then
        log (LogNotModified url);; mret None
      else if decide (StatusCode resp ≠ StatusOK) then
        mret (Some (ErrUnexpected (Status resp)))
      else
        let outPath := outPathOf dir url today in
        tmpFile ← create_temp dir "tmp";
        match tmpFile with
        | None => mret (Some ErrCreateTemp)
        | Some name =>
          defer (remove name)
            (ok ← copy_close name (Body resp);
             if negb ok then mret (Some ErrCopy) else
             ok ← rename name outPath;
             if negb ok then mret (Some ErrRename) else
             log (LogDownloaded url outPath);;
             (* Update metadata *)
             let newMeta := zero_entry in
             let lm := Header_Get (RespHeader resp) "Last-Modified" in
             newMeta ←
               (if decide (lm ≠ "") then
                  match parse_time env lm with
                  | Some t =>
                      chtimes outPath t;;
                      mret {| LastModified := lm; ETag := ETag newMeta |}
                  | None => mret newMeta
                  end
                else mret newMeta);
             let etag := Header_Get (RespHeader resp) "ETag" in
             let newMeta :=
               if decide (etag ≠ "")
               then {| LastModified := LastModified newMeta; ETag := etag |}
               else newMeta in
             meta_set url newMeta;;
             mret None)
        end
    end
  end.

(** The body of the loop [for task := range tasks] of a worker; the
    error of the task is kept as the result. *)
Definition worker_task (env : Env) (today : string) (task : fetchTask)
  : Prog (option error) :=
  err ← fetchOne env (dir task) (url task) today;
  match err with
  | Some e =>
      log (LogErrorFetching (url task) e);; flag_error;; mret (Some e)
  | None => mret None
  end.

Global Arguments fetchOne : simpl never.
Global Arguments worker_task : simpl never.

(** A task in the channel, with what the outside does during it. *)
Record Job := { job_task : fetchTask; job_env : Env }.

(** A worker goroutine: waiting at the channel, at a point of its
    task, or returned after the channel was closed. *)
Inductive worker :=
| WIdle
| WBusy (j : Job) (p : Prog (option error))
| WExited.

(** The steps of the loop [for dir, urls := range dataSources]. *)
Inductive dop :=
| DMkdirAll (d : string) (ok : bool)
| DSend (j : Job).

Definition dispatch_dir (d : DirJob) : list dop :=
  DMkdirAll (dj_dir d) (dj_mkdir_ok d)
  :: ((λ ue, DSend {| job_task := {| dir := dj_dir d; url := ue.1 |};
                      job_env := ue.2 |}) <$> dj_tasks d).

Definition dispatch_ops (cat : list DirJob) : list dop :=
  cat ≫= dispatch_dir.

(** The main goroutine: in the dispatch loop, at [wg.Wait()] after
    [close(tasks)], or past [writeMetadata]. *)
Inductive dispatcher :=
| Dispatching (ops : list dop)
| Waiting
| Finished.

(** The process: the shared world, whether its metadata map is the
    nil map, the buffer of the channel [tasks], the goroutines, the
    exit status once it has one, and the tasks that have returned with
    their errors. *)
Record State :=
  { world : World;
    nilmap : bool;
    tasks : list Job;
    closed : bool;
    workers : list worker;
    disp : dispatcher;
    exit : option Z;
    results : list (fetchTask * option error) }.

Definition set_world (w : World) (s : State) : State :=
  {| world := w; nilmap := nilmap s; tasks := tasks s; closed := closed s;
     workers := workers s; disp := disp s; exit := exit s;
     results := results s |}.
Definition set_nilmap (b : bool) (s : State) : State :=
  {| world := world s; nilmap := b; tasks := tasks s; closed := closed s;
     workers := workers s; disp := disp s; exit := exit s;
     results := results s |}.
Definition set_tasks (q : list Job) (s : State) : State :=
  {| world := world s; nilmap := nilmap s; tasks := q; closed := closed s;
     workers := workers s; disp := disp s; exit := exit s;
     results := results s |}.
Definition set_closed (b : bool) (s : State) : State :=
  {| world := world s; nilmap := nilmap s; tasks := tasks s; closed := b;
     workers := workers s; disp := disp s; exit := exit s;
     results := results s |}.
Definition set_worker (i : nat) (x : worker) (s : State) : State :=
  {| world := world s; nilmap := nilmap s; tasks := tasks s;
     closed := closed s; workers := <[i := x]> (workers s);
     disp := disp s; exit := exit s; results := results s |}.
Definition set_disp (d : dispatcher) (s : State) : State :=
  {| world := world s; nilmap := nilmap s; tasks := tasks s;
     closed := closed s; workers := workers s; disp := d; exit := exit s;
     results := results s |}.
Definition set_exit (c : Z) (s : State) : State :=
  {| world := world s; nilmap := nilmap s; tasks := tasks s;
     closed := closed s; workers := workers s; disp := disp s;
     exit := Some c; results := results s |}.
Definition add_result (r : fetchTask * option error) (s : State) : State :=
  {| world := world s; nilmap := nilmap s; tasks := tasks s;
     closed := closed s; workers := workers s; disp := disp s;
     exit := exit s; results := results s ++ [r] |}.

(** The steps of the process; a process that has exited has none.  In
    a process with the nil map the assignment of a task is no step of
    the task: it is the panic that ends the process, taken as one step
    with the deferred calls of the goroutine. *)
Inductive step (today : string) (c : Codec) (we : WriteEnv)
  : State → State → Prop :=
| step_mkdir_ok s d ops :
    exit s = None →
    disp s = Dispatching (DMkdirAll d true :: ops) →
    step today c we s (set_disp (Dispatching ops) s)
| step_mkdir_fatal s d ops :
    exit s = None →
    disp s = Dispatching (DMkdirAll d false :: ops) →
    step today c we s
      (set_exit 1
         (set_world (add_log (LogFatal "Failed to create directory")
                       (world s)) s))
| step_send s j ops :
    exit s = None →
    disp s = Dispatching (DSend j :: ops) →
    (length (tasks s) < maxParallel)%nat →
    step today c we s
      (set_disp (Dispatching ops) (set_tasks (tasks s ++ [j]) s))
| step_close s :
    exit s = None →
    disp s = Dispatching [] →
    step today c we s (set_disp Waiting (set_closed true s))
| step_recv s i j q :
    exit s = None →
    workers s !! i = Some WIdle →
    tasks s = j :: q →
    step today c we s
      (set_worker i (WBusy j (worker_task (job_env j) today (job_task j)))
         (set_tasks q s))
| step_work s i j p p' w' :
    exit s = None →
    workers s !! i = Some (WBusy j p) →
    step_prog (job_env j) p (world s) = Some (p', w') →
    (nilmap s = true → panics p = false) →
    step today c we s (set_worker i (WBusy j p') (set_world w' s))
| step_panic s i j u e k :
    exit s = None →
    nilmap s = true →
    workers s !! i = Some (WBusy j (MetaSet u e k)) →
    step today c we s (set_exit 2 (set_world (unwind k (world s)) s))
| step_done s i j r :
    exit s = None →
    workers s !! i = Some (WBusy j (Ret r)) →
    step today c we s (set_worker i WIdle (add_result (job_task j, r) s))
| step_return s i :
    exit s = None →
    workers s !! i = Some WIdle →
    tasks s = [] →
    closed s = true →
    step today c we s (set_worker i WExited s)
| step_finish s :
    exit s = None →
    disp s = Waiting →
    Forall (λ x, x = WExited) (workers s) →
    step today c we s
      (set_exit (finish c we (world s)).2
         (set_disp Finished (set_world (finish c we (world s)).1 s))).

(** The process after [readDataSources] and [readMetadata]: exited
    with status 1 if one of them failed, else with its workers
    started and nothing dispatched. *)
Definition boot (w : World) (ops : list dop) (code : option Z) : State :=
  {| world := w; nilmap := false; tasks := []; closed := false;
     workers := replicate maxParallel WIdle;
     disp := Dispatching ops; exit := code; results := [] |}.

Definition init (i : Input) : State :=
  match in_sources i with
  | None =>
      boot (add_log (LogFatal "Failed to read data-sources.yaml")
              (start_world (in_files i) ∅)) [] (Some 1)
  | Some cat =>
      match readMetadata (in_codec i) (in_open_ok i) (in_files i) with
      | None =>
          boot (add_log (LogFatal "Failed to read metadata")
                  (start_world (in_files i) ∅)) [] (Some 1)
      | Some (Loaded md) =>
          boot (start_world (in_files i) md) (dispatch_ops cat) None
      | Some NilMap =>
          set_nilmap true
            (boot (start_world (in_files i) ∅) (dispatch_ops cat) None)
      end
  end.

(** The states of the runs of [main]. *)
Definition reachable (i : Input) (s : State) : Prop :=
  rtc (step (Format_2006_01_02 (in_today i)) (in_codec i) (in_write i))
      (init i) s.

End Pool.

(** ** The sequential fetcher of [main.go] *)

Module Seq.
Import GoStd Model Yaml.

(** How the body of the loop over the URLs ends; [Panicked] when the
    assignment [metadata[url] = meta] meets the nil map. *)
Inductive outcome := Unchanged | Fetched | Failed (e : error) | Panicked.

(** [log.Printf(...); hadError = true; continue]. *)
Definition fail (l : logline) (e : error) : Prog outcome :=
  log l;; flag_error;; mret (Failed e).

(** The body of [for _, url := range urls] in [main]. *)
Definition fetchBody (env : Env) (dir url today : string) : Prog outcome :=
  log (LogChecking url);;
  meta ← meta_get url;
  match NewRequest env "GET" url with
  | None => fail (LogErrorCreatingRequest ErrNewRequest) ErrNewRequest
  | Some req =>
    let req := conditional meta req in
    resp ← client_do 0 req;
    match resp with
    | None => fail (LogRequestFailed url ErrDo) ErrDo
    | Some resp =>
      (* resp.Body.Close(): will re-open later if 200 *)
      if decide (StatusCode resp = StatusNotModified) then
        log (LogNotModified url);; mret Unchanged
      else if decide (StatusCode resp ≠ StatusOK) then
        fail (LogUnexpectedResponse url (Status resp))
             (ErrUnexpected (Status resp))
      else
        (* Stream response to a temporary file *)
        resp ← client_do 1 req;
        match resp with
        | None => fail (LogRetryRequestFailed url ErrDo) ErrDo
        | Some resp =>
          let outPath := outPathOf dir url today in
          tmpFile ← create_temp dir "tmp";
          match tmpFile with
          | None => fail (LogErrorCreatingTempFile ErrCreateTemp) ErrCreateTemp
          | Some name =>
            ok ← copy_close name (Body resp);
            if negb ok then
              log (LogErrorWritingToFile ErrCopy);;
              remove name;;
              flag_error;;
              mret (Failed ErrCopy)
            else
            ok ← rename name outPath;
            if negb ok then fail (LogErrorRenamingFile ErrRename) ErrRename
            else
            log (LogDownloaded url outPath);;
            (* Preserve last-modified time *)
            let lm := Header_Get (RespHeader resp) "Last-Modified" in
            meta ←
              (if decide (lm ≠ "") then
                 match parse_time env lm with
                 | Some t =>
                     chtimes outPath t;;
                     mret {| LastModified := lm; ETag := ETag meta |}
                 | None => mret meta
                 end
               else mret meta);
            let etag := Header_Get (RespHeader resp) "ETag" in
            let meta :=
              if decide (etag ≠ "")
              then {| LastModified := LastModified meta; ETag := etag |}
              else meta in
            meta_set url meta;;
            mret Fetched
          end
        end
    end
  end.

Global Arguments fetchBody : simpl never.

(** [for _, url := range urls], with how each task ended. *)
Fixpoint run_urls (today d : string) (ts : list (string * Env)) (w : World)
  : World * list (fetchTask * outcome) :=
  match ts with
  | [] => (w, [])
  | ue :: rest =>
      let '(w1, o) := run ue.2 (fetchBody ue.2 d ue.1 today) w in
      let '(w2, os) := run_urls today d rest w1 in
      (w2, ({| dir := d; url := ue.1 |}, o) :: os)
  end.

(** [for dir, urls := range dataSources]; the boolean is false when
    [os.MkdirAll] fails and [log.Fatalf] ends the process. *)
Fixpoint run_dirs (today : string) (cat : list DirJob) (w : World)
  : World * list (fetchTask * outcome) * bool :=
  match cat with
  | [] => (w, [], true)
  | d :: rest =>
      if dj_mkdir_ok d then
        let '(w1, os1) := run_urls today (dj_dir d) (dj_tasks d) w in
        let '(w2, os2, ok) := run_dirs today rest w1 in
        (w2, os1 ++ os2, ok)
      else (add_log (LogFatal "Failed to create directory") w, [], false)
  end.

(** The same loop in a process with the nil map, up to the first body
    whose assignment panics; the boolean is false at the panic. *)
Fixpoint run_urls_nil (today d : string) (ts : list (string * Env)) (w : World)
  : World * list (fetchTask * outcome) * bool :=
  match ts with
  | [] => (w, [], true)
  | ue :: rest =>
      match run_nil ue.2 (fetchBody ue.2 d ue.1 today) w with
      | (w1, Some o) =>
          let '(w2, os, ok) := run_urls_nil today d rest w1 in
          (w2, ({| dir := d; url := ue.1 |}, o) :: os, ok)
      | (w1, None) => (w1, [({| dir := d; url := ue.1 |}, Panicked)], false)
      end
  end.

(** The loop over the directories in a process with the nil map, with
    the status of the process if it ends in the loop: 1 after
    [log.Fatalf], 2 after a panic. *)
Fixpoint run_dirs_nil (today : string) (cat : list DirJob) (w : World)
  : World * list (fetchTask * outcome) * option Z :=
  match cat with
  | [] => (w, [], None)
  | d :: rest =>
      if dj_mkdir_ok d then
        let '(w1, os1, ok) := run_urls_nil today (dj_dir d) (dj_tasks d) w in
        if ok then
          let '(w2, os2, died) := run_dirs_nil today rest w1 in
          (w2, os1 ++ os2, died)
        else (w1, os1, Some 2)
      else (add_log (LogFatal "Failed to create directory") w, [], Some 1)
  end.

(** A finished process. *)
Record Result :=
  { exit_code : Z;
    final : World;
    outcomes : list (fetchTask * outcome) }.

(** [func main()]. *)
Definition main (i : Input) : Result :=
  let today := Format_2006_01_02 (in_today i) in
  match in_sources i with
  | None =>
      {| exit_code := 1;
         final := add_log (LogFatal "Failed to read data-sources.yaml")
                    (start_world (in_files i) ∅);
         outcomes := [] |}
  | Some cat =>
      match readMetadata (in_codec i) (in_open_ok i) (in_files i) with
      | None =>
          {| exit_code := 1;
             final := add_log (LogFatal "Failed to read metadata")
                        (start_world (in_files i) ∅);
             outcomes := [] |}
      | Some (Loaded md) =>
          let '(w, os, ok) :=
            run_dirs today cat (start_world (in_files i) md) in
          if ok then
            let '(w', code) := finish (in_codec i) (in_write i) w in
            {| exit_code := code; final := w'; outcomes := os |}
          else {| exit_code := 1; final := w; outcomes := os |}
      | Some NilMap =>
          let '(w, os, died) :=
            run_dirs_nil today cat (start_world (in_files i) ∅) in
          match died with
          | None =>
              let '(w', code) := finish (in_codec i) (in_write i) w in
              {| exit_code := code; final := w'; outcomes := os |}
          | Some code => {| exit_code := code; final := w; outcomes := os |}
          end
      end
  end.

End Seq.

(** ** Vocabulary of the statements *)

Module Terms.
Import GoStd Model Yaml.

(** A string with a path separator in it. *)
Fixpoint has_sep (s : string) : bool :=
  match s with
  | "" => false
  | String c s' => is_sep c || has_sep s'
  end.

(** The final path segment of a URL, in the words of the naming rule:
    the last piece between slashes that is not empty. *)
Definition final_segment (url : string) : option string :=
  last (filter (λ e, e ≠ "") (split_slash url)).

(** The value of a string of decimal digits. *)
Definition digit_value (c : ascii) : Z := Z.of_N (N_of_ascii c) - 48.

Fixpoint atoi_from (acc : Z) (s : string) : Z :=
  match s with
  | "" => acc
  | String c s' => atoi_from (10 * acc + digit_value c) s'
  end.

Definition atoi (s : string) : Z := atoi_from 0 s.

Fixpoint all_digits (s : string) : bool :=
  match s with
  | "" => true
  | String c s' => is_digit c && all_digits s'
  end.

(** A field of [width] decimal digits that reads back as [n]. *)
Definition digits_of (width : nat) (n : Z) (s : string) : bool :=
  (String.length s =? width)%nat && all_digits s && (atoi s =? n).

(** The form YYYY-MM-DD of a date. *)
Definition is_stamp_of (t : Date) (s : string) : Prop :=
  ∃ y m d, s = y +:+ "-" +:+ m +:+ "-" +:+ d
    ∧ digits_of 4 (year t) y = true
    ∧ digits_of 2 (month t) m = true
    ∧ digits_of 2 (day t) d = true.

(** The answer of the server to the request of a task. *)
Definition first_response (env : Env) (w : World) (url : string) : option Response :=
  req ← NewRequest env "GET" url;
  server env 0 (conditional (map_index (metadata w) url) req).

(** The request of a task, if the URL makes one. *)
Definition task_request (env : Env) (w : World) (url : string)
  : option Request :=
  req ← NewRequest env "GET" url;
  Some (conditional (map_index (metadata w) url) req).

(** The run meets a copy of the body that fails. *)
Definition copy_failed (h : list (event * World)) : bool :=
  existsb (λ ew, match ew.1 with EvCopy _ _ false => true | _ => false end) h.

(** The request carries the conditional headers of the entry, and
    no other header. *)
Definition carries_conditionals (meta : MetadataEntry) (url : string)
    (req : Request) : Prop :=
  Method req = "GET" ∧ URL req = url
  ∧ ReqHeader req !! "If-Modified-Since"
    = (if decide (LastModified meta = "") then None
       else Some [LastModified meta])
  ∧ ReqHeader req !! "If-None-Match"
    = (if decide (ETag meta = "") then None else Some [ETag meta])
  ∧ ∀ k, k ≠ "If-Modified-Since" → k ≠ "If-None-Match" →
         ReqHeader req !! k = None.

Definition header_entry (env : Env) (resp : Response) : MetadataEntry :=
  let lm := Header_Get (RespHeader resp) "Last-Modified" in
  {| LastModified := match parse_time env lm with Some _ => lm | None => "" end;
     ETag := Header_Get (RespHeader resp) "ETag" |}.

Definition stored (h : list (event * World)) : list (string * MetadataEntry) :=
  omap (λ ew, match ew.1 with EvMetaSet u e => Some (u, e) | _ => None end) h.
Definition chtimes_calls (h : list (event * World)) : list (string * Z) :=
  omap (λ ew, match ew.1 with EvChtimes p t => Some (p, t) | _ => None end) h.

Definition fetched_chtimes (env : Env) (resp : Response) : option Z :=
  let lm := Header_Get (RespHeader resp) "Last-Modified" in
  if decide (lm ≠ "") then parse_time env lm else None.

Definition fetched_file (env : Env) (resp : Response) : File :=
  {| content := Body resp;
     mtime := match fetched_chtimes env resp with
              | Some t => if chtimes_ok env then t else now env
              | None => now env
              end |}.

Definition merged_entry (env : Env) (meta : MetadataEntry) (resp : Response)
  : MetadataEntry :=
  let lm := Header_Get (RespHeader resp) "Last-Modified" in
  let etag := Header_Get (RespHeader resp) "ETag" in
  {| LastModified :=
       match fetched_chtimes env resp with
       | Some _ => lm
       | None => LastModified meta
       end;
     ETag := if decide (etag ≠ "") then etag else ETag meta |}.

(** What a task that downloads does to the world. *)
Record downloaded (d u today : string) (env : Env) (resp : Response)
    (e : MetadataEntry) (h : list (event * World)) (w w' : World) : Prop :=
  { dl_stored : stored h = [(u, e)];
    dl_metadata : metadata w' = <[u := e]> (metadata w);
    dl_moved : ∃ name, fs w !! name = None
                 ∧ moved w' = moved w ++ [(name, outPathOf d u today)];
    dl_fs : fs w' = <[outPathOf d u today := fetched_file env resp]> (fs w);
    dl_chtimes : chtimes_calls h
                 = match fetched_chtimes env resp with
                   | Some t => [(outPathOf d u today, t)]
                   | None => []
                   end;
    dl_flag : hadError w' = hadError w }.

(** What a task that does not download leaves as it was. *)
Record untouched (h : list (event * World)) (w w' : World) : Prop :=
  { un_stored : stored h = [];
    un_metadata : metadata w' = metadata w;
    un_moved : moved w' = moved w;
    un_chtimes : chtimes_calls h = [] }.

Definition failed (o : Seq.outcome) : bool :=
  match o with Seq.Failed _ => true | _ => false end.
Definition is_error (r : option error) : bool :=
  match r with Some _ => true | None => false end.

Definition dir_tasks (d : DirJob) : list fetchTask :=
  (λ ue, {| dir := dj_dir d; url := ue.1 |}) <$> dj_tasks d.
Definition catalog_tasks (cat : list DirJob) : list fetchTask :=
  cat ≫= dir_tasks.

(** A run that no [log.Fatalf] and no panic ends: the catalog is
    read, the metadata file is read and gives a map, not the nil map
    of a null document, every directory is made and the metadata file
    is written. *)
Definition no_fatal (i : Input) (cat : list DirJob) : Prop :=
  in_sources i = Some cat
  ∧ (∃ md, readMetadata (in_codec i) (in_open_ok i) (in_files i)
           = Some (Loaded md))
  ∧ Forall (λ d, dj_mkdir_ok d = true) cat
  ∧ create_ok (in_write i) = true
  ∧ encode_ok (in_write i) = true
  ∧ move_ok (in_write i) = true.

(** The metadata file holds the text of the document of the map, a
    document that [Decode] turns into the map again. *)
Definition persisted (c : Codec) (w : World) : Prop :=
  (∃ t, fs w !! metadataFile
        = Some {| content := emit c (marshal (metadata w)); mtime := t |})
  ∧ unmarshal (marshal (metadata w)) = Some (Loaded (metadata w)).

(** Every entry of the map that differs from the one at the start
    belongs to a URL whose download was renamed into place. *)
Definition stores_follow_renames (today : string)
    (md0 : gmap string MetadataEntry) (w : World) : Prop :=
  ∀ u, metadata w !! u ≠ md0 !! u →
       ∃ d name, (name, outPathOf d u today) ∈ moved w.

Definition any_failed (os : list (fetchTask * Seq.outcome)) : bool :=
  existsb (λ to, failed to.2) os.
Definition any_error (rs : list (fetchTask * option error)) : bool :=
  existsb (λ tr, is_error tr.2) rs.

(** A plain name: one path element that is not [.] or [..]. *)
Definition plain (s : string) : Prop :=
  has_sep s = false ∧ s ≠ "" ∧ s ≠ "." ∧ s ≠ "..".

End Terms.

(** ** Invariants of the worker pool *)

Module Inv.
Import GoStd Model Yaml Pool Terms.

(** Every end of the program returns an error exactly when the error
    flag was set on the way, [flagged] telling whether it was set
    before the program starts. *)
Fixpoint flag_ok (flagged : bool) (p : Prog (option error)) : Prop :=
  match p with
  | Ret r => is_error r = flagged
  | Log _ k => flag_ok flagged k
  | MetaGet _ k => ∀ e, flag_ok flagged (k e)
  | MetaSet _ _ k => flag_ok flagged k
  | FlagError k => flag_ok true k
  | ClientDo _ _ k => ∀ x, flag_ok flagged (k x)
  | CreateTemp _ _ k => ∀ x, flag_ok flagged (k x)
  | CopyClose _ _ k => ∀ x, flag_ok flagged (k x)
  | Rename _ _ k => ∀ x, flag_ok flagged (k x)
  | Chtimes _ _ k => flag_ok flagged k
  | Remove _ k => flag_ok flagged k
  end.

(** The program stores an entry for [u] alone, and only after a
    rename to [out] has succeeded, [renamed] telling whether one did
    before the program starts. *)
Fixpoint store_ok {A} (out u : string) (renamed : bool) (p : Prog A) : Prop :=
  match p with
  | Ret _ => True
  | Log _ k => store_ok out u renamed k
  | MetaGet _ k => ∀ e, store_ok out u renamed (k e)
  | MetaSet u' _ k => u' = u ∧ renamed = true ∧ store_ok out u renamed k
  | FlagError k => store_ok out u renamed k
  | ClientDo _ _ k => ∀ x, store_ok out u renamed (k x)
  | CreateTemp _ _ k => ∀ x, store_ok out u renamed (k x)
  | CopyClose _ _ k => ∀ x, store_ok out u renamed (k x)
  | Rename _ new k =>
      store_ok out u (renamed || bool_decide (new = out)) (k true)
      ∧ store_ok out u renamed (k false)
  | Chtimes _ _ k => store_ok out u renamed k
  | Remove _ k => store_ok out u renamed k
  end.

Definition op_task (op : dop) : option fetchTask :=
  match op with DSend j => Some (job_task j) | DMkdirAll _ _ => None end.
Definition disp_ops (d : dispatcher) : list dop :=
  match d with Dispatching ops => ops | _ => [] end.
Definition busy_task (x : worker) : option fetchTask :=
  match x with WBusy j _ => Some (job_task j) | _ => None end.

(** The tasks that have not returned: not yet sent, in the channel,
    or with a worker. *)
Definition open_tasks (s : State) : list fetchTask :=
  omap op_task (disp_ops (disp s)) ++ (job_task <$> tasks s)
  ++ omap busy_task (workers s).

(** How the goroutines and the channel of a run hang together. *)
Record struct_inv (cat : list DirJob) (s : State) : Prop :=
  { inv_len : length (workers s) = maxParallel;
    inv_ops : ∃ pre, dispatch_ops cat = pre ++ disp_ops (disp s);
    inv_closed :
      closed s = match disp s with Dispatching _ => false | _ => true end;
    inv_exited : WExited ∈ workers s → tasks s = [] ∧ closed s = true;
    inv_finished : disp s = Finished → is_Some (exit s);
    inv_tasks : open_tasks s ++ (results s).*1 ≡ₚ catalog_tasks cat }.

(** The error flag is set exactly by the tasks that return an error. *)
Record flag_inv (s : State) : Prop :=
  { fi_workers : ∀ i j p, workers s !! i = Some (WBusy j p) →
      ∃ f, flag_ok f p ∧ (f = true → hadError (world s) = true);
    fi_results : any_error (results s) = true → hadError (world s) = true;
    fi_source : hadError (world s) = true →
      any_error (results s) = true
      ∨ ∃ i j p, workers s !! i = Some (WBusy j p) ∧ flag_ok true p }.

Definition job_out (today : string) (j : Job) : string :=
  outPathOf (dir (job_task j)) (url (job_task j)) today.

(** The map is written by tasks alone, each for its URL and after its
    rename. *)
Record store_inv (today : string) (md0 : gmap string MetadataEntry)
    (s : State) : Prop :=
  { si_workers : ∀ i j p, workers s !! i = Some (WBusy j p) →
      ∃ rn, store_ok (job_out today j) (url (job_task j)) rn p
            ∧ (rn = true → ∃ name, (name, job_out today j) ∈ moved (world s));
    si_store : stores_follow_renames today md0 (world s) }.

(** A run in which no system call of [main] itself fails. *)
Definition clean_run (cat : list DirJob) (we : WriteEnv) : Prop :=
  Forall (λ d, dj_mkdir_ok d = true) cat
  ∧ create_ok we = true ∧ encode_ok we = true ∧ move_ok we = true.

(** What holds of a process of the pool that has exited: with the
    status 2 after a panic, which only a process with the nil map
    meets. *)
Definition exit_inv (c : Codec) (we : WriteEnv) (cat : list DirJob)
    (s : State) : Prop :=
  ∀ code, exit s = Some code →
    (code = 0 ∨ code = 1 ∨ (code = 2 ∧ nilmap s = true))
    ∧ (any_error (results s) = true → code = 1 ∨ code = 2)
    ∧ (clean_run cat we → nilmap s = false →
       (results s).*1 ≡ₚ catalog_tasks cat
       ∧ (code = 0 ↔ any_error (results s) = false)
       ∧ persisted c (world s)).

(** The program returns within [n] steps, whatever it is answered. *)
Fixpoint bounded {A} (n : nat) (p : Prog A) {struct p} : Prop :=
  match p with
  | Ret _ => True
  | Log _ k | MetaSet _ _ k | FlagError k | Chtimes _ _ k | Remove _ k =>
      match n with O => False | S n' => bounded n' k end
  | MetaGet _ k =>
      match n with O => False | S n' => ∀ x, bounded n' (k x) end
  | ClientDo _ _ k =>
      match n with O => False | S n' => ∀ x, bounded n' (k x) end
  | CreateTemp _ _ k =>
      match n with O => False | S n' => ∀ x, bounded n' (k x) end
  | CopyClose _ _ k | Rename _ _ k =>
      match n with O => False | S n' => ∀ x, bounded n' (k x) end
  end.

(** The steps of the longest task. *)
Definition task_steps : nat := 10.

Definition worker_bound (x : worker) (b : nat) : Prop :=
  match x with
  | WIdle => b = 1%nat
  | WBusy _ p => ∃ n, bounded n p ∧ (n ≤ task_steps)%nat ∧ b = (n + 2)%nat
  | WExited => b = 0%nat
  end.

Definition op_weight (op : dop) : nat :=
  match op with DMkdirAll _ _ => 1 | DSend _ => task_steps + 3 end.

Definition disp_weight (d : dispatcher) : nat :=
  match d with
  | Dispatching ops => 2 + sum_list (op_weight <$> ops)
  | Waiting => 1
  | Finished => 0
  end.

(** A bound on the steps a process has left. *)
Definition steps_left (s : State) (n : nat) : Prop :=
  ∃ bs, Forall2 worker_bound (workers s) bs
    ∧ n = (disp_weight (disp s) + (task_steps + 2) * length (tasks s)
           + sum_list bs)%nat.

End Inv.

(** ** A small codec and the scenario of the specification *)

Module Scenario.
Import GoStd Model Yaml Terms.

(** A codec for the documents of the program, in the block style that
    [gopkg.in/yaml.v3] writes with an indent of two: a string is
    written plain where it reads back as the same string and in
    double quotes elsewhere, an empty map as [{}], a null as [null].
    As in the library a plain [<<] is written as it is and read as
    the merge key, and a text without a document is an error, the
    [io.EOF] of the decoder.  The keys are written in the order of
    the document. *)

Definition nl : string := String "010" "".
Definition dq : ascii := "034".
Definition bs : ascii := "092".

(** The lines of a text that ends each line with a newline. *)
Fixpoint lines_from (cur : string) (s : string) : list string :=
  match s with
  | "" => if decide (cur = "") then [] else [String.rev cur]
  | String c s' =>
      if Ascii.eqb c "010" then String.rev cur :: lines_from "" s'
      else lines_from (String c cur) s'
  end.

Definition is_letter (c : ascii) : bool :=
  let n := nat_of_ascii c in
  ((65 <=? n) && (n <=? 90) || (97 <=? n) && (n <=? 122))%nat.

Definition is_printable (c : ascii) : bool :=
  let n := nat_of_ascii c in ((32 <=? n) && (n <=? 126))%nat.

Fixpoint contains (sub s : string) : bool :=
  HasPrefix s sub
  || match s with "" => false | String _ s' => contains sub s' end.

Fixpoint all_chars (f : ascii → bool) (s : string) : bool :=
  match s with "" => true | String c s' => f c && all_chars f s' end.

(** The words that are no strings when they are written plain. *)
Definition words : list string :=
  ["null"; "Null"; "NULL"; "true"; "True"; "TRUE"; "false"; "False"; "FALSE";
   "y"; "Y"; "yes"; "Yes"; "YES"; "n"; "N"; "no"; "No"; "NO";
   "on"; "On"; "ON"; "off"; "Off"; "OFF"].

(** A string that is written plain. *)
Definition plain_ok (s : string) : bool :=
  match s with
  | "" => false
  | String c _ =>
      (is_letter c || Ascii.eqb c "/" || Ascii.eqb c "<")
      && all_chars (λ x, is_printable x && negb (Ascii.eqb x dq)
                         && negb (Ascii.eqb x bs)) s
      && negb (contains ": " s) && negb (contains " #" s)
      && negb (HasSuffix s ":") && negb (HasSuffix s " ")
      && negb (bool_decide (s ∈ words))
  end.

Fixpoint escape (s : string) : string :=
  match s with
  | "" => ""
  | String c s' =>
      if Ascii.eqb c dq then String bs (String dq (escape s'))
      else if Ascii.eqb c bs then String bs (String bs (escape s'))
      else if Ascii.eqb c "010" then String bs (String "n" (escape s'))
      else String c (escape s')
  end.

Definition scalar_text (s : string) : string :=
  if plain_ok s then s else String dq (escape s) +:+ String dq "".

Definition emit_field (kv : string * node) : string :=
  "  " +:+ scalar_text kv.1 +:+ ":"
  +:+ match kv.2 with
      | Scalar v => " " +:+ scalar_text v
      | Null => " null"
      | Mapping _ => " {}"
      end +:+ nl.

Definition emit_entry (kv : string * node) : string :=
  scalar_text kv.1 +:+ ":"
  +:+ match kv.2 with
      | Mapping [] => " {}" +:+ nl
      | Mapping fields => nl +:+ String.concat "" (emit_field <$> fields)
      | Scalar v => " " +:+ scalar_text v +:+ nl
      | Null => " null" +:+ nl
      end.

(** Block style with an indent of two, as [enc.SetIndent(2)] asks. *)
Definition block_emit (n : node) : string :=
  match n with
  | Mapping [] => "{}" +:+ nl
  | Mapping kvs => String.concat "" (emit_entry <$> kvs)
  | Scalar v => scalar_text v +:+ nl
  | Null => "null" +:+ nl
  end.

(** A key as it is read: plain or in quotes. *)
Inductive key := Plain (s : string) | Quoted (s : string).

Definition key_text (k : key) : string :=
  match k with Plain s | Quoted s => s end.
Definition is_merge (k : key) : bool :=
  match k with Plain s => bool_decide (s = "<<") | Quoted _ => false end.

(** The string in double quotes whose opening quote has been read,
    and the text after its closing quote. *)
Fixpoint read_quoted (acc : string) (s : string) : option (string * string) :=
  match s with
  | "" => None
  | String c s' =>
      if Ascii.eqb c dq then Some (String.rev acc, s')
      else if Ascii.eqb c bs then
        match s' with
        | String e s'' =>
            if Ascii.eqb e "n" then read_quoted (String "010" acc) s''
            else if Ascii.eqb e dq || Ascii.eqb e bs
            then read_quoted (String e acc) s''
            else None
        | "" => None
        end
      else read_quoted (String c acc) s'
  end.

(** The key of a line and the text after its colon. *)
Definition read_key (line : string) : option (key * string) :=
  match line with
  | "" => None
  | String c rest =>
      if Ascii.eqb c dq then
        match read_quoted "" rest with
        | Some (k, String ":" after) => Some (Quoted k, after)
        | _ => None
        end
      else
        match index 0 ": " line with
        | Some i =>
            Some (Plain (substring 0 i line),
                  substring (i + 1) (String.length line - (i + 1)) line)
        | None =>
            if HasSuffix line ":" then Some (Plain (TrimSuffix line ":"), "")
            else None
        end
  end.

(** The value after the colon of a line; no value when a block
    follows. *)
Definition read_value (after : string) : option (option node) :=
  match after with
  | "" => Some None
  | String " " v =>
      if decide (v = "{}") then Some (Some (Mapping []))
      else if decide (v = "null" ∨ v = "~") then Some (Some Null)
      else match v with
           | "" => None
           | String c v' =>
               if Ascii.eqb c dq then
                 match read_quoted "" v' with
                 | Some (x, "") => Some (Some (Scalar x))
                 | _ => None
                 end
               else Some (Some (Scalar v))
           end
  | _ => None
  end.

(** An entry while its lines are read: with its value, or with the
    fields of its block so far. *)
Inductive item := Closed (n : node) | Open (fields : list (key * node)).

Definition parse_line (acc : option (list (key * item))) (line : string)
  : option (list (key * item)) :=
  acc ← acc;
  if HasPrefix line "  " then
    '(k, after) ← read_key (substring 2 (String.length line - 2) line);
    v ← read_value after;
    match v, acc with
    | Some n, (k0, Open fields) :: rest =>
        Some ((k0, Open (fields ++ [(k, n)])) :: rest)
    | _, _ => None
    end
  else
    '(k, after) ← read_key line;
    v ← read_value after;
    Some ((k, match v with Some n => Closed n | None => Open [] end) :: acc).

(** The fields of a block; a merge key among them has a string or a
    null to merge, which is an error.  A block without a field is a
    null. *)
Definition close_item (x : item) : option node :=
  match x with
  | Closed n => Some n
  | Open [] => Some Null
  | Open fields =>
      if existsb (λ kn, is_merge kn.1) fields then None
      else Some (Mapping ((λ kn, (key_text kn.1, kn.2)) <$> fields))
  end.

(** The pairs of the document: those of the text, and after them
    those that the values of merge keys bring in for the keys that
    the text does not define. *)
Definition resolve_merge (kns : list (key * node))
  : option (list (string * node)) :=
  let own := (λ kn, (key_text kn.1, kn.2)) <$> filter (λ kn, is_merge kn.1 = false) kns in
  merged ← mapM (λ kn, match kn.2 with Mapping kvs => Some kvs | _ => None end)
              (filter (λ kn, is_merge kn.1 = true) kns);
  Some (own ++ filter (λ kv, kv.1 ∉ own.*1) (concat merged)).

Definition block_parse (s : string) : option node :=
  match filter (λ l, l ≠ "") (lines_from "" s) with
  | [] => None
  | ["{}"] => Some (Mapping [])
  | ["null"] | ["~"] => Some Null
  | ls =>
      acc ← fold_left parse_line ls (Some []);
      kns ← mapM (λ ki, n ← close_item ki.2; Some (ki.1, n)) (rev acc);
      kvs ← resolve_merge kns;
      Some (Mapping kvs)
  end.

Definition block_codec : Codec := {| emit := block_emit; parse := block_parse |}.

Definition data_url : string := "http://x/data.csv".
Definition stamp : string := "Sun, 01 Jun 2025 00:00:00 GMT".
Definition today : Date := {| year := 2025; month := 6; day := 2 |}.

Definition response (code : Z) (h : Header) : Response :=
  {| StatusCode := code; Status := uitoa (Z.to_N code); RespHeader := h;
     Body := "a,b" +:+ nl +:+ "1,2" +:+ nl |}.

(** A server that sends the file with both validators, and answers
    304 to a request that carries them. *)
Definition validators : Header :=
  <["Etag" := ["v1"]]> (<["Last-Modified" := [stamp]]> ∅).

Definition serve (n : nat) (req : Request) : option Response :=
  if decide (Header_Get (ReqHeader req) "If-None-Match" = "v1")
  then Some (response 304 ∅)
  else Some (response 200 validators).

Definition good_env : Env :=
  {| new_request_ok := λ _, true;
     server := serve;
     parse_time := λ s, if decide (s = stamp) then Some 1748736000 else None;
     now := 1748822400;
     temp_rand := λ i, N.of_nat (1234 + i);
     create_temp_ok := true;
     copy_error := None;
     rename_ok := true;
     chtimes_ok := true;
     tmpdir := "" |}.

(** The same with a copy that breaks after three bytes. *)
Definition env_truncated : Env :=
  {| new_request_ok := new_request_ok good_env; server := server good_env;
     parse_time := parse_time good_env; now := now good_env; temp_rand := temp_rand good_env;
     create_temp_ok := true; copy_error := Some 3%nat; rename_ok := true;
     chtimes_ok := true; tmpdir := "" |}.

(** A server that sends the file with the given headers. *)
Definition env_headers (h : Header) : Env :=
  {| new_request_ok := new_request_ok good_env;
     server := λ _ _, Some (response 200 h);
     parse_time := parse_time good_env; now := now good_env; temp_rand := temp_rand good_env;
     create_temp_ok := true; copy_error := None; rename_ok := true;
     chtimes_ok := true; tmpdir := "" |}.

Definition empty_world : World := start_world ∅ ∅.

(** A world with an entry for the URL from an earlier run. *)
Definition prior : MetadataEntry := {| LastModified := stamp; ETag := "v1" |}.
Definition later_world : World := start_world ∅ (<[data_url := prior]> ∅).

Definition write_ok : WriteEnv :=
  {| create_ok := true; encode_ok := true; move_ok := true;
     write_now := 1748822500 |}.

Definition catalog : list DirJob :=
  [{| dj_dir := "stationA"; dj_mkdir_ok := true; dj_tasks := [(data_url, good_env)] |}].

Definition input : Input :=
  {| in_today := today; in_sources := Some catalog; in_codec := block_codec;
     in_open_ok := true; in_files := ∅; in_write := write_ok |}.

(** A map with every mix of fields that are set and not set. *)
Definition mixed : gmap string MetadataEntry :=
  <["http://x/a.csv" := prior]>
    (<["http://x/b.csv" := {| LastModified := ""; ETag := "v2" |}]>
       (<["http://x/c.csv" := {| LastModified := stamp; ETag := "" |}]>
          (<["http://x/d.csv" := zero_entry]> ∅))).

(** A map with values and keys that are written in quotes: a value
    of two lines, the quotes of an entity tag, a key that is empty and
    one that is a word of YAML. *)
Definition quoted : gmap string MetadataEntry :=
  <["http://x/a.csv" :=
      {| LastModified := "a" +:+ nl +:+ "b: c";
         ETag := String dq ("abc" +:+ String dq "") |}]>
    (<["null" := {| LastModified := "true"; ETag := "W/x y" |}]>
       (<["" := {| LastModified := " #x"; ETag := "~" |}]> ∅)).

End Scenario.

(** ** The tool that lists the directories [data-sources.yaml] does not name *)

Module Unknown.
Import GoStd Model.

(** [type DataSources map[string][]string]. *)
Abbreviation DataSources := (gmap string (list string)).

(** An entry of [os.ReadDir]: [entry.Name()] and [entry.IsDir()]. *)
Record DirEntry := { Name : string; IsDir : bool }.

(** [knownDirs := make(map[string]bool)] filled by
    [for dir := range dataSources { knownDirs[dir] = true }]. *)
Definition knownDirs (dataSources : DataSources) : gmap string bool :=
  map_fold (λ dir _ known, <[dir := true]> known) ∅ dataSources.

(** [knownDirs[name]]: [false] for a missing key. *)
Definition known_index (known : gmap string bool) (name : string) : bool :=
  default false (known !! name).

(** [for _, entry := range entries], with the lines of [fmt.Println]. *)
Fixpoint scan (known : gmap string bool) (entries : list DirEntry)
  : list string :=
  match entries with
  | [] => []
  | entry :: rest =>
      if IsDir entry then
        let name := Name entry in
        if HasPrefix name "." || String.eqb name "closed-stations" then
          (* skip hidden and previously logged as closed *)
          scan known rest
        else if negb (known_index known name) then name :: scan known rest
        else scan known rest
      else scan known rest
  end.

(** [func main()]: the lines printed and the exit status; [sources]
    is [None] when [readDataSources] ends in [log.Fatalf], [entries]
    when [os.ReadDir(".")] fails. *)
Definition main (sources : option DataSources)
    (entries : option (list DirEntry)) : list string * Z :=
  match sources with
  | None => ([], 1)
  | Some dataSources =>
      let known := knownDirs dataSources in
      match entries with
      | None => ([], 1)
      | Some entries => (scan known entries, 0)
      end
  end.

(** A checkout with a hidden directory, a file, the directory of the
    closed stations, a station of the catalog and one that is not. *)
Definition listing : list DirEntry :=
  [ {| Name := ".git"; IsDir := true |};
    {| Name := "README.md"; IsDir := false |};
    {| Name := "closed-stations"; IsDir := true |};
    {| Name := "stationA"; IsDir := true |};
    {| Name := "stationB"; IsDir := true |} ].

Definition sources : DataSources := {[ "stationA" := ["http://x/data.csv"] ]}.

End Unknown.

(** ** Failing calls, for the statements about the error paths *)

Module Faults.
Import GoStd Model Yaml.

(** The run meets a rename that fails. *)
Definition rename_failed (h : list (event * World)) : bool :=
  existsb (λ ew, match ew.1 with EvRename _ _ false => true | _ => false end) h.

(** The name [os.CreateTemp] gives in directory [d] of world [w]. *)
Definition temp_name (env : Env) (d : string) (w : World) : option string :=
  create_temp_try temp_tries 0 (temp_rand env) (temp_prefix env d "tmp")
    (fs w).

Global Arguments temp_name : simpl never.

(** The files that [main] reads and writes itself. *)
Definition own_files : list string :=
  [metadataFile; metadataFile +:+ ".tmp"; dataSourcesFile].

(** An environment that is [base] with the given answers. *)
Definition with_server (base : Env) (srv : nat → Request → option Response)
  : Env :=
  {| new_request_ok := new_request_ok base; server := srv;
     parse_time := parse_time base; now := now base;
     temp_rand := temp_rand base; create_temp_ok := create_temp_ok base;
     copy_error := copy_error base; rename_ok := rename_ok base;
     chtimes_ok := chtimes_ok base; tmpdir := tmpdir base |}.

(** The same with a rename that fails. *)
Definition no_rename (base : Env) : Env :=
  {| new_request_ok := new_request_ok base; server := server base;
     parse_time := parse_time base; now := now base;
     temp_rand := temp_rand base; create_temp_ok := create_temp_ok base;
     copy_error := copy_error base; rename_ok := false;
     chtimes_ok := chtimes_ok base; tmpdir := tmpdir base |}.

(** The same with URLs that make no request. *)
Definition no_request (base : Env) : Env :=
  {| new_request_ok := λ _, false; server := server base;
     parse_time := parse_time base; now := now base;
     temp_rand := temp_rand base; create_temp_ok := create_temp_ok base;
     copy_error := copy_error base; rename_ok := rename_ok base;
     chtimes_ok := chtimes_ok base; tmpdir := tmpdir base |}.

(** The page of a server in trouble. *)
Definition error_page : Response :=
  {| StatusCode := 500; Status := "500 Internal Server Error";
     RespHeader := ∅; Body := "<html>error</html>" |}.

(** A directory that cannot be made, and a run that meets it after
    the directory of the scenario. *)
Definition bad_dir : DirJob :=
  {| dj_dir := "stationB"; dj_mkdir_ok := false;
     dj_tasks := [(Scenario.data_url, Scenario.good_env)] |}.

Definition input_bad_dir : Input :=
  {| in_today := Scenario.today;
     in_sources := Some (Scenario.catalog ++ [bad_dir]);
     in_codec := Scenario.block_codec; in_open_ok := true; in_files := ∅;
     in_write := Scenario.write_ok |}.

(** A run whose metadata file holds a null document, which
    [readMetadata] decodes to the nil map. *)
Definition null_file : File := {| content := "null" +:+ Scenario.nl; mtime := 0 |}.

Definition input_null : Input :=
  {| in_today := Scenario.today; in_sources := Some Scenario.catalog;
     in_codec := Scenario.block_codec; in_open_ok := true;
     in_files := {[ metadataFile := null_file ]};
     in_write := Scenario.write_ok |}.

(** A map with the URL [<<]. *)
Definition merge_map : gmap string MetadataEntry := {[ "<<" := Scenario.prior ]}.

(** The run of the scenario with a metadata file that cannot be
    created. *)
Definition input_no_write : Input :=
  {| in_today := Scenario.today; in_sources := Some Scenario.catalog;
     in_codec := Scenario.block_codec; in_open_ok := true; in_files := ∅;
     in_write := {| create_ok := false; encode_ok := true; move_ok := true;
                    write_now := write_now Scenario.write_ok |} |}.

(** A run without [data-sources.yaml]. *)
Definition input_no_sources : Input :=
  {| in_today := Scenario.today; in_sources := None;
     in_codec := Scenario.block_codec; in_open_ok := true; in_files := ∅;
     in_write := Scenario.write_ok |}.

End Faults.

(** ** One schedule of the worker pool *)

Module Sched.
Import GoStd Model Yaml Pool.

(** The first worker that is at a task, and the first that waits at
    the channel. *)
Fixpoint first_busy (ws : list worker)
  : option (nat * Job * Prog (option error)) :=
  match ws with
  | [] => None
  | WBusy j p :: _ => Some (0%nat, j, p)
  | _ :: ws' => (λ x, (S x.1.1, x.1.2, x.2)) <$> first_busy ws'
  end.

Fixpoint first_idle (ws : list worker) : option nat :=
  match ws with
  | [] => None
  | WIdle :: _ => Some 0%nat
  | _ :: ws' => S <$> first_idle ws'
  end.

Definition all_exited (ws : list worker) : bool :=
  forallb (λ x, match x with WExited => true | _ => false end) ws.

(** The step of the main goroutine, if it can take one. *)
Definition next_main (c : Codec) (we : WriteEnv) (s : State) : option State :=
  match disp s with
  | Dispatching (DMkdirAll d true :: ops) => Some (set_disp (Dispatching ops) s)
  | Dispatching (DMkdirAll d false :: ops) =>
      Some (set_exit 1
              (set_world (add_log (LogFatal "Failed to create directory")
                            (world s)) s))
  | Dispatching (DSend j :: ops) =>
      if decide (length (tasks s) < maxParallel)%nat
      then Some (set_disp (Dispatching ops) (set_tasks (tasks s ++ [j]) s))
      else None
  | Dispatching [] => Some (set_disp Waiting (set_closed true s))
  | Waiting =>
      if all_exited (workers s)
      then Some (set_exit (finish c we (world s)).2
                   (set_disp Finished
                      (set_world (finish c we (world s)).1 s)))
      else None
  | Finished => None
  end.

(** The step of the first worker that is at a task. *)
Definition next_task (s : State) : option State :=
  '(i, j, p) ← first_busy (workers s);
  match p with
  | Ret r => Some (set_worker i WIdle (add_result (job_task j, r) s))
  | MetaSet u e k =>
      if nilmap s
      then Some (set_exit 2 (set_world (unwind k (world s)) s))
      else Some (set_worker i (WBusy j k)
                   (set_world (set_metadata (insert u e) (world s)) s))
  | _ =>
      '(p', w') ← step_prog (job_env j) p (world s);
      Some (set_worker i (WBusy j p') (set_world w' s))
  end.

(** The first worker that waits takes a task, or returns when the
    channel is closed and empty. *)
Definition next_idle (today : string) (s : State) : option State :=
  i ← first_idle (workers s);
  match tasks s with
  | j :: q =>
      Some (set_worker i
              (WBusy j (worker_task (job_env j) today (job_task j)))
              (set_tasks q s))
  | [] => if closed s then Some (set_worker i WExited s) else None
  end.

(** One schedule: a task that has started goes on to its end before
    anything else happens, a task in the channel is taken before
    [main] goes on. *)
Definition next (today : string) (c : Codec) (we : WriteEnv) (s : State)
  : option State :=
  match exit s with
  | Some _ => None
  | None =>
      match next_task s with
      | Some s' => Some s'
      | None =>
          match next_idle today s with
          | Some s' => Some s'
          | None => next_main c we s
          end
      end
  end.

(** Another schedule: [main] goes on while it can, then the workers. *)
Definition next_eager (today : string) (c : Codec) (we : WriteEnv)
    (s : State) : option State :=
  match exit s with
  | Some _ => None
  | None =>
      match next_main c we s with
      | Some s' => Some s'
      | None =>
          match next_idle today s with
          | Some s' => Some s'
          | None => next_task s
          end
      end
  end.

(** The state after [n] steps of a schedule, or the state at which
    it stops before. *)
Fixpoint drive (next : State → option State) (n : nat) (s : State) : State :=
  match n with
  | O => s
  | S n' => match next s with Some s' => drive next n' s' | None => s end
  end.

Definition run_pool (n : nat) (i : Input) : State :=
  drive (next (Format_2006_01_02 (in_today i)) (in_codec i) (in_write i))
    n (init i).

Definition run_eager (n : nat) (i : Input) : State :=
  drive (next_eager (Format_2006_01_02 (in_today i)) (in_codec i) (in_write i))
    n (init i).

End Sched.

(** ** Guards on the programs of the workers *)

Module Guards.
Import GoStd Model Yaml Pool.

(** The program names no file of [main] itself: the paths it is given
    are none of them, whatever name the temporary file gets among the
    names that are none of them. *)
Fixpoint paths_ok {A} (p : Prog A) : Prop :=
  match p with
  | Ret _ => True
  | Log _ k | MetaSet _ _ k | FlagError k => paths_ok k
  | MetaGet _ k => ∀ e, paths_ok (k e)
  | ClientDo _ _ k => ∀ x, paths_ok (k x)
  | CreateTemp _ _ k =>
      paths_ok (k None)
      ∧ ∀ name, name ∉ Faults.own_files → paths_ok (k (Some name))
  | CopyClose name _ k => (name ∉ Faults.own_files) ∧ ∀ x, paths_ok (k x)
  | Rename old new k =>
      (old ∉ Faults.own_files) ∧ (new ∉ Faults.own_files)
      ∧ ∀ x, paths_ok (k x)
  | Chtimes path _ k => (path ∉ Faults.own_files) ∧ paths_ok k
  | Remove path k => (path ∉ Faults.own_files) ∧ paths_ok k
  end.

(** The program sends at most [n] requests, whatever it is answered. *)
Fixpoint sends {A} (n : nat) (p : Prog A) {struct p} : Prop :=
  match p with
  | Ret _ => True
  | Log _ k | MetaSet _ _ k | FlagError k | Chtimes _ _ k | Remove _ k =>
      sends n k
  | MetaGet _ k => ∀ x, sends n (k x)
  | ClientDo _ _ k =>
      match n with O => False | S n' => ∀ x, sends n' (k x) end
  | CreateTemp _ _ k => ∀ x, sends n (k x)
  | CopyClose _ _ k | Rename _ _ k => ∀ x, sends n (k x)
  end.

(** The requests a worker may have sent for the task it is at: none
    while its program can still send one. *)
Definition worker_sent (x : worker) (c : nat) : Prop :=
  match x with
  | WBusy _ p => (c = 0%nat ∧ sends 1 p) ∨ (c = 1%nat ∧ sends 0 p)
  | _ => c = 0%nat
  end.

(** The tasks that workers are at. *)
Definition busy (s : State) : list fetchTask :=
  omap (λ x, match x with WBusy j _ => Some (job_task j) | _ => None end)
       (workers s).

(** The dispatch loop still has the directory that cannot be made
    before it, or the process has ended in the loop: at that
    directory, or before it at the panic of a process with the nil
    map. *)
Definition stuck_at (d : string) (s : State) : Prop :=
  ∃ ops, disp s = Dispatching ops
    ∧ ((DMkdirAll d false ∈ ops ∧ exit s = None) ∨ exit s = Some 1
       ∨ (exit s = Some 2 ∧ nilmap s = true)).

(** The files of [main] in a state of the pool: the workers name none
    of them, they are as at the start until [writeMetadata], and the
    metadata file is the one of the start or the document of the map. *)
Definition own_inv (c : Codec) (we : WriteEnv) (files : gmap string File)
    (s : State) : Prop :=
  (∀ idx j p, workers s !! idx = Some (WBusy j p) → paths_ok p)
  ∧ (disp s ≠ Finished →
     ∀ q, q ∈ Faults.own_files → fs (world s) !! q = files !! q)
  ∧ fs (world s) !! dataSourcesFile = files !! dataSourcesFile
  ∧ (fs (world s) !! metadataFile = files !! metadataFile
     ∨ fs (world s) !! metadataFile
       = Some {| content := emit c (marshal (metadata (world s)));
                 mtime := write_now we |}).

(** The requests sent so far are covered by the tasks that have
    returned and those that workers are at. *)
Definition vol_inv (s : State) : Prop :=
  ∃ cs, Forall2 worker_sent (workers s) cs
    ∧ (length (sent (world s)) ≤ length (results s) + sum_list cs)%nat.

End Guards.

(* ================================================================= *)
(** * Part II: lemmas and theorems *)
(* ================================================================= *)

Import GoStd Model Yaml Terms Pool Inv.

(* ----------------------------------------------------------------- *)
(** ** Strings, paths and dates *)

Lemma app_cons c s t : String c s +:+ t = String c (s +:+ t).
Proof. reflexivity. Qed.
Lemma app_empty_l t : "" +:+ t = t.
Proof. reflexivity. Qed.
Lemma app_empty_r s : s +:+ "" = s.
Proof. induction s; [done|]. by rewrite app_cons, IHs. Qed.
Lemma app_assoc' (a b c : string) : (a +:+ b) +:+ c = a +:+ (b +:+ c).
Proof. induction a; [done|]. by rewrite !app_cons, IHa. Qed.
Lemma length_app' a b : String.length (a +:+ b) = (String.length a + String.length b)%nat.
Proof. induction a; [done|]. rewrite app_cons. simpl. by rewrite IHa. Qed.
Lemma substring_0_app a b : substring 0 (String.length a) (a +:+ b) = a.
Proof. induction a; [by destruct b|]. rewrite app_cons. simpl. by rewrite IHa. Qed.
Lemma substring_skip_app a b n : substring (String.length a) n (a +:+ b) = substring 0 n b.
Proof. induction a; [done|]. rewrite app_cons. simpl. done. Qed.
Lemma substring_0_all b : substring 0 (String.length b) b = b.
Proof. induction b; [done|]. simpl. by rewrite IHb. Qed.
Lemma substring_split s n : (n <= String.length s)%nat →
  s = substring 0 n s +:+ substring n (String.length s - n) s.
Proof.
  revert n. induction s as [|c s IH]; intros [|n] Hn; simpl in *; try lia.
  - done.
  - rewrite app_empty_l. by rewrite substring_0_all.
  - rewrite app_cons. f_equal. apply IH. lia.
Qed.
Lemma HasSuffix_app a suf : HasSuffix (a +:+ suf) suf = true.
Proof.
  unfold HasSuffix. rewrite length_app'.
  replace (String.length a + String.length suf - String.length suf)%nat with (String.length a) by lia.
  rewrite substring_skip_app, substring_0_all, String.eqb_refl.
  rewrite andb_true_r. apply Nat.leb_le. lia.
Qed.
Lemma TrimSuffix_app a suf : TrimSuffix (a +:+ suf) suf = a.
Proof.
  unfold TrimSuffix. rewrite HasSuffix_app, length_app'.
  replace (String.length a + String.length suf - String.length suf)%nat with (String.length a) by lia.
  apply substring_0_app.
Qed.
Lemma HasSuffix_true s suf : HasSuffix s suf = true → s = TrimSuffix s suf +:+ suf.
Proof.
  intros H. unfold TrimSuffix. rewrite H. unfold HasSuffix in H.
  apply andb_true_iff in H as [Hl He]. apply Nat.leb_le in Hl. apply String.eqb_eq in He.
  rewrite (substring_split s (String.length s - String.length suf)) at 1 by lia.
  f_equal. rewrite <- He at 3. f_equal. lia.
Qed.
Lemma TrimSuffix_false s suf : HasSuffix s suf = false → TrimSuffix s suf = s.
Proof. intros H. unfold TrimSuffix. by rewrite H. Qed.

Lemma split_slash_nonempty s : split_slash s ≠ [].
Proof. destruct s as [|c s]; simpl; [done|]. destruct (is_sep c); [done|]. by destruct (split_slash s). Qed.

Lemma split_slash_no_sep t : has_sep t = false → split_slash t = [t].
Proof.
  induction t as [|c t IH]; simpl; [done|]. intros [Hc Ht]%orb_false_iff.
  rewrite Hc, IH by done. done.
Qed.

Lemma split_slash_sep s t :
  split_slash (s +:+ String "/" t) = split_slash s ++ split_slash t.
Proof.
  induction s as [|c s IH]; [done|]. rewrite app_cons. simpl.
  destruct (is_sep c); [by rewrite IH|]. rewrite IH.
  pose proof (split_slash_nonempty s). by destruct (split_slash s).
Qed.

Lemma split_slash_tail s t init l :
  split_slash s = init ++ [l] → has_sep t = false →
  split_slash (s +:+ t) = init ++ [l +:+ t].
Proof.
  revert init l. induction s as [|c s IH]; intros init l Hs Ht.
  - rewrite app_empty_l. simpl in Hs.
    destruct init as [|? [|? ?]]; simplify_eq/=. by apply split_slash_no_sep.
  - rewrite app_cons. simpl in *. destruct (is_sep c).
    + destruct init as [|i0 init]; simplify_eq/=.
      { by pose proof (split_slash_nonempty s). }
      by rewrite (IH init l).
    + destruct (split_slash s) as [|x xs] eqn:Hx; [by apply split_slash_nonempty in Hx|].
      destruct init as [|i0 init]; simplify_eq/=.
      * by rewrite (IH [] x).
      * by rewrite (IH (x :: init) l).
Qed.

Lemma split_slash_snoc s : ∃ init l, split_slash s = init ++ [l].
Proof.
  pose proof (split_slash_nonempty s).
  destruct (split_slash s) as [|x xs] using rev_ind; [done|]. eauto.
Qed.

Lemma join_sep_snoc ys x :
  join_sep (ys ++ [x]) = (if ys is [] then "" else join_sep ys +:+ "/") +:+ x.
Proof.
  induction ys as [|y ys IH]; [reflexivity|].
  change ((y :: ys) ++ [x]) with (y :: (ys ++ [x])).
  destruct ys as [|y' ys].
  { change (y +:+ "/" +:+ x = (y +:+ "/") +:+ x). by rewrite app_assoc'. }
  change (join_sep (y :: (y' :: ys) ++ [x])) with (y +:+ "/" +:+ join_sep ((y' :: ys) ++ [x])).
  rewrite IH. change (join_sep (y :: y' :: ys)) with (y +:+ "/" +:+ join_sep (y' :: ys)).
  by rewrite !app_assoc'.
Qed.

Lemma length_3_real x : (3 ≤ String.length x)%nat → x ≠ "" ∧ x ≠ "." ∧ x ≠ "..".
Proof. intros H. repeat split; intros ->; simpl in H; lia. Qed.

Lemma clean_step_real r out x :
  x ≠ "" → x ≠ "." → x ≠ ".." → clean_step r out x = x :: out.
Proof. intros. unfold clean_step. by repeat case_decide. Qed.

Lemma HasPrefix_app_tail s t :
  has_sep t = false → HasPrefix (s +:+ t) "/" = HasPrefix s "/".
Proof.
  intros Ht. destruct s as [|c s]; [|reflexivity]. rewrite app_empty_l.
  destruct t as [|c t]; [done|]. cbn [has_sep HasPrefix] in *.
  apply orb_false_iff in Ht as [Hc _].
  unfold is_sep in Hc. rewrite Ascii.eqb_sym. by rewrite Hc.
Qed.

Lemma app_eq_empty a b : a +:+ b = "" → a = "" ∧ b = "".
Proof. destruct a; [done|]. by rewrite app_cons. Qed.

(** The cleaned path keeps a tail without separators as it is; what
    stands before it depends on the rest of the path alone. *)
Lemma Clean_app_tail s :
  ∃ P, ∀ t, has_sep t = false → (3 ≤ String.length t)%nat →
    Clean (s +:+ t) = P +:+ t.
Proof.
  destruct (split_slash_snoc s) as (init & l & Hs).
  set (r := HasPrefix s "/").
  set (out := fold_left (clean_step r) init []).
  exists ((if r then "/" else "")
          +:+ (if rev out is [] then "" else join_sep (rev out) +:+ "/") +:+ l).
  intros t Ht Hlen. unfold Clean.
  assert (s +:+ t ≠ "") as Hne.
  { intros [_ ->]%app_eq_empty. simpl in Hlen. lia. }
  rewrite decide_False by done.
  rewrite HasPrefix_app_tail by done. fold r.
  rewrite (split_slash_tail s t init l) by done.
  rewrite fold_left_app. simpl. fold out.
  destruct (length_3_real (l +:+ t)) as (? & ? & ?).
  { rewrite length_app'. lia. }
  rewrite clean_step_real by done.
  simpl rev. rewrite join_sep_snoc.
  destruct r.
  - by rewrite !app_assoc'.
  - rewrite decide_False; [by rewrite !app_assoc'|].
    intros [_ [_ ->]%app_eq_empty]%app_eq_empty. simpl in Hlen. lia.
Qed.

Lemma snoc_inj X Y a b : X +:+ String a "" = Y +:+ String b "" → X = Y ∧ a = b.
Proof.
  revert Y. induction X as [|c X IH]; intros [|d Y] H.
  - by simplify_eq/=.
  - rewrite app_cons in H. simplify_eq/=. by destruct Y.
  - rewrite app_cons in H. simplify_eq/=. by destruct X.
  - rewrite !app_cons in H. simplify_eq/=. destruct (IH Y) as [-> ->]; done.
Qed.

Lemma uitoa_loop_acc fuel val acc :
  ∃ pre, uitoa_loop fuel val acc = pre +:+ acc.
Proof.
  revert val acc. induction fuel as [|fuel IH]; intros val acc; simpl.
  - by exists "".
  - destruct (10 <=? val)%N.
    + destruct (IH (val / 10)%N (String (digit (val mod 10)) acc)) as [pre ->].
      exists (pre +:+ String (digit (val mod 10)) ""). by rewrite app_assoc'.
    + by exists (String (digit val) "").
Qed.

(** The decimal form of a number ends in a digit. *)
Lemma uitoa_last val : ∃ pre d, (d < 10)%N ∧ uitoa val = pre +:+ String (digit d) "".
Proof.
  unfold uitoa. destruct (val =? 0)%N; [by exists "", 0%N|].
  change (uitoa_loop 20 val "") with
    (if (10 <=? val)%N
     then uitoa_loop 19 (val / 10) (String (digit (val mod 10)) "")
     else String (digit val) "").
  destruct (10 <=? val)%N eqn:Hv.
  - destruct (uitoa_loop_acc 19 (val / 10)%N (String (digit (val mod 10)) "")) as [pre ->].
    exists pre, (val mod 10)%N. split; [|done]. apply N.mod_lt. done.
  - exists "", val. split; [|done]. apply N.leb_gt in Hv. done.
Qed.

Lemma digit_not_v d : (d < 10)%N → digit d ≠ "v"%char.
Proof.
  intros Hd Heq. assert (N_of_ascii (digit d) = 118%N) as H by (by rewrite Heq).
  unfold digit in H. rewrite N_ascii_embedding in H by lia. lia.
Qed.

(** No temporary name is the name of a CSV file. *)
Lemma temp_name_not_csv prefix r P : prefix +:+ nextRandom r ≠ P +:+ ".csv".
Proof.
  unfold nextRandom. destruct (uitoa_last (r mod 2 ^ 32)%N) as (pre & d & Hd & ->).
  change ".csv" with (".cs" +:+ String "v" "").
  rewrite <- !app_assoc'. intros [_ H]%snoc_inj. by apply digit_not_v in H.
Qed.

Lemma trim_no_sep t : has_sep t = false → trim_trailing_seps t = t.
Proof.
  induction t as [|c t IH]; [done|]. simpl. intros [Hc Ht]%orb_false_iff.
  rewrite IH by done. rewrite Hc. by destruct t.
Qed.

Lemma trim_app_slash s : trim_trailing_seps (s +:+ "/") = trim_trailing_seps s.
Proof.
  induction s as [|c s IH]; [done|]. rewrite app_cons. simpl. by rewrite IH.
Qed.

Lemma trim_app_char s c :
  is_sep c = false → trim_trailing_seps (s +:+ String c "") = s +:+ String c "".
Proof.
  intros Hc. induction s as [|d s IH]; simpl.
  - rewrite app_empty_l. simpl. by rewrite Hc.
  - rewrite app_cons. simpl. rewrite IH. by destruct s.
Qed.

Lemma string_snoc_cases s : s = "" ∨ ∃ s' c, s = s' +:+ String c "".
Proof.
  induction s as [|d s IH]; [by left|]. right.
  destruct IH as [->|(s' & c & ->)].
  - by exists "", d.
  - by exists (String d s'), c.
Qed.

Lemma string_snoc_ind (P : string → Prop) :
  P "" → (∀ s c, P s → P (s +:+ String c "")) → ∀ s, P s.
Proof.
  intros H0 HS s. remember (String.length s) as n eqn:Hn. revert s Hn.
  induction n as [|n IH]; intros s Hn.
  - by destruct s.
  - destruct (string_snoc_cases s) as [->|(s' & c & ->)]; [done|].
    apply HS, IH. rewrite length_app' in Hn. simpl in Hn. lia.
Qed.

Lemma is_sep_true c : is_sep c = true → c = "/"%char.
Proof. unfold is_sep. by intros ?%Ascii.eqb_eq. Qed.

(** [filepath.Base] returns the final segment of a URL that has one. *)
Lemma Base_final_segment url seg : final_segment url = Some seg → Base url = seg.
Proof.
  unfold final_segment, Base. intros H.
  destruct (decide (url = "")) as [->|Hne]; [done|clear Hne].
  revert seg H. induction url as [|url c IH] using string_snoc_ind; intros seg H; [done|].
  destruct (is_sep c) eqn:Hc.
  - apply is_sep_true in Hc as ->. rewrite trim_app_slash.
    rewrite split_slash_sep in H. simpl in H.
    rewrite filter_app in H. simpl in H. rewrite filter_cons_False in H by naive_solver.
    rewrite filter_nil, app_nil_r in H. by apply IH.
  - rewrite trim_app_char by done.
    destruct (split_slash_snoc url) as (init & l & Hs).
    assert (has_sep (String c "") = false) as Hc' by (simpl; by rewrite Hc).
    rewrite (split_slash_tail url _ init l) in H |- * by done.
    rewrite filter_app, filter_cons_True, filter_nil in H.
    2:{ intros [_ ?]%app_eq_empty. done. }
    rewrite last_snoc in H. simplify_eq. rewrite List.last_last.
    rewrite decide_False; [done|]. intros [_ ?]%app_eq_empty. done.
Qed.

(** A URL without such a segment is empty or made of slashes. *)
Lemma Base_no_segment url : final_segment url = None → Base url = "." ∨ Base url = "/".
Proof.
  unfold final_segment, Base. intros H.
  destruct (decide (url = "")) as [->|Hne]; [by left|clear Hne]. right.
  revert H. induction url as [|url c IH] using string_snoc_ind; intros H; [done|].
  destruct (is_sep c) eqn:Hc.
  - apply is_sep_true in Hc as ->. rewrite trim_app_slash.
    rewrite split_slash_sep in H. simpl in H.
    rewrite filter_app in H. simpl in H. rewrite filter_cons_False in H by naive_solver.
    rewrite filter_nil, app_nil_r in H. by apply IH.
  - destruct (split_slash_snoc url) as (init & l & Hs).
    assert (has_sep (String c "") = false) as Hc' by (simpl; by rewrite Hc).
    rewrite (split_slash_tail url _ init l) in H by done.
    rewrite filter_app, filter_cons_True, filter_nil in H.
    2:{ intros [_ ?]%app_eq_empty. done. }
    by rewrite last_snoc in H.
Qed.

Lemma final_segment_intro pre seg :
  has_sep seg = false → seg ≠ "" → final_segment (pre +:+ "/" +:+ seg) = Some seg.
Proof.
  intros Hs Hne. unfold final_segment. change ("/" +:+ seg) with (String "/" seg).
  rewrite split_slash_sep, (split_slash_no_sep seg) by done.
  rewrite filter_app, filter_cons_True, filter_nil by done. by rewrite last_snoc.
Qed.

Lemma appendInt_table width bound :
  forallb (λ n, digits_of width (Z.of_nat n) (appendInt (Z.of_nat n) width))
          (seq 0 bound) = true →
  ∀ x, 0 <= x < Z.of_nat bound → digits_of width x (appendInt x width) = true.
Proof.
  intros H x Hx. rewrite forallb_forall in H.
  specialize (H (Z.to_nat x)). rewrite Z2Nat.id in H by lia.
  apply H, in_seq. lia.
Qed.

Lemma appendInt_year x : 0 <= x <= 9999 → digits_of 4 x (appendInt x 4) = true.
Proof.
  intros Hx. apply (appendInt_table 4 (100 * 100)); [by vm_compute|lia].
Qed.

Lemma appendInt_two x : 0 <= x <= 99 → digits_of 2 x (appendInt x 2) = true.
Proof.
  intros Hx. apply (appendInt_table 2 100); [by vm_compute|lia].
Qed.

Lemma digits_of_inv width n s :
  digits_of width n s = true →
  String.length s = width ∧ all_digits s = true ∧ atoi s = n.
Proof.
  unfold digits_of. intros [[H1 H2]%andb_true_iff H3]%andb_true_iff.
  apply Nat.eqb_eq in H1. apply Z.eqb_eq in H3. done.
Qed.

(** The date of a run is written as YYYY-MM-DD. *)
Lemma Format_is_stamp t : valid_date t → is_stamp_of t (Format_2006_01_02 t).
Proof.
  intros (Hy & Hm & Hd). exists (appendInt (year t) 4), (appendInt (month t) 2), (appendInt (day t) 2).
  split; [done|]. split_and!.
  - by apply appendInt_year.
  - apply appendInt_two. lia.
  - apply appendInt_two. lia.
Qed.

Lemma app_inj_length a a' b b' :
  a +:+ b = a' +:+ b' → String.length a = String.length a' → a = a' ∧ b = b'.
Proof.
  revert a'. induction a as [|c a IH]; intros [|c' a'] H Hl; simpl in Hl; try discriminate.
  - by rewrite !app_empty_l in H.
  - rewrite !app_cons in H. injection H as -> H. injection Hl as Hl.
    destruct (IH a') as [-> ->]; done.
Qed.

Lemma stamp_inj t1 t2 s : is_stamp_of t1 s → is_stamp_of t2 s → t1 = t2.
Proof.
  intros (y1 & m1 & d1 & -> & Hy1 & Hm1 & Hd1) (y2 & m2 & d2 & Heq & Hy2 & Hm2 & Hd2).
  apply digits_of_inv in Hy1 as (Ly1 & _ & Vy1), Hm1 as (Lm1 & _ & Vm1), Hd1 as (Ld1 & _ & Vd1).
  apply digits_of_inv in Hy2 as (Ly2 & _ & Vy2), Hm2 as (Lm2 & _ & Vm2), Hd2 as (Ld2 & _ & Vd2).
  apply app_inj_length in Heq as [-> Heq]; [|congruence].
  apply (app_inj_length "-" "-") in Heq as [_ Heq]; [|done].
  apply app_inj_length in Heq as [-> Heq]; [|congruence].
  apply (app_inj_length "-" "-") in Heq as [_ ->]; [|done].
  destruct t1, t2; simpl in *. congruence.
Qed.

(** Two dates have the same stamp only when they are the same day. *)
Lemma Format_inj t1 t2 :
  valid_date t1 → valid_date t2 →
  Format_2006_01_02 t1 = Format_2006_01_02 t2 → t1 = t2.
Proof.
  intros H1 H2 Heq. apply Format_is_stamp in H1, H2. rewrite Heq in H1.
  by eapply stamp_inj.
Qed.

Lemma has_sep_app a b : has_sep (a +:+ b) = has_sep a || has_sep b.
Proof. induction a as [|c a IH]; [done|]. rewrite app_cons. simpl. by rewrite IH, orb_assoc. Qed.

Lemma all_digits_no_sep s : all_digits s = true → has_sep s = false.
Proof.
  induction s as [|c s IH]; [done|]. simpl. intros [Hc Hs]%andb_true_iff.
  rewrite IH by done. rewrite orb_false_r. unfold is_sep.
  apply Ascii.eqb_neq. intros Heq. subst c. vm_compute in Hc. discriminate Hc.
Qed.

Lemma stamp_no_sep t s : is_stamp_of t s → has_sep s = false.
Proof.
  intros (y & m & d & -> & Hy & Hm & Hd).
  apply digits_of_inv in Hy as (_ & Hy & _), Hm as (_ & Hm & _), Hd as (_ & Hd & _).
  rewrite !has_sep_app.
  by rewrite (all_digits_no_sep y), (all_digits_no_sep m), (all_digits_no_sep d).
Qed.

Lemma stamp_length t s : is_stamp_of t s → String.length s = 10%nat.
Proof.
  intros (y & m & d & -> & Hy & Hm & Hd).
  apply digits_of_inv in Hy as (Hy & _ & _), Hm as (Hm & _ & _), Hd as (Hd & _ & _).
  rewrite !length_app'. simpl. lia.
Qed.

(* ----------------------------------------------------------------- *)
(** ** One task *)

Lemma create_temp_try_spec tries i rand prefix files name :
  create_temp_try tries i rand prefix files = Some name →
  files !! name = None ∧ ∃ j, name = prefix +:+ nextRandom (rand j).
Proof.
  revert i. induction tries as [|tries IH]; intros i; simpl; [done|].
  destruct (files !! (prefix +:+ nextRandom (rand i))) eqn:Hl.
  - apply IH.
  - intros [= <-]. eauto.
Qed.

Lemma do_create_temp_some env d pat w w' name :
  do_create_temp env d pat w = (w', Some name) →
  fs w !! name = None
  ∧ w' = set_fs (insert name {| content := ""; mtime := now env |}) w
  ∧ ∃ r, name = temp_prefix env d pat +:+ nextRandom r.
Proof.
  unfold do_create_temp. destruct (create_temp_ok env); [|done].
  destruct (create_temp_try _ _ _ _ _) as [n|] eqn:Ht; [|done].
  intros [= <- <-]. apply create_temp_try_spec in Ht as [? [j ?]]. eauto.
Qed.

Lemma do_create_temp_none env d pat w w' :
  do_create_temp env d pat w = (w', None) → w' = w.
Proof.
  unfold do_create_temp. destruct (create_temp_ok env); [|congruence].
  destruct (create_temp_try _ _ _ _ _); congruence.
Qed.

Ltac world_eq := destruct_and?; simplify_eq/=; try done.

Lemma not_modified_effect env d u today w resp :
  first_response env w u = Some resp →
  StatusCode resp = StatusNotModified →
  (let '(w', r) := run env (Pool.fetchOne env d u today) w in
   fs w' = fs w ∧ metadata w' = metadata w ∧ hadError w' = hadError w ∧ r = None)
  ∧ (let '(w', o) := run env (Seq.fetchBody env d u today) w in
     fs w' = fs w ∧ metadata w' = metadata w ∧ hadError w' = hadError w
     ∧ o = Seq.Unchanged).
Proof.
  unfold first_response. intros H1 H2.
  destruct (NewRequest env "GET" u) as [req|] eqn:Hreq; [|done]. cbn in H1.
  split.
  - unfold Pool.fetchOne. cbn. rewrite Hreq. cbn. rewrite H1. cbn.
    rewrite decide_True by done. cbn. done.
  - unfold Seq.fetchBody. cbn. rewrite Hreq. cbn. rewrite H1. cbn.
    rewrite decide_True by done. cbn. done.
Qed.

Lemma outPathOf_csv d u today : ∃ P, outPathOf d u today = P +:+ ".csv".
Proof.
  unfold outPathOf. set (stem := TrimSuffix (Base u) ".csv").
  assert (∀ s, ∃ P, Clean (s +:+ ".csv") = P +:+ ".csv") as HC.
  { intros s. destruct (Clean_app_tail s) as [P HP]. exists P. apply HP; [done|simpl; lia]. }
  cbn [Join]. destruct (decide (d = "")) as [->|Hd].
  - rewrite decide_False.
    2:{ intros [_ [_ [_ ?]%app_eq_empty]%app_eq_empty]%app_eq_empty. done. }
    cbn [join_sep].
    replace (stem +:+ "-" +:+ today +:+ ".csv") with ((stem +:+ "-" +:+ today) +:+ ".csv")
      by (by rewrite !app_assoc').
    apply HC.
  - cbn [join_sep].
    replace (d +:+ "/" +:+ stem +:+ "-" +:+ today +:+ ".csv")
      with ((d +:+ "/" +:+ stem +:+ "-" +:+ today) +:+ ".csv") by (by rewrite !app_assoc').
    apply HC.
Qed.

Lemma temp_not_outPath env d pat w w' name u today :
  do_create_temp env d pat w = (w', Some name) → name ≠ outPathOf d u today.
Proof.
  intros (_ & _ & r & ->)%do_create_temp_some.
  destruct (outPathOf_csv d u today) as [P ->]. apply temp_name_not_csv.
Qed.

Ltac hist_false H := cbn in H; discriminate H.

Ltac split_headers resp env :=
  destruct (decide (Header_Get (RespHeader resp) "Last-Modified" ≠ ""))
    as [Hlm|Hlm];
  [destruct (parse_time env (Header_Get (RespHeader resp) "Last-Modified"))
     as [tlm|] eqn:Hpt;
   [destruct (chtimes_ok env) eqn:Hch|]|];
  destruct (decide (Header_Get (RespHeader resp) "ETag" ≠ "")) as [Het|Het];
  cbn; try unfold do_chtimes;
  try (match goal with H : chtimes_ok env = _ |- _ => rewrite H end); cbn.

Lemma delete_alter_insert (m : gmap string File) k f g :
  m !! k = None → delete k (alter g k (<[k := f]> m)) = m.
Proof.
  intros H. apply map_eq. intros i. destruct (decide (i = k)) as [->|Hne].
  - by rewrite lookup_delete_eq.
  - by rewrite lookup_delete_ne, lookup_alter_ne, lookup_insert_ne.
Qed.

(** Symbolic execution of the two task bodies: one goal for each way
    through the code. *)
Ltac exec_tail env d u today resp name :=
  unfold do_copy; cbn;
  destruct (copy_error env) as [ncopy|] eqn:Hce; cbn;
  [|unfold do_rename; cbn; rewrite ?lookup_alter_eq, ?lookup_insert_eq; cbn;
    destruct (rename_ok env) eqn:Hrn; cbn;
    [split_headers resp env|]].

Ltac exec_temp env d u today resp :=
  let w1 := fresh "w1" in
  let name := fresh "name" in
  let Hct := fresh "Hct" in
  let Hne := fresh "Hne" in
  let Hfresh := fresh "Hfresh" in
  destruct (do_create_temp env d "tmp" _) as [w1 [name|]] eqn:Hct; cbn;
  [pose proof (temp_not_outPath _ _ _ _ _ _ u today Hct) as Hne;
   apply do_create_temp_some in Hct as (Hfresh & -> & _); cbn in Hfresh;
   exec_tail env d u today resp name
  |apply do_create_temp_none in Hct as ->; cbn].

Ltac exec_pool env d u today w :=
  unfold Pool.worker_task, Pool.fetchOne; cbn;
  destruct (NewRequest env "GET" u) as [req|] eqn:Hreq; cbn;
  [destruct (server env 0 (conditional (map_index (metadata w) u) req))
     as [resp|] eqn:Hresp; cbn;
   [destruct (decide (StatusCode resp = StatusNotModified)) as [H304|H304]; cbn;
    [|destruct (decide (StatusCode resp ≠ StatusOK)) as [H200|H200]; cbn;
      [|exec_temp env d u today resp]]
   |]
  |].

Ltac exec_seq env d u today w :=
  unfold Seq.fetchBody, Seq.fail; cbn;
  destruct (NewRequest env "GET" u) as [req|] eqn:Hreq; cbn;
  [destruct (server env 0 (conditional (map_index (metadata w) u) req))
     as [resp0|] eqn:Hresp0; cbn;
   [destruct (decide (StatusCode resp0 = StatusNotModified)) as [H304|H304]; cbn;
    [|destruct (decide (StatusCode resp0 ≠ StatusOK)) as [H200|H200]; cbn;
      [|destruct (server env 1 (conditional (map_index (metadata w) u) req))
          as [resp|] eqn:Hresp; cbn;
        [exec_temp env d u today resp|]]]
   |]
  |].

Lemma copy_failure_seq env d u today w :
  copy_failed (history env (Seq.fetchBody env d u today) w) = true →
  let '(w', o) := run env (Seq.fetchBody env d u today) w in
  fs w' = fs w ∧ o = Seq.Failed ErrCopy ∧ hadError w' = true
  ∧ Forall (λ ew, fs ew.2 !! outPathOf d u today = fs w !! outPathOf d u today)
      (history env (Seq.fetchBody env d u today) w).
Proof.
  exec_seq env d u today w; try (intros Hcf; hist_false Hcf).
  intros _. split_and!; try done.
  - by apply delete_alter_insert.
  - repeat (apply Forall_cons; split); try apply Forall_nil; cbn; try done.
    all: rewrite ?lookup_delete_ne, ?lookup_alter_ne, ?lookup_insert_ne by done; done.
Qed.

Lemma copy_failure_pool env d u today w :
  copy_failed (history env (Pool.worker_task env today {| dir := d; url := u |}) w)
  = true →
  let '(w', r) := run env (Pool.worker_task env today {| dir := d; url := u |}) w in
  fs w' = fs w ∧ r = Some ErrCopy ∧ hadError w' = true
  ∧ Forall (λ ew, fs ew.2 !! outPathOf d u today = fs w !! outPathOf d u today)
      (history env (Pool.worker_task env today {| dir := d; url := u |}) w).
Proof.
  exec_pool env d u today w; try (intros Hcf; hist_false Hcf).
  intros _. split_and!; try done.
  - by apply delete_alter_insert.
  - repeat (apply Forall_cons; split); try apply Forall_nil; cbn; try done.
    all: rewrite ?lookup_delete_ne, ?lookup_alter_ne, ?lookup_insert_ne by done; done.
Qed.

Lemma string_eqb_decide (a b : string) : String.eqb a b = bool_decide (a = b).
Proof.
  destruct (String.eqb_spec a b);
    [by rewrite bool_decide_eq_true_2|by rewrite bool_decide_eq_false_2].
Qed.

Lemma conditional_carries env meta url req :
  NewRequest env "GET" url = Some req →
  carries_conditionals meta url (conditional meta req).
Proof.
  unfold NewRequest. destruct (new_request_ok env url); [|done]. intros [= <-].
  unfold conditional, with_header, carries_conditionals, Header_Set.
  rewrite !string_eqb_decide.
  change (CanonicalMIMEHeaderKey "If-None-Match") with "If-None-Match".
  change (CanonicalMIMEHeaderKey "If-Modified-Since") with "If-Modified-Since".
  destruct meta as [lm et]; cbn.
  repeat case_bool_decide; repeat case_decide; try congruence; cbn;
    split_and!; try done; intros;
    rewrite ?lookup_insert_ne by congruence; by rewrite ?lookup_insert_eq.
Qed.

(** The requests of a task of the pool: at most one. *)
Lemma pool_requests env d u today w :
  ∃ reqs, sent (run env (Pool.fetchOne env d u today) w).1 = sent w ++ reqs
    ∧ (length reqs ≤ 1)%nat
    ∧ (new_request_ok env u = true → length reqs = 1%nat)
    ∧ Forall (carries_conditionals (map_index (metadata w) u) u) reqs.
Proof.
  assert (NewRequest env "GET" u = None → new_request_ok env u = true → False) as Hno.
  { unfold NewRequest. by destruct (new_request_ok env u). }
  exec_pool env d u today w.
  all: try (exists [conditional (map_index (metadata w) u) req];
            split_and!; [done|cbn; lia|done|
            apply Forall_singleton; by eapply conditional_carries]).
  exists []. split_and!; [by rewrite app_nil_r|cbn; lia|by intros ?%Hno|done].
Qed.

(** The requests of a task of [main.go]: a second one after each 200. *)
Lemma seq_requests env d u today w :
  ∃ reqs, sent (run env (Seq.fetchBody env d u today) w).1 = sent w ++ reqs
    ∧ (length reqs ≤ 2)%nat
    ∧ (∀ resp, first_response env w u = Some resp →
         StatusCode resp = StatusOK → length reqs = 2%nat)
    ∧ (new_request_ok env u = true → (1 ≤ length reqs)%nat)
    ∧ Forall (carries_conditionals (map_index (metadata w) u) u) reqs.
Proof.
  assert (NewRequest env "GET" u = None → new_request_ok env u = true → False) as Hno.
  { unfold NewRequest. by destruct (new_request_ok env u). }
  unfold first_response.
  exec_seq env d u today w.
  all: first
    [ solve [exists [conditional (map_index (metadata w) u) req;
                     conditional (map_index (metadata w) u) req];
             split_and!;
             [by rewrite <- app_assoc|cbn; lia|done|cbn; lia|
              apply Forall_cons; split;
              [by eapply conditional_carries
              |apply Forall_singleton; by eapply conditional_carries]]]
    | solve [exists [conditional (map_index (metadata w) u) req];
             split_and!;
             [done|cbn; lia|
              intros ? Hx ?; try discriminate Hx; injection Hx as <-;
              unfold StatusNotModified, StatusOK in *; congruence|cbn; lia|
              apply Forall_singleton; by eapply conditional_carries]]
    | solve [exists []; split_and!;
             [by rewrite app_nil_r|cbn; lia|intros ? Hx; discriminate Hx
             |by intros ?%Hno|done]] ].
Qed.

Lemma fetched_fs (m : gmap string File) name out f0 f1 f :
  m !! name = None → name ≠ out →
  delete name (<[out := f]> (delete name (alter f1 name (<[name := f0]> m))))
  = <[out := f]> m.
Proof.
  intros Hn Hne. apply map_eq. intros i.
  destruct (decide (i = name)) as [->|Hi].
  - by rewrite lookup_delete_eq, lookup_insert_ne.
  - rewrite lookup_delete_ne by done. destruct (decide (i = out)) as [->|Ho].
    + by rewrite !lookup_insert_eq.
    + by rewrite !lookup_insert_ne, lookup_delete_ne, lookup_alter_ne, lookup_insert_ne.
Qed.

Lemma fetched_fs_chtimes (m : gmap string File) name out f0 f1 f g :
  m !! name = None → name ≠ out →
  delete name (alter g out (<[out := f]> (delete name (alter f1 name (<[name := f0]> m)))))
  = <[out := g f]> m.
Proof.
  intros Hn Hne. apply map_eq. intros i.
  destruct (decide (i = name)) as [->|Hi].
  - by rewrite lookup_delete_eq, lookup_insert_ne.
  - rewrite lookup_delete_ne by done. destruct (decide (i = out)) as [->|Ho].
    + by rewrite lookup_alter_eq, !lookup_insert_eq.
    + by rewrite lookup_alter_ne, !lookup_insert_ne, lookup_delete_ne, lookup_alter_ne,
        lookup_insert_ne.
Qed.

Ltac fetched_case resp Hfresh Hne :=
  right; eexists resp; split; [done|]; split; [unfold StatusOK in *; lia|]; split; [done|];
  split; unfold header_entry, merged_entry, fetched_file, fetched_chtimes;
  repeat match goal with
         | H : parse_time _ _ = _ |- _ => rewrite H
         | H : chtimes_ok _ = _ |- _ => rewrite H
         end;
  repeat match goal with
         | |- context [decide (?x ≠ "")] =>
             first [rewrite (decide_True (P := x ≠ "")) by done
                   |rewrite (decide_False (P := x ≠ "")) by done]
         end;
  repeat match goal with
         | H : ¬ _ ≠ "" |- _ => apply dec_stable in H; rewrite ?H
         end;
  try (match goal with |- context [parse_time ?e ""] => destruct (parse_time e "") end);
  cbn;
  first [done|by eauto|by apply fetched_fs
        |by rewrite (fetched_fs_chtimes _ _ _ _ _ _ _ Hfresh Hne)].

(** The whole effect of [fetchOne]. *)
Lemma pool_effect env d u today w :
  let h := history env (Pool.fetchOne env d u today) w in
  let '(w', r) := run env (Pool.fetchOne env d u today) w in
  (untouched h w w' ∧ fs w' = fs w ∧ hadError w' = hadError w
   ∧ (r = None → ∃ resp, first_response env w u = Some resp
                  ∧ StatusCode resp = StatusNotModified))
  ∨ (∃ resp, first_response env w u = Some resp ∧ StatusCode resp = StatusOK
       ∧ r = None
       ∧ downloaded d u today env resp (header_entry env resp) h w w').
Proof.
  unfold first_response.
  exec_pool env d u today w.
  all: try solve [left; split; [by split|]; split_and!; try done; eauto;
                  by apply delete_alter_insert].
  all: fetched_case resp Hfresh Hne.
Qed.

Lemma renamed_fs (m : gmap string File) name out f0 f1 f :
  m !! name = None →
  <[out := f]> (delete name (alter f1 name (<[name := f0]> m))) = <[out := f]> m.
Proof.
  intros Hn. apply map_eq. intros i. destruct (decide (i = out)) as [->|Ho].
  - by rewrite !lookup_insert_eq.
  - rewrite !lookup_insert_ne by done. destruct (decide (i = name)) as [->|Hi].
    + by rewrite lookup_delete_eq.
    + by rewrite lookup_delete_ne, lookup_alter_ne, lookup_insert_ne.
Qed.

Lemma renamed_fs_chtimes (m : gmap string File) name out f0 f1 f g :
  m !! name = None →
  alter g out (<[out := f]> (delete name (alter f1 name (<[name := f0]> m))))
  = <[out := g f]> m.
Proof.
  intros Hn. rewrite renamed_fs by done. apply map_eq. intros i.
  destruct (decide (i = out)) as [->|Ho].
  - by rewrite lookup_alter_eq, !lookup_insert_eq.
  - by rewrite lookup_alter_ne, !lookup_insert_ne.
Qed.

(** The whole effect of the loop body of [main.go]. *)
Lemma seq_effect env d u today w :
  let h := history env (Seq.fetchBody env d u today) w in
  let '(w', o) := run env (Seq.fetchBody env d u today) w in
  (untouched h w w' ∧ o ≠ Seq.Fetched
   ∧ (o ≠ Seq.Failed ErrRename → fs w' = fs w)
   ∧ (o = Seq.Unchanged → hadError w' = hadError w
        ∧ ∃ resp, first_response env w u = Some resp
            ∧ StatusCode resp = StatusNotModified))
  ∨ (∃ resp0 resp req,
       first_response env w u = Some resp0 ∧ StatusCode resp0 = StatusOK
       ∧ NewRequest env "GET" u = Some req
       ∧ server env 1 (conditional (map_index (metadata w) u) req) = Some resp
       ∧ o = Seq.Fetched
       ∧ downloaded d u today env resp
           (merged_entry env (map_index (metadata w) u) resp) h w w').
Proof.
  unfold first_response.
  exec_seq env d u today w.
  all: try solve [left; split; [by split|]; split_and!; try done; eauto;
                  intros _; by apply delete_alter_insert].
  all: right; exists resp0, resp, req; split; [done|]; split; [unfold StatusOK in *; lia|];
    split; [done|]; split; [done|]; split; [done|].
  all: split; unfold header_entry, merged_entry, fetched_file, fetched_chtimes;
  repeat match goal with
         | H : parse_time _ _ = _ |- _ => rewrite H
         | H : chtimes_ok _ = _ |- _ => rewrite H
         end;
  repeat match goal with
         | |- context [decide (?x ≠ "")] =>
             first [rewrite (decide_True (P := x ≠ "")) by done
                   |rewrite (decide_False (P := x ≠ "")) by done]
         end;
  destruct (map_index (metadata w) u); cbn;
  first [done|by eauto|by apply renamed_fs
        |by rewrite (renamed_fs_chtimes _ _ _ _ _ _ _ Hfresh)].
Qed.

(** The error flag after a task: set when the task failed, else as
    it was. *)
Lemma seq_flag env d u today w :
  let '(w', o) := run env (Seq.fetchBody env d u today) w in
  hadError w' = hadError w || failed o.
Proof.
  exec_seq env d u today w; by rewrite ?orb_true_r, ?orb_false_r.
Qed.

Lemma pool_flag env today t w :
  let '(w', r) := run env (Pool.worker_task env today t) w in
  hadError w' = hadError w || is_error r.
Proof.
  destruct t as [d u].
  exec_pool env d u today w; by rewrite ?orb_true_r, ?orb_false_r.
Qed.

(** The entry that [fetchOne] stores has nothing of the old one: a
    field whose header is missing, or a Last-Modified that is no date,
    is empty. *)
Lemma pool_replaces_entry env d u today w :
  let '(w', r) := run env (Pool.fetchOne env d u today) w in
  ∀ resp, first_response env w u = Some resp → StatusCode resp = StatusOK →
    r = None →
    ∃ e, metadata w' !! u = Some e
      ∧ (fetched_chtimes env resp = None → LastModified e = "")
      ∧ (Header_Get (RespHeader resp) "ETag" = "" → ETag e = "")
      ∧ (Header_Get (RespHeader resp) "ETag" ≠ "" →
         ETag e = Header_Get (RespHeader resp) "ETag").
Proof.
  pose proof (pool_effect env d u today w) as H. cbv zeta in H.
  destruct (run env (Pool.fetchOne env d u today) w) as [w' r].
  intros resp Hresp Hok ->.
  destruct H as [(_ & _ & _ & H)|(resp' & Hresp' & _ & _ & [])].
  - destruct (H eq_refl) as (resp' & Hresp' & Hnm). simplify_eq.
    unfold StatusOK, StatusNotModified in *. congruence.
  - assert (resp' = resp) as -> by congruence. exists (header_entry env resp).
    rewrite dl_metadata0, lookup_insert_eq. unfold header_entry, fetched_chtimes. cbn.
    split_and!; [done| |done|done].
    destruct (decide (Header_Get (RespHeader resp) "Last-Modified" ≠ "")) as [Hn|Hn].
    + by intros ->.
    + apply dec_stable in Hn. rewrite Hn. by destruct (parse_time env "").
Qed.

(** The entry that [main.go] stores is the old one with the fields
    that the response gives: a field whose header is missing, or a
    Last-Modified that is no date, keeps the value of the earlier
    run. *)
Lemma seq_keeps_prior_fields env d u today w :
  let '(w', o) := run env (Seq.fetchBody env d u today) w in
  o = Seq.Fetched →
  ∃ resp e, metadata w' !! u = Some e
    ∧ (fetched_chtimes env resp = None →
       LastModified e = LastModified (map_index (metadata w) u))
    ∧ (Header_Get (RespHeader resp) "ETag" = "" →
       ETag e = ETag (map_index (metadata w) u)).
Proof.
  pose proof (seq_effect env d u today w) as H. cbv zeta in H.
  destruct (run env (Seq.fetchBody env d u today) w) as [w' o].
  intros ->.
  destruct H as [(_ & Hne & _)|(resp0 & resp & req & _ & _ & _ & _ & _ & [])]; [done|].
  exists resp, (merged_entry env (map_index (metadata w) u) resp).
  rewrite dl_metadata0, lookup_insert_eq. unfold merged_entry. cbn.
  split_and!; [done| |intros ->; by rewrite decide_False by (intros Hx; by apply Hx)].
  by intros ->.
Qed.

(** A call leaves the map alone, keeps the renames and the requests
    recorded so far and does not clear the error flag. *)
Lemma do_request_keeps env n r w :
  metadata (do_request env n r w).1 = metadata w
  ∧ moved (do_request env n r w).1 = moved w
  ∧ hadError (do_request env n r w).1 = hadError w
  ∧ fs (do_request env n r w).1 = fs w.
Proof. done. Qed.

Lemma do_create_temp_keeps env d p w :
  metadata (do_create_temp env d p w).1 = metadata w
  ∧ moved (do_create_temp env d p w).1 = moved w
  ∧ hadError (do_create_temp env d p w).1 = hadError w
  ∧ sent (do_create_temp env d p w).1 = sent w.
Proof.
  unfold do_create_temp. destruct (create_temp_ok env); [|done].
  by destruct (create_temp_try _ _ _ _ _).
Qed.

Lemma do_copy_keeps env n b w :
  metadata (do_copy env n b w).1 = metadata w
  ∧ moved (do_copy env n b w).1 = moved w
  ∧ hadError (do_copy env n b w).1 = hadError w
  ∧ sent (do_copy env n b w).1 = sent w.
Proof. done. Qed.

Lemma do_rename_keeps env o n w :
  metadata (do_rename env o n w).1 = metadata w
  ∧ (∃ l, moved (do_rename env o n w).1 = moved w ++ l)
  ∧ hadError (do_rename env o n w).1 = hadError w
  ∧ sent (do_rename env o n w).1 = sent w.
Proof.
  unfold do_rename. destruct (rename_ok env).
  - destruct (fs w !! o); cbn; split_and!; try done; [by eexists|].
    exists []. by rewrite app_nil_r.
  - cbn. split_and!; try done. exists []. by rewrite app_nil_r.
Qed.

Lemma do_chtimes_keeps env p t w :
  metadata (do_chtimes env p t w) = metadata w
  ∧ moved (do_chtimes env p t w) = moved w
  ∧ hadError (do_chtimes env p t w) = hadError w
  ∧ sent (do_chtimes env p t w) = sent w.
Proof. unfold do_chtimes. by destruct (chtimes_ok env). Qed.

(** The deferred calls of a panic delete files and do nothing else. *)
Lemma unwind_keeps {A} (p : Prog A) w :
  metadata (unwind p w) = metadata w
  ∧ moved (unwind p w) = moved w
  ∧ hadError (unwind p w) = hadError w
  ∧ sent (unwind p w) = sent w
  ∧ logs (unwind p w) = logs w
  ∧ ∀ path f, fs (unwind p w) !! path = Some f → fs w !! path = Some f.
Proof.
  revert w.
  induction p as [x|l k IH|u k IH|u e k IH|k IH|n r k IH|td tp k IH|cn cb k IH
                 |ro rn k IH|cp ct k IH|rp k IH];
    intros w; cbn; try done.
  destruct (IH (do_remove rp w)) as (-> & -> & -> & -> & -> & Hfs).
  split_and!; try done. intros q f Hq. apply Hfs in Hq. cbn in Hq.
  by apply lookup_delete_Some in Hq as [_ ?].
Qed.

(** A body that returns on the nil map has stored nothing: it runs
    as on a map. *)
Lemma run_nil_some {A} env (p : Prog A) w w' a :
  run_nil env p w = (w', Some a) → run env p w = (w', a).
Proof.
  revert w.
  induction p as [x|l k IH|u k IH|u e k IH|k IH|n r k IH|td tp k IH|cn cb k IH
                 |ro rn k IH|cp ct k IH|rp k IH];
    intros w; cbn; try done; try apply IH.
  all: try by intros [= -> ->].
  all: match goal with
       | |- context [let '(_, _) := ?t in _] => destruct t
       end; apply IH.
Qed.

(** On the nil map no entry is ever stored; the renames recorded stay
    and the error flag, once set, stays set. *)
Lemma run_nil_keeps {A} env (p : Prog A) w :
  metadata (run_nil env p w).1 = metadata w
  ∧ (∃ l, moved (run_nil env p w).1 = moved w ++ l)
  ∧ (hadError w = true → hadError (run_nil env p w).1 = true).
Proof.
  assert (∀ w0 : World, ∃ l, moved w0 = moved w0 ++ l) as Hnil.
  { intros w0. exists []. by rewrite app_nil_r. }
  revert w.
  induction p as [x|l k IH|u k IH|u e k IH|k IH|n r k IH|td tp k IH|cn cb k IH
                 |ro rn k IH|cp ct k IH|rp k IH];
    intros w; cbn [run_nil].
  - cbn. split_and!; auto.
  - apply (IH (add_log l w)).
  - apply IH.
  - cbn. destruct (unwind_keeps k w) as (-> & -> & -> & _). split_and!; auto.
  - destruct (IH (set_hadError true w)) as (-> & Hm & Hf). cbn.
    split_and!; auto.
  - pose proof (do_request_keeps env n r w) as (E1 & E2 & E3 & _).
    destruct (do_request env n r w) as [w1 x]. cbn in *.
    destruct (IH x w1) as (-> & Hm & Hf). rewrite E1, <- E2, <- E3. done.
  - pose proof (do_create_temp_keeps env td tp w) as (E1 & E2 & E3 & _).
    destruct (do_create_temp env td tp w) as [w1 x]. cbn in *.
    destruct (IH x w1) as (-> & Hm & Hf). rewrite E1, <- E2, <- E3. done.
  - pose proof (do_copy_keeps env cn cb w) as (E1 & E2 & E3 & _).
    destruct (do_copy env cn cb w) as [w1 x]. cbn in *.
    destruct (IH x w1) as (-> & Hm & Hf). rewrite E1, <- E2, <- E3. done.
  - pose proof (do_rename_keeps env ro rn w) as (E1 & [l E2] & E3 & _).
    destruct (do_rename env ro rn w) as [w1 x]. cbn in *.
    destruct (IH x w1) as (-> & [l' Hm] & Hf). rewrite E1, <- E3.
    split_and!; [done| |done]. exists (l ++ l'). by rewrite Hm, E2, app_assoc.
  - pose proof (do_chtimes_keeps env cp ct w) as (E1 & E2 & E3 & _).
    destruct (IH (do_chtimes env cp ct w)) as (-> & Hm & Hf).
    rewrite E1, <- E2, <- E3. done.
  - apply (IH (do_remove rp w)).
Qed.

(** The loops of [main.go] on the nil map, up to a panic. *)
Lemma run_urls_nil_spec today d ts w :
  let '(w', os, ok) := Seq.run_urls_nil today d ts w in
  metadata w' = metadata w
  ∧ (∃ l, moved w' = moved w ++ l)
  ∧ (hadError w = true ∨ any_failed os = true → hadError w' = true)
  ∧ (ok = true → Seq.run_urls today d ts w = (w', os)).
Proof.
  revert w. induction ts as [|[u env] ts IH]; intros w; cbn.
  - split_and!; [done|exists []; by rewrite app_nil_r|by intros [?|?]|done].
  - pose proof (run_nil_keeps env (Seq.fetchBody env d u today) w) as (Hm & [l Hmv] & Hf).
    pose proof (run_nil_some env (Seq.fetchBody env d u today) w) as Hs.
    destruct (run_nil env (Seq.fetchBody env d u today) w) as [w1 [o|]]; cbn in *.
    + specialize (IH w1). destruct (Seq.run_urls_nil today d ts w1) as [[w2 os] ok].
      destruct IH as (IH1 & [l' IH2] & IH3 & IH4).
      pose proof (seq_flag env d u today w) as Hflag.
      rewrite (Hs w1 o eq_refl) in Hflag |- *. cbn in Hflag.
      split_and!.
      * by rewrite IH1.
      * exists (l ++ l'). by rewrite IH2, Hmv, app_assoc.
      * unfold any_failed. cbn. intros Hor. apply IH3. rewrite Hflag.
        destruct Hor as [->|[->|?]%orb_true_iff]; [by left|left; apply orb_true_r|by right].
      * intros ->. by rewrite (IH4 eq_refl).
    + split_and!; [done|by eexists| |done].
      unfold any_failed. cbn. intros [?|?]; [auto|done].
Qed.

Lemma run_dirs_nil_spec today cat w :
  let '(w', os, died) := Seq.run_dirs_nil today cat w in
  metadata w' = metadata w
  ∧ (∃ l, moved w' = moved w ++ l)
  ∧ (hadError w = true ∨ any_failed os = true → hadError w' = true)
  ∧ (died = None ∨ died = Some 1 ∨ died = Some 2)
  ∧ (died = None → Seq.run_dirs today cat w = (w', os, true))
  ∧ (died = Some 1 → Seq.run_dirs today cat w = (w', os, false)).
Proof.
  revert w. induction cat as [|d cat IH]; intros w; cbn.
  - split_and!; try done; [exists []; by rewrite app_nil_r|by intros [?|?]|by left].
  - destruct (dj_mkdir_ok d) eqn:Hmk; cbn.
    + pose proof (run_urls_nil_spec today (dj_dir d) (dj_tasks d) w) as Hu.
      destruct (Seq.run_urls_nil _ _ _ w) as [[w1 os1] ok].
      destruct Hu as (Hu1 & [l Hu2] & Hu3 & Hu4). destruct ok.
      * rewrite (Hu4 eq_refl). specialize (IH w1).
        destruct (Seq.run_dirs_nil today cat w1) as [[w2 os2] died].
        destruct IH as (IH1 & [l' IH2] & IH3 & IH4 & IH5 & IH6). split_and!.
        -- by rewrite IH1.
        -- exists (l ++ l'). by rewrite IH2, Hu2, app_assoc.
        -- unfold any_failed in *. rewrite existsb_app.
           intros [?|[?|?]%orb_true_iff]; auto.
        -- done.
        -- intros ->. by rewrite (IH5 eq_refl).
        -- intros ->. by rewrite (IH6 eq_refl).
      * split_and!; try done; [by eexists|by right; right].
    + split_and!; try done; [exists []; by rewrite app_nil_r|by intros [?|?]|by right; left].
Qed.

(* ----------------------------------------------------------------- *)
(** ** The metadata file *)

Lemma unmarshal_marshal_entry e : unmarshal_entry (marshal_entry e) = Some e.
Proof.
  destruct e as [lm et]. unfold marshal_entry, omitempty, unmarshal_entry. cbn.
  destruct (decide (lm = "")) as [->|Hlm], (decide (et = "")) as [->|Het]; cbn.
  - by rewrite decide_True by constructor.
  - rewrite decide_True by (apply NoDup_singleton). done.
  - rewrite decide_True by (apply NoDup_singleton). done.
  - rewrite decide_True; [done|]. apply NoDup_cons. split; [|apply NoDup_singleton].
    intros H%list_elem_of_singleton. discriminate H.
Qed.

Lemma marshal_keys (m : gmap string MetadataEntry) :
  (prod_map id marshal_entry <$> map_to_list m).*1 = (map_to_list m).*1.
Proof. rewrite <- list_fmap_compose. apply list_fmap_ext. by intros ? []. Qed.

(** Reading back the document of a map gives the map. *)
Lemma unmarshal_marshal m : unmarshal (marshal m) = Some (Loaded m).
Proof.
  unfold unmarshal, marshal. rewrite decide_True.
  2:{ rewrite marshal_keys. apply NoDup_fst_map_to_list. }
  rewrite mapM_fmap_Some.
  - cbn. by rewrite list_to_map_to_list.
  - intros [k e]. unfold prod_map. cbn [fst snd id].
    change (unmarshal_entry (marshal_entry e) ≫= (λ e0, Some (k, e0)) = Some (k, e)).
    by rewrite unmarshal_marshal_entry.
Qed.

(** The map is in the file after [writeMetadata], and [readMetadata]
    gives it back, when the codec reads back this document. *)
Lemma write_then_read c we w :
  create_ok we = true → encode_ok we = true → move_ok we = true →
  parse c (emit c (marshal (metadata w))) = Some (marshal (metadata w)) →
  let '(w', ok) := writeMetadata c we w in
  ok = true
  ∧ fs w' !! metadataFile
    = Some {| content := emit c (marshal (metadata w)); mtime := write_now we |}
  ∧ metadata w' = metadata w
  ∧ readMetadata c true (fs w') = Some (Loaded (metadata w)).
Proof.
  intros Hc He Hm Hp. unfold writeMetadata. rewrite Hc, He, Hm. cbn.
  split_and!; try done.
  - by rewrite lookup_insert_eq.
  - unfold readMetadata. rewrite lookup_insert_eq. cbn. rewrite Hp. cbn.
    apply unmarshal_marshal.
Qed.

(* ----------------------------------------------------------------- *)
(** ** The sequential program *)

Lemma stores_follow_renames_task today md0 d u (e : MetadataEntry) w w' :
  stores_follow_renames today md0 w →
  (metadata w' = metadata w ∧ moved w' = moved w)
  ∨ (metadata w' = <[u := e]> (metadata w)
     ∧ ∃ name, moved w' = moved w ++ [(name, outPathOf d u today)]) →
  stores_follow_renames today md0 w'.
Proof.
  intros Hinv [[Hm Hmv]|[Hm (name & Hmv)]] u' Hne.
  - rewrite Hm in Hne. rewrite Hmv. by apply Hinv.
  - rewrite Hmv. destruct (decide (u' = u)) as [->|Hu].
    + exists d, name. apply elem_of_app. right. by apply list_elem_of_singleton.
    + rewrite Hm, lookup_insert_ne in Hne by done.
      destruct (Hinv u' Hne) as (d' & n' & Hin). exists d', n'.
      apply elem_of_app. by left.
Qed.

Lemma seq_task_follows today md0 env d u w :
  stores_follow_renames today md0 w →
  stores_follow_renames today md0 (run env (Seq.fetchBody env d u today) w).1.
Proof.
  intros Hinv. pose proof (seq_effect env d u today w) as H. cbv zeta in H.
  destruct (run env _ w) as [w' o]. cbn.
  destruct H as [(Hu & _)|(r0 & r & req & _ & _ & _ & _ & _ & Hd)].
  - apply (stores_follow_renames_task _ _ d u zero_entry w); [done|].
    left. by destruct Hu.
  - destruct Hd as [_ Hm (name & _ & Hmv) _ _ _].
    eapply (stores_follow_renames_task _ _ d u); [done|]. right. eauto.
Qed.

Lemma run_urls_spec today md0 d ts w :
  let '(w', os) := Seq.run_urls today d ts w in
  os.*1 = dir_tasks {| dj_dir := d; dj_mkdir_ok := true; dj_tasks := ts |}
  ∧ hadError w' = hadError w || existsb (λ to, failed to.2) os
  ∧ (stores_follow_renames today md0 w → stores_follow_renames today md0 w').
Proof.
  revert w. induction ts as [|[u env] ts IH]; intros w; cbn.
  - split_and!; [done|by rewrite orb_false_r|done].
  - pose proof (seq_flag env d u today w) as Hf.
    pose proof (seq_task_follows today md0 env d u w) as Hs.
    destruct (run env (Seq.fetchBody env d u today) w) as [w1 o]. cbn in *.
    specialize (IH w1). destruct (Seq.run_urls today d ts w1) as [w2 os].
    destruct IH as (IH1 & IH2 & IH3). cbn. split_and!.
    + by rewrite IH1.
    + by rewrite IH2, Hf, orb_assoc.
    + eauto.
Qed.

Lemma run_dirs_spec today md0 cat w :
  let '(w', os, ok) := Seq.run_dirs today cat w in
  (ok = true → os.*1 = catalog_tasks cat)
  ∧ (Forall (λ d, dj_mkdir_ok d = true) cat → ok = true)
  ∧ hadError w' = hadError w || existsb (λ to, failed to.2) os
  ∧ (stores_follow_renames today md0 w → stores_follow_renames today md0 w').
Proof.
  revert w. induction cat as [|d cat IH]; intros w; cbn.
  - split_and!; [done|done|by rewrite orb_false_r|done].
  - destruct (dj_mkdir_ok d) eqn:Hmk; cbn.
    + pose proof (run_urls_spec today md0 (dj_dir d) (dj_tasks d) w) as Hu.
      destruct (Seq.run_urls _ _ _ w) as [w1 os1]. destruct Hu as (Hu1 & Hu2 & Hu3).
      specialize (IH w1). destruct (Seq.run_dirs today cat w1) as [[w2 os2] ok].
      destruct IH as (IH1 & IH2 & IH3 & IH4). split_and!.
      * intros ->. rewrite fmap_app, Hu1, IH1 by done. done.
      * intros [_ ?]%Forall_cons. auto.
      * by rewrite IH3, Hu2, existsb_app, orb_assoc.
      * eauto.
    + split_and!; try done.
      * intros [? _]%Forall_cons. congruence.
      * by rewrite orb_false_r.
Qed.

Lemma writeMetadata_spec c we w :
  let '(w', ok) := writeMetadata c we w in
  metadata w' = metadata w ∧ moved w' = moved w ∧ hadError w' = hadError w
  ∧ (ok = true ↔ create_ok we = true ∧ encode_ok we = true ∧ move_ok we = true)
  ∧ (ok = true → persisted c w').
Proof.
  unfold writeMetadata.
  destruct (create_ok we), (encode_ok we), (move_ok we); cbn; split_and!; try done.
  all: try (split; [done|intros (? & ? & ?); done]).
  intros _. split; [|apply unmarshal_marshal].
  eexists. cbn. by rewrite lookup_insert_eq.
Qed.

Lemma finish_spec c we w :
  let '(w', code) := finish c we w in
  metadata w' = metadata w ∧ moved w' = moved w
  ∧ (code = 0 ∨ code = 1)
  ∧ (hadError w = true → code = 1)
  ∧ (create_ok we = true → encode_ok we = true → move_ok we = true →
     persisted c w' ∧ (code = 0 ↔ hadError w = false)).
Proof.
  unfold finish. pose proof (writeMetadata_spec c we w) as H.
  destruct (writeMetadata c we w) as [w' ok].
  destruct H as (Hm & Hmv & Hh & Hok & Hp). rewrite Hh.
  split_and!; try done.
  - destruct ok, (hadError w); auto.
  - intros ->. by destruct ok.
  - intros H1 H2 H3. assert (ok = true) as -> by (by apply Hok).
    split; [by apply Hp|]. destruct (hadError w); split; done.
Qed.

(** The exit status of [main.go]: 2 after a panic, which only a
    process with the nil map meets. *)
Lemma seq_exit_status i :
  let r := Seq.main i in
  (Seq.exit_code r = 0 ∨ Seq.exit_code r = 1 ∨ Seq.exit_code r = 2)
  ∧ (any_failed (Seq.outcomes r) = true →
     Seq.exit_code r = 1 ∨ Seq.exit_code r = 2)
  ∧ ∀ cat, no_fatal i cat →
      (Seq.outcomes r).*1 = catalog_tasks cat
      ∧ (Seq.exit_code r = 0 ↔ any_failed (Seq.outcomes r) = false)
      ∧ persisted (in_codec i) (Seq.final r).
Proof.
  unfold Seq.main, no_fatal.
  destruct (in_sources i) as [cat|] eqn:Hsrc.
  2:{ cbn. split_and!; [by right; left|by left|]. by intros cat [? _]. }
  destruct (readMetadata _ _ _) as [[|md]|] eqn:Hrd.
  3:{ cbn. split_and!; [by right; left|by left|]. intros cat' (_ & [? ?] & _). done. }
  - (* the nil map *)
    pose proof (run_dirs_nil_spec (Format_2006_01_02 (in_today i)) cat
                  (start_world (in_files i) ∅)) as Hrun.
    destruct (Seq.run_dirs_nil _ cat _) as [[w os] died].
    destruct Hrun as (_ & _ & Hf & Hd & _).
    destruct died as [code|].
    + cbn. split_and!.
      * destruct Hd as [?|[[= ->]|[= ->]]]; [done|by right; left|by right; right].
      * intros _. destruct Hd as [?|[[= ->]|[= ->]]]; [done|by left|by right].
      * intros cat' (_ & [? ?] & _). done.
    + pose proof (finish_spec (in_codec i) (in_write i) w) as Hfin.
      destruct (finish _ _ w) as [w' code]. cbn.
      destruct Hfin as (_ & _ & Hc & Hone & _).
      split_and!.
      * destruct Hc; auto.
      * intros Hany. left. apply Hone, Hf. by right.
      * intros cat' (_ & [? ?] & _). done.
  - pose proof (run_dirs_spec (Format_2006_01_02 (in_today i)) md cat
                  (start_world (in_files i) md)) as Hrun.
    destruct (Seq.run_dirs _ cat _) as [[w os] ok].
    destruct Hrun as (Ht & Hok & Hf & _). cbn in Hf.
    destruct ok.
    + pose proof (finish_spec (in_codec i) (in_write i) w) as Hfin.
      destruct (finish _ _ w) as [w' code]. cbn.
      destruct Hfin as (_ & _ & Hc & Hone & Hper). unfold any_failed. rewrite <- Hf.
      split_and!.
      * destruct Hc; auto.
      * intros Hany. left. by apply Hone.
      * intros cat' ([= <-] & _ & _ & H1 & H2 & H3). destruct (Hper H1 H2 H3) as [? ?].
        split_and!; auto.
    + cbn. split_and!; [by right; left|by left|].
      intros cat' ([= <-] & _ & Hmk & _). by apply Hok in Hmk.
Qed.

(** In [main.go] an entry of the map changes only for a URL whose
    download was renamed into place. *)
Lemma seq_stores_follow_renames i cat md0 :
  in_sources i = Some cat →
  readMetadata (in_codec i) (in_open_ok i) (in_files i) = Some md0 →
  stores_follow_renames (Format_2006_01_02 (in_today i)) (map_of md0)
    (Seq.final (Seq.main i)).
Proof.
  intros Hsrc Hrd. unfold Seq.main. rewrite Hsrc, Hrd.
  destruct md0 as [|md0]; cbn [map_of].
  - pose proof (run_dirs_nil_spec (Format_2006_01_02 (in_today i)) cat
                  (start_world (in_files i) ∅)) as Hrun.
    destruct (Seq.run_dirs_nil _ cat _) as [[w os] died].
    destruct Hrun as (Hm & _). cbn in Hm.
    destruct died as [code|].
    + cbn. intros u. by rewrite Hm.
    + pose proof (finish_spec (in_codec i) (in_write i) w) as Hfin.
      destruct (finish _ _ w) as [w' code]. cbn.
      destruct Hfin as (Hm' & _). intros u. by rewrite Hm', Hm.
  - pose proof (run_dirs_spec (Format_2006_01_02 (in_today i)) md0 cat
                  (start_world (in_files i) md0)) as Hrun.
    destruct (Seq.run_dirs _ cat _) as [[w os] ok].
    destruct Hrun as (_ & _ & _ & Hinv).
    assert (stores_follow_renames (Format_2006_01_02 (in_today i)) md0 w) as Hw.
    { apply Hinv. intros u Hne. done. }
    destruct ok; [|done].
    pose proof (finish_spec (in_codec i) (in_write i) w) as Hfin.
    destruct (finish _ _ w) as [w' code]. cbn.
    destruct Hfin as (Hm & Hmv & _). intros u. rewrite Hm, Hmv. apply Hw.
Qed.

(* ----------------------------------------------------------------- *)
(** ** The worker pool *)

Ltac guard_solve :=
  repeat (cbn; match goal with
          | |- ∀ _ : option _, _ => intros [?|]
          | |- ∀ _ : bool, _ => intros [|]
          | |- ∀ _ : MetadataEntry, _ => intros ?
          | |- _ ∧ _ => split
          | |- context [match NewRequest ?e ?m ?u with _ => _ end] =>
              destruct (NewRequest e m u)
          | |- context [decide ?P] => destruct (decide P)
          | |- context [match parse_time ?e ?s with _ => _ end] =>
              destruct (parse_time e s)
          | |- context [bool_decide (?x = ?x)] =>
              rewrite bool_decide_eq_true_2 by done
          end); try done.

Lemma flag_ok_worker_task env today t : flag_ok false (Pool.worker_task env today t).
Proof.
  destruct t as [d u]. unfold Pool.worker_task, Pool.fetchOne. guard_solve.
Qed.

Lemma store_ok_worker_task env today t :
  store_ok (outPathOf (dir t) (url t) today) (url t) false
    (Pool.worker_task env today t).
Proof.
  destruct t as [d u]. unfold Pool.worker_task, Pool.fetchOne. guard_solve.
Qed.

(** What one step does to the shared fields. *)
Lemma do_create_temp_frame env d pat w :
  let w' := (do_create_temp env d pat w).1 in
  hadError w' = hadError w ∧ metadata w' = metadata w ∧ moved w' = moved w.
Proof.
  destruct (do_create_temp env d pat w) as [w1 [name|]] eqn:Hct; cbn.
  - by apply do_create_temp_some in Hct as (_ & -> & _).
  - by apply do_create_temp_none in Hct as ->.
Qed.

Lemma do_rename_frame env old new w :
  let '(w', ok) := do_rename env old new w in
  hadError w' = hadError w ∧ metadata w' = metadata w
  ∧ moved w' = (if ok then moved w ++ [(old, new)] else moved w).
Proof. unfold do_rename. by destruct (rename_ok env), (fs w !! old). Qed.

Lemma do_chtimes_frame env path t w :
  let w' := do_chtimes env path t w in
  hadError w' = hadError w ∧ metadata w' = metadata w ∧ moved w' = moved w.
Proof. unfold do_chtimes. by destruct (chtimes_ok env). Qed.

Ltac step_cases Hs :=
  match type of Hs with
  | step_prog ?env ?p ?w = Some _ =>
      destruct p; cbn in Hs;
      try match type of Hs with
          | context [do_create_temp ?e ?d ?pt ?w0] =>
              let H := fresh "Hfr" in
              pose proof (do_create_temp_frame e d pt w0) as H;
              cbv zeta in H;
              destruct (do_create_temp e d pt w0) as [? ?]; cbn in H
          | context [do_rename ?e ?o ?n ?w0] =>
              let H := fresh "Hfr" in
              pose proof (do_rename_frame e o n w0) as H;
              destruct (do_rename e o n w0) as [? [|]]; cbn in H
          | context [do_chtimes ?e ?pa ?t ?w0] =>
              let H := fresh "Hfr" in
              pose proof (do_chtimes_frame e pa t w0) as H;
              cbv zeta in H
          end;
      simplify_eq; cbn in *
  end.

(** One step keeps the flag property, with the flag moved on. *)
Lemma flag_ok_step env p w p' w' f :
  step_prog env p w = Some (p', w') → flag_ok f p →
  (f = true → hadError w = true) →
  ∃ f', flag_ok f' p' ∧ (f' = true → hadError w' = true)
        ∧ (f = true → f' = true)
        ∧ (hadError w = true → hadError w' = true)
        ∧ (hadError w' = true → hadError w = true ∨ f' = true).
Proof.
  intros Hs Hp Hf. step_cases Hs.
  all: destruct_and?;
    repeat match goal with H : hadError _ = hadError _ |- _ => rewrite H end.
  all: try (exists f; split_and!; by auto).
  exists true. split_and!; auto.
Qed.

Lemma omap_op_task_dispatch cat : omap op_task (dispatch_ops cat) = catalog_tasks cat.
Proof.
  unfold dispatch_ops, catalog_tasks. induction cat as [|d cat IH]; [done|].
  cbn. rewrite omap_app, IH. f_equal. unfold dir_tasks.
  induction (dj_tasks d) as [|ue ts IHt]; [done|]. cbn. by rewrite IHt.
Qed.

Lemma omap_busy_insert_same (ws : list worker) i x y :
  ws !! i = Some x → busy_task y = busy_task x →
  omap busy_task (<[i := y]> ws) = omap busy_task ws.
Proof.
  revert i. induction ws as [|a ws IH]; intros [|i] Hl Hb; simplify_eq/=; [by rewrite Hb|].
  by rewrite (IH i).
Qed.

Lemma omap_busy_insert_start (ws : list worker) i x j p :
  ws !! i = Some x → busy_task x = None →
  omap busy_task (<[i := WBusy j p]> ws) ≡ₚ job_task j :: omap busy_task ws.
Proof.
  revert i. induction ws as [|a ws IH]; intros [|i] Hl Hb; simplify_eq/=.
  - by rewrite Hb.
  - destruct (busy_task a); cbn; rewrite (IH i) by done; [apply Permutation_swap|done].
Qed.

Lemma omap_busy_insert_stop (ws : list worker) i x j p :
  ws !! i = Some (WBusy j p) → busy_task x = None →
  omap busy_task ws ≡ₚ job_task j :: omap busy_task (<[i := x]> ws).
Proof.
  revert i. induction ws as [|a ws IH]; intros [|i] Hl Hb; simplify_eq/=.
  - by rewrite Hb.
  - destruct (busy_task a); cbn; rewrite (IH i) by done; [apply Permutation_swap|done].
Qed.

Lemma struct_inv_boot cat w : struct_inv cat (boot w (dispatch_ops cat) None).
Proof.
  split.
  - apply length_replicate.
  - by exists [].
  - done.
  - cbn [boot workers]. intros [? _]%elem_of_replicate. done.
  - done.
  - unfold open_tasks. cbn [boot disp tasks workers results disp_ops].
    rewrite omap_op_task_dispatch.
    assert (omap busy_task (replicate maxParallel WIdle) = []) as ->.
    { unfold maxParallel. by cbn. }
    cbn. by rewrite !app_nil_r.
Qed.

Lemma elem_of_insert_inv {A} (l : list A) i x y :
  y ∈ <[i:=x]> l → y = x ∨ y ∈ l.
Proof.
  revert i. induction l as [|a l IH]; intros [|i]; cbn; try by auto.
  - intros [->|?]%elem_of_cons; [by left|right; by apply elem_of_cons; right].
  - intros [->|Hin]%elem_of_cons; [right; by apply elem_of_cons; left|].
    destruct (IH i Hin); [by left|right; by apply elem_of_cons; right].
Qed.

Lemma struct_inv_step today c we cat s s' :
  struct_inv cat s → step today c we s s' → struct_inv cat s'.
Proof.
  intros [Hlen [pre Hops] Hcl Hex Hfin Ht] Hstep.
  unfold open_tasks in Ht.
  destruct Hstep as [s d ops He Hd|s d ops He Hd|s j ops He Hd Hq|s He Hd
                    |s i j q He Hw Hq|s i j p p' w' He Hw Hp Hnp
                    |s i j u e k He Hn Hw|s i j r He Hw
                    |s i He Hw Hq Hc|s He Hd Hall];
    try rewrite Hd in *; cbn in *.
  all: split; cbn; unfold open_tasks; cbn; rewrite ?length_insert; try rewrite Hd;
    try done.
  all: try match goal with
       | |- ∃ _, dispatch_ops _ = _ ++ _ =>
           first [by eauto
                 |by (eexists (pre ++ [_]); rewrite <- app_assoc; exact Hops)
                 |by (exists pre; rewrite app_nil_r in *)]
       | |- WExited ∈ <[_:=_]> _ → _ =>
           let Hin := fresh in
           intros Hin; apply elem_of_insert_inv in Hin as [?|Hin]; [done|];
           destruct (Hex Hin); split; congruence
       | |- WExited ∈ _ → _ =>
           let Hin := fresh in
           intros Hin; destruct (Hex Hin); split; congruence
       end.
  - (* send *)
    rewrite <- Ht. rewrite fmap_app. cbn. solve_Permutation.
  - (* receive *)
    rewrite <- Ht, Hq. cbn.
    rewrite (omap_busy_insert_start _ _ WIdle) by done. solve_Permutation.
  - (* a step of a task *)
    by rewrite (omap_busy_insert_same _ _ (WBusy j p)).
  - (* a task returns *)
    rewrite <- Ht. rewrite fmap_app. cbn.
    rewrite (omap_busy_insert_stop (workers s) i WIdle j (Ret r)) by done.
    solve_Permutation.
  - (* a worker returns *)
    by rewrite (omap_busy_insert_same _ _ WIdle).
Qed.

Lemma store_ok_step {A} env (p : Prog A) w p' w' out u rn :
  step_prog env p w = Some (p', w') → store_ok out u rn p →
  (rn = true → ∃ name, (name, out) ∈ moved w) →
  (∃ rn', store_ok out u rn' p'
          ∧ (rn' = true → ∃ name, (name, out) ∈ moved w'))
  ∧ (∀ x, x ∈ moved w → x ∈ moved w')
  ∧ (metadata w' = metadata w
     ∨ ∃ e name, metadata w' = <[u := e]> (metadata w)
                 ∧ (name, out) ∈ moved w').
Proof.
  intros Hs Hp Hrn. step_cases Hs.
  all: destruct_and?;
    repeat match goal with
           | H : moved _ = _ |- _ => rewrite H
           | H : metadata _ = metadata _ |- _ => rewrite H
           end.
  all: try (split_and!; [exists rn; by split|by auto|by left]).
  - (* MetaSet *)
    subst. destruct (Hrn eq_refl) as [name Hin].
    split_and!; [exists true; by eauto|auto|right; eauto].
  - (* Rename, done *)
    split_and!; [|intros x Hx; apply elem_of_app; left; exact Hx|left; reflexivity].
    eexists. split; [done|]. intros [->|Hb%bool_decide_eq_true]%orb_true_iff.
    + destruct (Hrn eq_refl) as [name Hin]. exists name. apply elem_of_app. by left.
    + subst. exists old. apply elem_of_app. right. by apply list_elem_of_singleton.
Qed.

Lemma any_error_app rs r : any_error (rs ++ [r]) = any_error rs || is_error r.2.
Proof. unfold any_error. rewrite existsb_app. cbn. by rewrite orb_false_r. Qed.

Lemma flag_inv_boot w ops : hadError w = false → flag_inv (boot w ops None).
Proof.
  intros Hw. split; cbn [boot workers results world].
  - intros i j p [? _]%lookup_replicate. done.
  - done.
  - rewrite Hw. done.
Qed.

Lemma flag_inv_step today c we s s' :
  flag_inv s → step today c we s s' → flag_inv s'.
Proof.
  intros [Hw Hr Hsrc] Hstep.
  destruct Hstep as [s d ops He Hd|s d ops He Hd|s j ops He Hd Hq|s He Hd
                    |s i j q He Hwi Hq|s i j p p' w' He Hwi Hp Hnp
                    |s i j u e k He Hn Hwi|s i j r He Hwi
                    |s i He Hwi Hq Hc|s He Hd Hall].
  1-4: by split.
  - (* receive *)
    split; cbn.
    + intros i' j' p' [(? & ? & _)|[? ?]]%list_lookup_insert_Some; [|eauto].
      simplify_eq. exists false. split; [apply flag_ok_worker_task|done].
    + done.
    + intros Hh. destruct (Hsrc Hh) as [?|(i' & j' & p' & Hl & Hf)]; [by left|right].
      exists i', j', p'. split; [|done]. rewrite list_lookup_insert_ne; [done|].
      intros ->. congruence.
  - (* a step of a task *)
    destruct (Hw _ _ _ Hwi) as (f & Hf & Hfh).
    destruct (flag_ok_step _ _ _ _ _ _ Hp Hf Hfh) as (f' & Hf' & Hfh' & _ & Hmono & Hnew).
    split; cbn.
    + intros i' j' p0 [(? & ? & _)|[? Hl]]%list_lookup_insert_Some;
        [simplify_eq; by eauto|].
      destruct (Hw _ _ _ Hl) as (f0 & ? & ?). exists f0. split; auto.
    + auto.
    + intros Hh. destruct (Hnew Hh) as [Hold| ->].
      * destruct (Hsrc Hold) as [?|(i' & j' & p0 & Hl & Hf0)]; [by left|right].
        destruct (decide (i' = i)) as [->|Hne].
        -- rewrite Hwi in Hl. simplify_eq.
           destruct (flag_ok_step _ _ _ _ _ _ Hp Hf0 (λ _, Hold))
             as (f1 & Hf1 & _ & Ht & _). rewrite (Ht eq_refl) in Hf1.
           eexists _, _, _. split; [|exact Hf1]. apply list_lookup_insert_eq.
           by eapply lookup_lt_Some.
        -- exists i', j', p0. split; [|done]. by rewrite list_lookup_insert_ne.
      * right. eexists _, _, _. split; [|exact Hf']. apply list_lookup_insert_eq.
        by eapply lookup_lt_Some.
  - (* a panic *)
    destruct (unwind_keeps k (world s)) as (_ & _ & Hh & _).
    split; cbn; rewrite ?Hh; auto.
  - (* a task returns *)
    destruct (Hw _ _ _ Hwi) as (f & Hf & Hfh). cbn in Hf.
    split; cbn.
    + intros i' j' p0 [(-> & ? & _)|[? Hl]]%list_lookup_insert_Some; [done|eauto].
    + rewrite any_error_app. cbn. intros [?|Her]%orb_true_iff; [auto|].
      apply Hfh. congruence.
    + rewrite any_error_app. cbn. intros Hh.
      destruct (Hsrc Hh) as [->|(i' & j' & p0 & Hl & Hf0)]; [by left|].
      destruct (decide (i' = i)) as [->|Hne].
      * rewrite Hwi in Hl. simplify_eq. cbn in Hf0. left. rewrite Hf0. apply orb_true_r.
      * right. exists i', j', p0. split; [|done]. by rewrite list_lookup_insert_ne.
  - (* a worker returns *)
    split; cbn.
    + intros i' j' p0 [(-> & ? & _)|[? Hl]]%list_lookup_insert_Some; [done|eauto].
    + done.
    + intros Hh. destruct (Hsrc Hh) as [?|(i' & j' & p0 & Hl & Hf0)]; [by left|right].
      exists i', j', p0. split; [|done]. rewrite list_lookup_insert_ne; [done|].
      intros ->. congruence.
  - (* the end of main *)
    pose proof (finish_spec c we (world s)) as Hfin.
    destruct (finish c we (world s)) as [w' code] eqn:Hfe.
    assert (hadError w' = hadError (world s)) as Hh.
    { unfold finish in Hfe. pose proof (writeMetadata_spec c we (world s)) as Hws.
      destruct (writeMetadata c we (world s)) as [w1 ok]. simplify_eq. by destruct Hws as (_ & _ & ? & _). }
    split; cbn; rewrite ?Hh; auto.
Qed.

Lemma store_inv_boot today md0 files ops :
  store_inv today md0 (boot (start_world files md0) ops None).
Proof.
  split; cbn [boot workers world].
  - intros i j p [? _]%lookup_replicate. done.
  - intros u Hne. done.
Qed.

Lemma stores_follow_mono today md0 w w' :
  metadata w' = metadata w → (∀ x, x ∈ moved w → x ∈ moved w') →
  stores_follow_renames today md0 w → stores_follow_renames today md0 w'.
Proof.
  intros Hm Hmv H u Hne. rewrite Hm in Hne. destruct (H u Hne) as (d & n & ?). eauto.
Qed.

Lemma store_inv_step today c we md0 s s' :
  store_inv today md0 s → step today c we s s' → store_inv today md0 s'.
Proof.
  intros [Hw Hst] Hstep.
  destruct Hstep as [s d ops He Hd|s d ops He Hd|s j ops He Hd Hq|s He Hd
                    |s i j q He Hwi Hq|s i j p p' w' He Hwi Hp Hnp
                    |s i j u e k He Hn Hwi|s i j r He Hwi
                    |s i He Hwi Hq Hc|s He Hd Hall].
  1-4: by split.
  - (* receive *)
    split; cbn; [|done].
    intros i' j' p' [(? & ? & _)|[? ?]]%list_lookup_insert_Some; [|eauto].
    simplify_eq. exists false. split; [apply store_ok_worker_task|done].
  - (* a step of a task *)
    destruct (Hw _ _ _ Hwi) as (rn & Hok & Hrn).
    destruct (store_ok_step _ _ _ _ _ _ _ _ Hp Hok Hrn)
      as ((rn' & Hok' & Hrn') & Hmono & Hmeta).
    split; cbn.
    + intros i' j' p0 [(? & ? & _)|[? Hl]]%list_lookup_insert_Some;
        [simplify_eq; by eauto|].
      destruct (Hw _ _ _ Hl) as (rn0 & ? & Hrn0). exists rn0. split; [done|].
      intros Ht. destruct (Hrn0 Ht) as [name ?]. eauto.
    + destruct Hmeta as [Hm|(e & name & Hm & Hin)].
      * by eapply stores_follow_mono.
      * intros u Hne. destruct (decide (u = url (job_task j))) as [->|Hu].
        -- exists (dir (job_task j)), name. exact Hin.
        -- rewrite Hm, lookup_insert_ne in Hne by done.
           destruct (Hst u Hne) as (d & n & ?). eauto.
  - (* a panic *)
    destruct (unwind_keeps k (world s)) as (Hm & Hmv & _).
    split; cbn.
    + intros i' j' p Hl. destruct (Hw _ _ _ Hl) as (rn & ? & ?). exists rn.
      by rewrite Hmv.
    + eapply stores_follow_mono; [done| |done]. by rewrite Hmv.
  - (* a task returns *)
    split; cbn; [|done].
    intros i' j' p0 [(? & ? & _)|[? Hl]]%list_lookup_insert_Some; [done|eauto].
  - (* a worker returns *)
    split; cbn; [|done].
    intros i' j' p0 [(? & ? & _)|[? Hl]]%list_lookup_insert_Some; [done|eauto].
  - (* the end of main *)
    pose proof (finish_spec c we (world s)) as Hfin.
    destruct (finish c we (world s)) as [w' code]. destruct Hfin as (Hm & Hmv & _).
    split; cbn.
    + intros i j p Hl. destruct (Hw _ _ _ Hl) as (rn & ? & ?). exists rn. by rewrite Hmv.
    + eapply stores_follow_mono; [done| |done]. by rewrite Hmv.
Qed.

Lemma exit_inv_step c we today cat s s' :
  struct_inv cat s → flag_inv s → exit_inv c we cat s →
  step today c we s s' → exit_inv c we cat s'.
Proof.
  intros Hs Hf He Hstep code.
  destruct Hs as [Hlen [pre Hops] Hcl Hex Hfin Ht].
  destruct Hf as [Hfw Hfr Hfs].
  destruct Hstep as [s d ops He' Hd|s d ops He' Hd|s j ops He' Hd Hq|s He' Hd
                    |s i j q He' Hwi Hq|s i j p p' w' He' Hwi Hp Hnp
                    |s i j u e k He' Hn Hwi|s i j r He' Hwi
                    |s i He' Hwi Hq Hc|s He' Hd Hall]; cbn;
    try (rewrite He'; intros [=]).
  - (* MkdirAll fails *)
    intros [= <-]. split_and!; [by right; left|by left|].
    intros (Hmk & _) _. exfalso. rewrite Hd in Hops. cbn in Hops.
    assert (DMkdirAll d false ∈ dispatch_ops cat) as Hin.
    { rewrite Hops. apply elem_of_app. right. by left. }
    unfold dispatch_ops in Hin. apply list_elem_of_bind in Hin as (dj & Hin & Hdj).
    rewrite Forall_forall in Hmk. specialize (Hmk _ Hdj).
    unfold dispatch_dir in Hin. apply elem_of_cons in Hin as [Heq|Hin].
    + simplify_eq. congruence.
    + apply list_elem_of_fmap in Hin as (? & ? & _). done.
  - (* a panic *)
    intros [= <-]. split_and!; [by right; right|by right|].
    intros _ Hnil. congruence.
  - (* the end of main *)
    intros [= <-].
    pose proof (finish_spec c we (world s)) as Hfin'.
    destruct (finish c we (world s)) as [w' code'] eqn:Hfe. cbn.
    destruct Hfin' as (_ & _ & Hcode & Hone & Hclean).
    assert (omap busy_task (workers s) = []) as Hbusy.
    { clear -Hall. induction Hall as [|x l -> _ IH]; [done|]. cbn. exact IH. }
    assert (tasks s = []) as Hq.
    { apply Hex. destruct (workers s) as [|x l]; [by cbn in Hlen|].
      apply Forall_cons in Hall as [-> _]. by left. }
    assert (hadError (world s) = any_error (results s)) as Hh.
    { destruct (any_error (results s)) eqn:Hae; [by apply Hfr|].
      destruct (hadError (world s)) eqn:Hhe; [|done].
      destruct (Hfs eq_refl) as [?|(i & j & p & Hl & _)]; [done|].
      rewrite Forall_lookup in Hall. by specialize (Hall _ _ Hl). }
    unfold any_error in Hh |- *. rewrite <- Hh.
    split_and!; [destruct Hcode; auto|by left; apply Hone|].
    intros (_ & H1 & H2 & H3) _. destruct (Hclean H1 H2 H3) as [Hper Hiff].
    split_and!; [|done|done].
    rewrite <- Ht. unfold open_tasks. rewrite Hd, Hq, Hbusy. done.
Qed.

Lemma step_exit_none today c we s s' : step today c we s s' → exit s = None.
Proof. by destruct 1. Qed.

Lemma exited_stays today c we s s' :
  is_Some (exit s) → rtc (step today c we) s s' → s' = s.
Proof.
  intros [code Hc] Hr. destruct Hr as [|s1 s2 s3 Hs _]; [done|].
  apply step_exit_none in Hs. congruence.
Qed.

Lemma step_nilmap today c we s s' : step today c we s s' → nilmap s' = nilmap s.
Proof. by destruct 1. Qed.

Lemma reachable_nilmap i s :
  reachable i s → nilmap s = nilmap (init i).
Proof.
  unfold reachable. revert s. apply rtc_ind_r; [done|].
  intros s s' _ Hstep <-. by eapply step_nilmap.
Qed.

Lemma init_nilmap i cat md0 :
  in_sources i = Some cat →
  readMetadata (in_codec i) (in_open_ok i) (in_files i) = Some md0 →
  nilmap (init i) = is_nil md0.
Proof. intros Hsrc Hrd. unfold init. rewrite Hsrc, Hrd. by destruct md0. Qed.

(** The process with the nil map starts like the one with the empty
    map. *)
Lemma init_start i cat md0 :
  in_sources i = Some cat →
  readMetadata (in_codec i) (in_open_ok i) (in_files i) = Some md0 →
  init i = set_nilmap (is_nil md0)
             (boot (start_world (in_files i) (map_of md0)) (dispatch_ops cat)
                None).
Proof. intros Hsrc Hrd. unfold init. rewrite Hsrc, Hrd. by destruct md0. Qed.

(** The invariants of the runs of the pool that get past the reading
    of the catalog and of the metadata file. *)
Lemma pool_invariants i cat md0 s :
  in_sources i = Some cat →
  readMetadata (in_codec i) (in_open_ok i) (in_files i) = Some md0 →
  reachable i s →
  struct_inv cat s ∧ flag_inv s
  ∧ store_inv (Format_2006_01_02 (in_today i)) (map_of md0) s
  ∧ exit_inv (in_codec i) (in_write i) cat s.
Proof.
  intros Hsrc Hrd Hr. unfold reachable in Hr.
  revert s Hr. apply rtc_ind_r; [|intros s s' Hr Hstep IH].
  - rewrite (init_start i cat md0 Hsrc Hrd). split_and!.
    + destruct (struct_inv_boot cat (start_world (in_files i) (map_of md0)))
        as [? ? ? ? ? ?]. by split.
    + destruct (flag_inv_boot (start_world (in_files i) (map_of md0))
                  (dispatch_ops cat) eq_refl) as [? ? ?]. by split.
    + destruct (store_inv_boot (Format_2006_01_02 (in_today i)) (map_of md0)
                  (in_files i) (dispatch_ops cat)) as [? ?]. by split.
    + intros code Hc. done.
  - destruct IH as (H1 & H2 & H3 & H4). split_and!.
    + by eapply struct_inv_step.
    + by eapply flag_inv_step.
    + by eapply store_inv_step.
    + by eapply exit_inv_step.
Qed.

(** The exit status of the pool: 2 after a panic, which only a
    process with the nil map meets. *)
Lemma pool_exit_status i s code :
  reachable i s → exit s = Some code →
  (code = 0 ∨ code = 1 ∨ code = 2)
  ∧ (any_error (results s) = true → code = 1 ∨ code = 2)
  ∧ ∀ cat, no_fatal i cat →
      (results s).*1 ≡ₚ catalog_tasks cat
      ∧ (code = 0 ↔ any_error (results s) = false)
      ∧ persisted (in_codec i) (world s).
Proof.
  intros Hr Hc.
  destruct (in_sources i) as [cat|] eqn:Hsrc;
    [destruct (readMetadata (in_codec i) (in_open_ok i) (in_files i)) as [md0|] eqn:Hrd|].
  - destruct (pool_invariants i cat md0 s Hsrc Hrd Hr) as (_ & _ & _ & He).
    destruct (He code Hc) as (H1 & H2 & H3). split_and!; [|done|].
    { destruct H1 as [?|[?|[? _]]]; auto. }
    intros cat' (Hsrc' & [md Hmd] & Hmk & Hw). rewrite Hsrc in Hsrc'. simplify_eq.
    apply H3; [done|].
    rewrite (reachable_nilmap i s Hr), (init_nilmap i cat' _ Hsrc Hrd). done.
  - assert (s = init i) as ->.
    { eapply exited_stays; [|exact Hr]. unfold init. by rewrite Hsrc, Hrd. }
    unfold init in Hc |- *. rewrite Hsrc, Hrd in Hc |- *. cbn in *. simplify_eq.
    split_and!; [by right; left|by left|].
    intros cat' (_ & [? Hx] & _). rewrite Hrd in Hx. done.
  - assert (s = init i) as ->.
    { eapply exited_stays; [|exact Hr]. unfold init. by rewrite Hsrc. }
    unfold init in Hc |- *. rewrite Hsrc in Hc |- *. cbn in *. simplify_eq.
    split_and!; [by right; left|by left|].
    intros cat' (Hx & _). rewrite Hsrc in Hx. done.
Qed.

(** In the pool an entry of the map changes only for a URL whose
    download was renamed into place. *)
Lemma pool_stores_follow_renames i cat md0 s :
  in_sources i = Some cat →
  readMetadata (in_codec i) (in_open_ok i) (in_files i) = Some md0 →
  reachable i s →
  stores_follow_renames (Format_2006_01_02 (in_today i)) (map_of md0) (world s).
Proof.
  intros Hsrc Hrd Hr.
  destruct (pool_invariants i cat md0 s Hsrc Hrd Hr) as (_ & _ & [_ H] & _). done.
Qed.

Lemma bounded_mono {A} (p : Prog A) lo hi :
  (lo ≤ hi)%nat → bounded lo p → bounded hi p.
Proof.
  revert lo hi.
  induction p as [r|l k IH|u k IH|u e k IH|k IH|i q k IH|d pt k IH|nm b k IH
                 |o nw k IH|pa t k IH|pa k IH];
    intros lo hi Hle Hb; [by cbn|..];
    (destruct lo as [|lo]; [by cbn in Hb|]);
    (destruct hi as [|hi]; [exfalso; lia|]);
    cbn in *.
  all: try (apply (IH lo hi); [lia|done]).
  all: intros x; apply (IH x lo hi); [lia|done].
Qed.

Lemma bounded_worker_task env today t : bounded task_steps (worker_task env today t).
Proof.
  destruct t as [d u]. unfold worker_task, fetchOne, task_steps. guard_solve.
Qed.

Lemma bounded_step {A} env (p : Prog A) w p' w' hi :
  step_prog env p w = Some (p', w') → bounded hi p →
  ∃ lo, hi = S lo ∧ bounded lo p'.
Proof.
  intros Hs Hb. destruct p; cbn in *; try done; destruct hi as [|hi]; try done.
  all: repeat match type of Hs with
       | context [let '(_, _) := ?x in _] => destruct x
       end; simplify_eq; eauto.
Qed.

Lemma step_prog_some {A} env (p : Prog A) w :
  (∃ r, p = Ret r) ∨ is_Some (step_prog env p w).
Proof.
  destruct p; cbn; eauto.
  all: right; repeat match goal with
       | |- context [let '(_, _) := ?x in _] => destruct x
       end; eauto.
Qed.

Lemma sum_list_insert (bs : list nat) i b y :
  bs !! i = Some b → (sum_list (<[i:=y]> bs) + b = sum_list bs + y)%nat.
Proof.
  revert i. induction bs as [|a bs IH]; intros [|i] Hl; simplify_eq/=; [lia|].
  specialize (IH i Hl). lia.
Qed.

Lemma worker_can_step today c we s i j p :
  exit s = None → workers s !! i = Some (WBusy j p) → ∃ s', step today c we s s'.
Proof.
  intros He Hw. destruct (step_prog_some (job_env j) p (world s)) as [[r ->]|[[p' w'] Hs]].
  - eexists. by eapply step_done.
  - destruct (nilmap s) eqn:Hn, (panics p) eqn:Hp.
    + destruct p; try done. eexists. by eapply step_panic.
    + eexists. by eapply step_work.
    + eexists. eapply step_work; [done|done|done|]. by rewrite Hn.
    + eexists. by eapply step_work.
Qed.

Lemma all_exited_or_not (ws : list worker) :
  Forall (λ x, x = WExited) ws ∨ ∃ i x, ws !! i = Some x ∧ x ≠ WExited.
Proof.
  induction ws as [|x ws [IH|(i & y & Hi & Hy)]].
  - by left.
  - destruct x; [right; by exists 0%nat, WIdle|right; by eexists 0%nat, _|left; by constructor].
  - right. by exists (S i), y.
Qed.

(** A process that has not exited can take a step: the pool does not
    deadlock. *)
Lemma pool_progress today c we cat s :
  struct_inv cat s → exit s = None → ∃ s', step today c we s s'.
Proof.
  intros [Hlen _ Hcl Hex Hfin _] He.
  destruct (disp s) as [[|[d [|]|j] ops]| |] eqn:Hd.
  - eexists. by apply step_close.
  - eexists. by eapply step_mkdir_ok.
  - eexists. by eapply step_mkdir_fatal.
  - destruct (decide (length (tasks s) < maxParallel)%nat) as [Hlt|Hge].
    { eexists. by eapply step_send. }
    destruct (tasks s) as [|j0 q] eqn:Hq; [cbn in Hge; unfold maxParallel in Hge; lia|].
    destruct (workers s) as [|x ws] eqn:Hws; [by cbn in Hlen|].
    destruct x as [|j1 p|].
    + eexists. eapply (step_recv _ _ _ s 0%nat); [done| |done]. by rewrite Hws.
    + eapply (worker_can_step _ _ _ s 0%nat); [done|]. by rewrite Hws.
    + destruct Hex as [? _]; [by left|done].
  - destruct (all_exited_or_not (workers s)) as [Hall|(i & x & Hi & Hx)].
    { eexists. by apply step_finish. }
    destruct x as [|j1 p|]; [|by eapply worker_can_step|done].
    destruct (tasks s) as [|j0 q] eqn:Hq.
    + eexists. eapply step_return; [done|done|done|]. by rewrite Hcl.
    + eexists. by eapply step_recv.
  - destruct Hfin as [? ?]; [done|congruence].
Qed.

Lemma exited_sn today c we s : is_Some (exit s) → sn (step today c we) s.
Proof.
  intros [code Hc]. constructor. intros s' Hs. cbn in Hs.
  apply step_exit_none in Hs. congruence.
Qed.

Lemma steps_left_sn today c we n s : steps_left s n → sn (step today c we) s.
Proof.
  revert s. induction (lt_wf n) as [n _ IH]. intros s (bs & Hbs & Hn).
  constructor. intros s' Hstep. cbn in Hstep.
  assert (∀ m s1, steps_left s1 m → (m < n)%nat → sn (step today c we) s1) as Hdec.
  { intros m s1 Hm Hlt. by eapply IH. }
  clear IH.
  destruct Hstep as [s d ops He Hd|s d ops He Hd|s j ops He Hd Hq|s He Hd
                    |s i j q He Hwi Hq|s i j p p' w' He Hwi Hp Hnp
                    |s i j u e k He Hnil Hwi|s i j r He Hwi
                    |s i He Hwi Hq Hc|s He Hd Hall].
  - eapply Hdec; [exists bs; split; [exact Hbs|reflexivity]|].
    subst n. rewrite Hd. cbn. lia.
  - by apply exited_sn.
  - eapply Hdec; [exists bs; split; [exact Hbs|reflexivity]|].
    subst n. rewrite Hd. cbn. rewrite length_app. cbn. unfold task_steps. lia.
  - eapply Hdec; [exists bs; split; [exact Hbs|reflexivity]|].
    subst n. rewrite Hd. cbn. lia.
  - destruct (Forall2_lookup_l _ _ _ _ _ Hbs Hwi) as (b & Hb & Hwb). cbn in Hwb.
    eapply (Hdec _ _ (ex_intro _ (<[i := (task_steps + 2)%nat]> bs) _)).
    Unshelve.
    3:{ split; [|reflexivity]. cbn. apply Forall2_insert; [done|].
        exists task_steps. split; [apply bounded_worker_task|done]. }
    subst n b. rewrite Hq. cbn [tasks workers disp set_worker set_tasks length].
    pose proof (sum_list_insert bs i 1 (task_steps + 2) Hb). unfold task_steps in *. lia.
  - destruct (Forall2_lookup_l _ _ _ _ _ Hbs Hwi) as (b & Hb & (m & Hm & Hle & ->)).
    destruct (bounded_step _ _ _ _ _ _ Hp Hm) as (m' & -> & Hm').
    eapply (Hdec _ _ (ex_intro _ (<[i := (m' + 2)%nat]> bs) _)).
    Unshelve.
    3:{ split; [|reflexivity]. cbn. apply Forall2_insert; [done|].
        exists m'. split; [done|]. split; [lia|done]. }
    subst n. cbn [tasks workers disp set_worker set_world].
    pose proof (sum_list_insert bs i _ (m' + 2) Hb). lia.
  - by apply exited_sn.
  - destruct (Forall2_lookup_l _ _ _ _ _ Hbs Hwi) as (b & Hb & (m & Hm & Hle & ->)).
    eapply (Hdec _ _ (ex_intro _ (<[i := 1%nat]> bs) _)).
    Unshelve.
    3:{ split; [|reflexivity]. cbn. by apply Forall2_insert. }
    subst n. cbn [tasks workers disp set_worker add_result].
    pose proof (sum_list_insert bs i _ 1 Hb). lia.
  - destruct (Forall2_lookup_l _ _ _ _ _ Hbs Hwi) as (b & Hb & Hwb). cbn in Hwb.
    eapply (Hdec _ _ (ex_intro _ (<[i := 0%nat]> bs) _)).
    Unshelve.
    3:{ split; [|reflexivity]. cbn. by apply Forall2_insert. }
    subst n b. cbn [tasks workers disp set_worker].
    pose proof (sum_list_insert bs i _ 0 Hb). lia.
  - by apply exited_sn.
Qed.

(** Every run of the pool is finite. *)
Lemma pool_terminates i s :
  reachable i s →
  sn (step (Format_2006_01_02 (in_today i)) (in_codec i) (in_write i)) s.
Proof.
  intros Hr.
  assert (sn (step (Format_2006_01_02 (in_today i)) (in_codec i) (in_write i)) (init i)) as H0.
  { unfold init. destruct (in_sources i) as [cat|]; [|by apply exited_sn].
    destruct (readMetadata _ _ _) as [[|md]|]; [| |by apply exited_sn].
    all: eapply steps_left_sn; exists (replicate maxParallel 1%nat);
      (split; [|reflexivity]); cbn [boot set_nilmap workers];
      apply Forall2_replicate; done. }
  unfold reachable in Hr. induction Hr as [|s1 s2 s3 Hs _ IH]; [done|].
  apply IH. destruct H0 as [H0]. by apply H0.
Qed.

(** Every run of the pool can be carried on to an exit, and cannot
    stop before. *)
Lemma pool_reaches_exit i s :
  reachable i s →
  ∃ s', rtc (step (Format_2006_01_02 (in_today i)) (in_codec i) (in_write i)) s s'
        ∧ is_Some (exit s').
Proof.
  intros Hr. pose proof (pool_terminates i s Hr) as Hsn.
  induction Hsn as [s _ IH].
  destruct (exit s) as [code|] eqn:He.
  { exists s. split; [done|]. rewrite He. by eexists. }
  assert (∃ s', step (Format_2006_01_02 (in_today i)) (in_codec i) (in_write i) s s')
    as [s1 Hs1].
  { destruct (in_sources i) as [cat|] eqn:Hsrc;
      [destruct (readMetadata (in_codec i) (in_open_ok i) (in_files i)) as [md0|] eqn:Hrd|].
    - destruct (pool_invariants i cat md0 s Hsrc Hrd Hr) as (Hst & _).
      by eapply pool_progress.
    - assert (s = init i) as ->.
      { eapply exited_stays; [|exact Hr]. unfold init. by rewrite Hsrc, Hrd. }
      unfold init in He. by rewrite Hsrc, Hrd in He.
    - assert (s = init i) as ->.
      { eapply exited_stays; [|exact Hr]. unfold init. by rewrite Hsrc. }
      unfold init in He. by rewrite Hsrc in He. }
  destruct (IH s1 Hs1) as (s' & Hrs & Hex).
  { unfold reachable. eapply rtc_r; [exact Hr|exact Hs1]. }
  exists s'. split; [|done]. by eapply rtc_l.
Qed.

(* ----------------------------------------------------------------- *)
(** ** Destination names *)

Lemma outPathOf_unfold d u today :
  outPathOf d u today
  = Clean ((if decide (d = "") then "" else d +:+ "/")
           +:+ TrimSuffix (Base u) ".csv" +:+ "-" +:+ today +:+ ".csv").
Proof.
  unfold outPathOf. cbn [Join]. destruct (decide (d = "")) as [->|Hd].
  - rewrite decide_False; [done|].
    intros [_ [_ [_ ?]%app_eq_empty]%app_eq_empty]%app_eq_empty. done.
  - cbn [join_sep]. by rewrite !app_assoc'.
Qed.

(** The path of the download is a part fixed by the directory and
    the URL, then the date of the run, then [.csv]. *)
Lemma outPathOf_shape d u :
  ∃ P, ∀ today, has_sep today = false →
    outPathOf d u today = P +:+ today +:+ ".csv".
Proof.
  destruct (Clean_app_tail ((if decide (d = "") then "" else d +:+ "/")
                            +:+ TrimSuffix (Base u) ".csv" +:+ "-")) as [P HP].
  exists P. intros today Ht. rewrite outPathOf_unfold.
  rewrite <- (HP (today +:+ ".csv")).
  - by rewrite !app_assoc'.
  - rewrite has_sep_app, Ht. done.
  - rewrite length_app'. simpl. lia.
Qed.

(** Two days give two paths. *)
Lemma outPathOf_inj_date d u t1 t2 :
  valid_date t1 → valid_date t2 →
  outPathOf d u (Format_2006_01_02 t1) = outPathOf d u (Format_2006_01_02 t2) →
  t1 = t2.
Proof.
  intros H1 H2 Heq. destruct (outPathOf_shape d u) as [P HP].
  pose proof (Format_is_stamp _ H1) as S1. pose proof (Format_is_stamp _ H2) as S2.
  rewrite !HP in Heq by (by eapply stamp_no_sep).
  apply String.app_inj in Heq.
  apply app_inj_length in Heq as [Heq _].
  - by apply Format_inj.
  - by rewrite (stamp_length _ _ S1), (stamp_length _ _ S2).
Qed.

Lemma has_sep_substring s n m : has_sep s = false → has_sep (substring n m s) = false.
Proof.
  revert n m. induction s as [|c s IH]; intros [|n] [|m] H; try done.
  - cbn in *. apply orb_false_iff in H as [-> H]. by rewrite IH.
  - cbn in *. apply orb_false_iff in H as [_ H]. by apply IH.
  - cbn in *. apply orb_false_iff in H as [_ H]. by apply IH.
Qed.

Lemma has_sep_TrimSuffix s suf : has_sep s = false → has_sep (TrimSuffix s suf) = false.
Proof. intros H. unfold TrimSuffix. destruct (HasSuffix s suf); [by apply has_sep_substring|done]. Qed.

Lemma split_slash_elems s e : e ∈ split_slash s → has_sep e = false.
Proof.
  revert e. induction s as [|c s IH]; intros e; cbn.
  - by intros ->%list_elem_of_singleton.
  - destruct (is_sep c) eqn:Hc.
    + intros [->|?]%elem_of_cons; [done|by apply IH].
    + pose proof (split_slash_nonempty s). destruct (split_slash s) as [|x xs]; [done|].
      intros [->|?]%elem_of_cons.
      * cbn. rewrite Hc. apply IH. by left.
      * apply IH. by right.
Qed.

Lemma final_segment_no_sep u seg : final_segment u = Some seg → has_sep seg = false.
Proof.
  unfold final_segment. intros H. apply last_Some_elem_of in H.
  apply list_elem_of_filter in H as [_ H]. by eapply split_slash_elems.
Qed.

Lemma Clean_two d n : plain d → plain n → Clean (d +:+ "/" +:+ n) = d +:+ "/" +:+ n.
Proof.
  intros (Hd1 & Hd2 & Hd3 & Hd4) (Hn1 & Hn2 & Hn3 & Hn4). unfold Clean.
  rewrite decide_False.
  2:{ intros [? _]%app_eq_empty. done. }
  change ("/" +:+ n) with (String "/" n).
  rewrite split_slash_sep, !split_slash_no_sep by done. cbn [app fold_left].
  rewrite !clean_step_real by done. cbn [rev app join_sep].
  assert (HasPrefix (d +:+ String "/" n) "/" = false) as ->.
  { destruct d as [|c d]; [done|]. rewrite app_cons. cbn [has_sep HasPrefix] in *.
    apply orb_false_iff in Hd1 as [Hc _].
    unfold is_sep in Hc. rewrite Ascii.eqb_sym. by rewrite Hc. }
  rewrite decide_False; [done|]. intros [? _]%app_eq_empty. done.
Qed.

(** In a catalog directory with a plain name the file is the final
    segment of the URL without [.csv], a hyphen, the date, [.csv]. *)
Lemma outPathOf_plain d u seg today :
  plain d → final_segment u = Some seg → has_sep today = false →
  outPathOf d u today
  = d +:+ "/" +:+ TrimSuffix seg ".csv" +:+ "-" +:+ today +:+ ".csv".
Proof.
  intros Hd Hseg Ht. unfold outPathOf. rewrite (Base_final_segment _ _ Hseg).
  cbn [Join]. destruct Hd as (Hd1 & Hd2 & Hd3 & Hd4). rewrite decide_False by done.
  cbn [join_sep]. apply Clean_two; [done|].
  assert (has_sep (TrimSuffix seg ".csv" +:+ "-" +:+ today +:+ ".csv") = false) as Hs.
  { rewrite !has_sep_app, Ht, has_sep_TrimSuffix; [done|]. by eapply final_segment_no_sep. }
  split; [done|]. apply length_3_real. rewrite !length_app'. simpl. lia.
Qed.

(* ----------------------------------------------------------------- *)
(** ** The schedules of the pool *)

Lemma first_busy_lookup ws i j p :
  Sched.first_busy ws = Some (i, j, p) → ws !! i = Some (WBusy j p).
Proof.
  revert i. induction ws as [|x ws IH]; intros i; cbn; [done|].
  destruct x as [|j0 p0|].
  - destruct (Sched.first_busy ws) as [[[i0 j1] p1]|]; cbn; [|done].
    intros [= <- <- <-]. by apply IH.
  - by intros [= <- <- <-].
  - destruct (Sched.first_busy ws) as [[[i0 j1] p1]|]; cbn; [|done].
    intros [= <- <- <-]. by apply IH.
Qed.

Lemma first_idle_lookup ws i :
  Sched.first_idle ws = Some i → ws !! i = Some WIdle.
Proof.
  revert i. induction ws as [|x ws IH]; intros i; cbn; [done|].
  destruct x as [|j0 p0|].
  - by intros [= <-].
  - destruct (Sched.first_idle ws) as [i0|]; cbn; [|done].
    intros [= <-]. by apply IH.
  - destruct (Sched.first_idle ws) as [i0|]; cbn; [|done].
    intros [= <-]. by apply IH.
Qed.

Lemma all_exited_Forall ws :
  Sched.all_exited ws = true → Forall (λ x, x = WExited) ws.
Proof.
  induction ws as [|x ws IH]; cbn; [done|].
  destruct x; try done. intros H. constructor; auto.
Qed.

(** Every step of the schedules is a step of the process. *)
Lemma next_main_step today c we s s' :
  exit s = None → Sched.next_main c we s = Some s' → step today c we s s'.
Proof.
  intros He. unfold Sched.next_main.
  destruct (disp s) as [[|[d [|]|j] ops]| |] eqn:Hd.
  - intros [= <-]. by apply step_close.
  - intros [= <-]. by eapply step_mkdir_ok.
  - intros [= <-]. by eapply step_mkdir_fatal.
  - destruct (decide _); [|done]. intros [= <-]. by eapply step_send.
  - destruct (Sched.all_exited (workers s)) eqn:Hall; [|done].
    intros [= <-]. apply step_finish; [done|done|]. by apply all_exited_Forall.
  - done.
Qed.

Lemma next_task_step today c we s s' :
  exit s = None → Sched.next_task s = Some s' → step today c we s s'.
Proof.
  intros He. unfold Sched.next_task.
  destruct (Sched.first_busy (workers s)) as [[[i j] p]|] eqn:Hb; [|done].
  apply first_busy_lookup in Hb. cbn.
  destruct p as [x|l k|u k|u e k|k|n r k|td tp k|cn cb k|ro rn k|cp ct k|rp k].
  4:{ destruct (nilmap s) eqn:Hn; intros [= <-].
      - by eapply step_panic.
      - eapply step_work; [done|done|done|]. by rewrite Hn. }
  1:{ intros [= <-]. by eapply step_done. }
  all: destruct (step_prog _ _ _) as [[p' w']|] eqn:Hs; [|done];
    cbn; intros [= <-]; by eapply step_work.
Qed.

Lemma next_idle_step today c we s s' :
  exit s = None → Sched.next_idle today s = Some s' → step today c we s s'.
Proof.
  intros He. unfold Sched.next_idle.
  destruct (Sched.first_idle (workers s)) as [i|] eqn:Hi; [|done].
  apply first_idle_lookup in Hi. cbn.
  destruct (tasks s) as [|j q] eqn:Hq.
  - destruct (closed s) eqn:Hc; [|done]. intros [= <-]. by apply step_return.
  - intros [= <-]. by eapply step_recv.
Qed.

Lemma next_step today c we s s' :
  Sched.next today c we s = Some s' → step today c we s s'.
Proof.
  unfold Sched.next. destruct (exit s) eqn:He; [done|].
  destruct (Sched.next_task s) eqn:H1.
  { intros [= <-]. by apply next_task_step. }
  destruct (Sched.next_idle today s) eqn:H2.
  { intros [= <-]. by eapply next_idle_step. }
  by apply next_main_step.
Qed.

Lemma next_eager_step today c we s s' :
  Sched.next_eager today c we s = Some s' → step today c we s s'.
Proof.
  unfold Sched.next_eager. destruct (exit s) eqn:He; [done|].
  destruct (Sched.next_main c we s) eqn:H1.
  { intros [= <-]. by eapply next_main_step. }
  destruct (Sched.next_idle today s) eqn:H2.
  { intros [= <-]. by eapply next_idle_step. }
  by apply next_task_step.
Qed.

Lemma drive_rtc today c we next n s :
  (∀ s1 s2, next s1 = Some s2 → step today c we s1 s2) →
  rtc (step today c we) s (Sched.drive next n s).
Proof.
  intros Hn. revert s. induction n as [|n IH]; intros s; cbn; [done|].
  destruct (next s) as [s'|] eqn:Hs; [|done].
  eapply rtc_l; [by apply Hn|apply IH].
Qed.

(** The states of the schedules are states of runs. *)
Lemma run_pool_reachable n i : reachable i (Sched.run_pool n i).
Proof. apply drive_rtc. intros s1 s2. apply next_step. Qed.

Lemma run_eager_reachable n i : reachable i (Sched.run_eager n i).
Proof. apply drive_rtc. intros s1 s2. apply next_eager_step. Qed.

(* ----------------------------------------------------------------- *)
(** ** Main theorems *)


Lemma scenario_no_fatal : no_fatal Scenario.input Scenario.catalog.
Proof.
  split_and!; try reflexivity.
  - exists ∅. vm_compute. reflexivity.
  - repeat constructor.
Qed.



(** C2, the requests of one task.  [fetchOne] sends the request of the
    task once, and sends nothing when [http.NewRequest] fails: it
    never sends a second request.  The loop body of [main.go] sends
    the same request and, when the first answer has the status 200,
    sends it a second time. *)
Theorem requests_of_a_task env d u today w :
  sent (run env (Pool.fetchOne env d u today) w).1
  = sent w ++ option_list (task_request env w u)
  ∧ sent (run env (Seq.fetchBody env d u today) w).1
    = sent w ++ option_list (task_request env w u)
      ++ match first_response env w u with
         | Some resp =>
             if decide (StatusCode resp = StatusOK)
             then option_list (task_request env w u) else []
         | None => []
         end.
Proof.
  unfold task_request, first_response. split.
  - exec_pool env d u today w; by rewrite ?app_nil_r.
  - exec_seq env d u today w; rewrite ?app_nil_r; try done.
    all: try (rewrite decide_False by (unfold StatusNotModified, StatusOK in *; congruence));
      try (rewrite decide_True by (by apply dec_stable));
      rewrite ?app_nil_r, <- ?app_assoc; try done.
Qed.

(** C2, the run that the claim leaves out.  [main.go] sends a second
    request after a 200: for the scenario of the specification its
    loop body sends the request twice, where [fetchOne] sends it
    once. *)
Theorem main_go_sends_second_request :
  let req := {| Method := "GET"; URL := Scenario.data_url; ReqHeader := ∅ |} in
  sent (run Scenario.good_env
          (Seq.fetchBody Scenario.good_env "stationA" Scenario.data_url
             "2025-06-02") Scenario.empty_world).1 = [req; req]
  ∧ sent (run Scenario.good_env
            (Pool.fetchOne Scenario.good_env "stationA" Scenario.data_url
               "2025-06-02") Scenario.empty_world).1 = [req].
Proof. split; vm_compute; reflexivity. Qed.

(** C3. [main.go] writes the new values into the old entry: after a
    200 without validators the entry of the URL is still the one of
    the earlier run, where [fetchOne] stores the empty entry. *)
Theorem main_go_keeps_prior_fields :
  let w_seq :=
    (run (Scenario.env_headers ∅)
       (Seq.fetchBody (Scenario.env_headers ∅) "stationA" Scenario.data_url
          "2025-06-02") Scenario.later_world).1 in
  let w_pool :=
    (run (Scenario.env_headers ∅)
       (Pool.fetchOne (Scenario.env_headers ∅) "stationA" Scenario.data_url
          "2025-06-02") Scenario.later_world).1 in
  metadata Scenario.later_world !! Scenario.data_url = Some Scenario.prior
  ∧ metadata w_seq !! Scenario.data_url = Some Scenario.prior
  ∧ metadata w_pool !! Scenario.data_url = Some zero_entry
  ∧ is_Some (fs w_seq !! "stationA/data-2025-06-02.csv")
  ∧ is_Some (fs w_pool !! "stationA/data-2025-06-02.csv").
Proof. cbv zeta. split_and!; vm_compute; try reflexivity; by eexists. Qed.

(** C4. A task whose copy of the body fails leaves the files as they
    were before it, the temporary file gone and the destination never
    touched on the way, and it reports the failure: in the pool, where
    the flag is set for the error that [fetchOne] returns, and in
    [main.go]. *)
Theorem copy_failure_leaves_destination env d u today w :
  (copy_failed (history env (worker_task env today {| dir := d; url := u |}) w)
   = true →
   let '(w', r) := run env (worker_task env today {| dir := d; url := u |}) w in
   fs w' = fs w ∧ r = Some ErrCopy ∧ hadError w' = true
   ∧ Forall (λ ew, fs ew.2 !! outPathOf d u today = fs w !! outPathOf d u today)
       (history env (worker_task env today {| dir := d; url := u |}) w))
  ∧ (copy_failed (history env (Seq.fetchBody env d u today) w) = true →
     let '(w', o) := run env (Seq.fetchBody env d u today) w in
     fs w' = fs w ∧ o = Seq.Failed ErrCopy ∧ hadError w' = true
     ∧ Forall (λ ew, fs ew.2 !! outPathOf d u today = fs w !! outPathOf d u today)
         (history env (Seq.fetchBody env d u today) w)).
Proof. split; [apply copy_failure_pool|apply copy_failure_seq]. Qed.

Lemma copy_failure_leaves_destination_witness :
  let t := {| dir := "stationA"; url := Scenario.data_url |} in
  copy_failed (history Scenario.env_truncated
                 (worker_task Scenario.env_truncated "2025-06-02" t)
                 Scenario.empty_world) = true
  ∧ fs (run Scenario.env_truncated
          (worker_task Scenario.env_truncated "2025-06-02" t)
          Scenario.empty_world).1 = fs Scenario.empty_world
  ∧ copy_failed (history Scenario.env_truncated
                   (Seq.fetchBody Scenario.env_truncated "stationA"
                      Scenario.data_url "2025-06-02")
                   Scenario.empty_world) = true
  ∧ fs (run Scenario.env_truncated
          (Seq.fetchBody Scenario.env_truncated "stationA"
             Scenario.data_url "2025-06-02")
          Scenario.empty_world).1 = fs Scenario.empty_world.
Proof.
  cbv zeta.
  destruct (copy_failure_leaves_destination Scenario.env_truncated "stationA"
              Scenario.data_url "2025-06-02" Scenario.empty_world) as [Hp Hs].
  assert (copy_failed (history Scenario.env_truncated
                 (worker_task Scenario.env_truncated "2025-06-02"
                    {| dir := "stationA"; url := Scenario.data_url |})
                 Scenario.empty_world) = true) as H1 by (vm_compute; reflexivity).
  assert (copy_failed (history Scenario.env_truncated
                   (Seq.fetchBody Scenario.env_truncated "stationA"
                      Scenario.data_url "2025-06-02")
                   Scenario.empty_world) = true) as H2 by (vm_compute; reflexivity).
  specialize (Hp H1). specialize (Hs H2).
  destruct (run Scenario.env_truncated (worker_task _ _ _) _) as [w1 r1].
  destruct (run Scenario.env_truncated (Seq.fetchBody _ _ _ _) _) as [w2 o2].
  split_and!; [exact H1|apply Hp|exact H2|apply Hs].
Defined.

(** C5. The metadata map changes only behind a rename: at the end of
    [main.go] and in every state of the pool, a URL whose entry is not
    the one read at the start has a file renamed to its destination;
    and one task either leaves the map as it was, or it reports no
    error after a 200, has renamed the download to the destination and
    has set the entry of its URL, once.  The nil map of a null
    document has no entry at the start and gets none. *)
Theorem stores_only_after_rename i cat md0 :
  in_sources i = Some cat →
  readMetadata (in_codec i) (in_open_ok i) (in_files i) = Some md0 →
  stores_follow_renames (Format_2006_01_02 (in_today i)) (map_of md0)
    (Seq.final (Seq.main i))
  ∧ (∀ s, reachable i s →
       stores_follow_renames (Format_2006_01_02 (in_today i)) (map_of md0)
         (world s))
  ∧ (∀ env d u today w,
       let h := history env (Pool.fetchOne env d u today) w in
       let '(w', r) := run env (Pool.fetchOne env d u today) w in
       (stored h = [] ∧ metadata w' = metadata w ∧ moved w' = moved w)
       ∨ (r = None
          ∧ (∃ resp, first_response env w u = Some resp
                     ∧ StatusCode resp = StatusOK)
          ∧ ∃ e name, stored h = [(u, e)]
              ∧ metadata w' = <[u := e]> (metadata w)
              ∧ moved w' = moved w ++ [(name, outPathOf d u today)]
              ∧ is_Some (fs w' !! outPathOf d u today)))
  ∧ (∀ env d u today w,
       let h := history env (Seq.fetchBody env d u today) w in
       let '(w', o) := run env (Seq.fetchBody env d u today) w in
       (o ≠ Seq.Fetched ∧ stored h = [] ∧ metadata w' = metadata w
        ∧ moved w' = moved w)
       ∨ (o = Seq.Fetched
          ∧ ∃ e name, stored h = [(u, e)]
              ∧ metadata w' = <[u := e]> (metadata w)
              ∧ moved w' = moved w ++ [(name, outPathOf d u today)]
              ∧ is_Some (fs w' !! outPathOf d u today))).
Proof.
  intros Hsrc Hrd. split_and!.
  - by eapply seq_stores_follow_renames.
  - intros s Hr. by eapply pool_stores_follow_renames.
  - intros env d u today w. pose proof (pool_effect env d u today w) as H.
    cbv zeta in *. destruct (run env (Pool.fetchOne env d u today) w) as [w' r].
    destruct H as [([] & _)|(resp & H1 & H2 & -> & [])]; [by left|right].
    split; [done|]. split; [by exists resp|].
    destruct dl_moved0 as (name & _ & Hmv).
    exists (header_entry env resp), name. split_and!; try done.
    rewrite dl_fs0, lookup_insert_eq. by eexists.
  - intros env d u today w. pose proof (seq_effect env d u today w) as H.
    cbv zeta in *. destruct (run env (Seq.fetchBody env d u today) w) as [w' o].
    destruct H as [([] & Ho & _)|(resp0 & resp & req & _ & _ & _ & _ & -> & [])];
      [by left|right].
    split; [done|]. destruct dl_moved0 as (name & _ & Hmv).
    exists (merged_entry env (map_index (metadata w) u) resp), name.
    split_and!; try done. rewrite dl_fs0, lookup_insert_eq. by eexists.
Qed.

Lemma stores_only_after_rename_witness :
  in_sources Scenario.input = Some Scenario.catalog
  ∧ readMetadata (in_codec Scenario.input) (in_open_ok Scenario.input)
      (in_files Scenario.input) = Some (Loaded ∅)
  ∧ stores_follow_renames "2025-06-02" ∅ (Seq.final (Seq.main Scenario.input)).
Proof.
  assert (in_sources Scenario.input = Some Scenario.catalog) as H1 by reflexivity.
  assert (readMetadata (in_codec Scenario.input) (in_open_ok Scenario.input)
            (in_files Scenario.input) = Some (Loaded ∅)) as H2
    by (vm_compute; reflexivity).
  split_and!; [exact H1|exact H2|].
  exact (proj1 (stores_only_after_rename Scenario.input Scenario.catalog
                  (Loaded ∅) H1 H2)).
Defined.

(** C6. A task whose request is answered 304 does nothing: the files,
    the metadata map and the error flag are as before, and the task
    reports no error ([fetchOne]) or goes to the next URL ([main.go]). *)
Theorem not_modified_is_noop env d u today w resp :
  first_response env w u = Some resp →
  StatusCode resp = StatusNotModified →
  (let '(w', r) := run env (Pool.fetchOne env d u today) w in
   fs w' = fs w ∧ metadata w' = metadata w ∧ hadError w' = hadError w ∧ r = None)
  ∧ (let '(w', o) := run env (Seq.fetchBody env d u today) w in
     fs w' = fs w ∧ metadata w' = metadata w ∧ hadError w' = hadError w
     ∧ o = Seq.Unchanged).
Proof. apply not_modified_effect. Qed.

Lemma not_modified_is_noop_witness :
  first_response Scenario.good_env Scenario.later_world Scenario.data_url
  = Some (Scenario.response 304 ∅)
  ∧ fs (run Scenario.good_env
          (Pool.fetchOne Scenario.good_env "stationA" Scenario.data_url
             "2025-06-03") Scenario.later_world).1 = fs Scenario.later_world
  ∧ metadata (run Scenario.good_env
          (Seq.fetchBody Scenario.good_env "stationA" Scenario.data_url
             "2025-06-03") Scenario.later_world).1
    = metadata Scenario.later_world.
Proof.
  assert (first_response Scenario.good_env Scenario.later_world Scenario.data_url
          = Some (Scenario.response 304 ∅)) as H1 by (vm_compute; reflexivity).
  destruct (not_modified_is_noop Scenario.good_env "stationA" Scenario.data_url
              "2025-06-03" Scenario.later_world _ H1 eq_refl) as [Hp Hs].
  destruct (run Scenario.good_env (Pool.fetchOne _ _ _ _) _) as [w1 r1].
  destruct (run Scenario.good_env (Seq.fetchBody _ _ _ _) _) as [w2 o2].
  split_and!; [exact H1|apply Hp|apply Hs].
Defined.

(** C7. Every request that a task sends is a GET of its URL that has
    If-Modified-Since exactly when the entry of the URL has a
    last_modified, with that value, and If-None-Match exactly when it
    has an etag, with that value, and no other header; a task whose
    request can be built sends one. *)
Theorem conditional_request_headers env d u today w :
  (∃ reqs,
     sent (run env (Pool.fetchOne env d u today) w).1 = sent w ++ reqs
     ∧ (new_request_ok env u = true → reqs ≠ [])
     ∧ Forall (carries_conditionals (map_index (metadata w) u) u) reqs)
  ∧ (∃ reqs,
       sent (run env (Seq.fetchBody env d u today) w).1 = sent w ++ reqs
       ∧ (new_request_ok env u = true → reqs ≠ [])
       ∧ Forall (carries_conditionals (map_index (metadata w) u) u) reqs).
Proof.
  split.
  - destruct (pool_requests env d u today w) as (reqs & H1 & H2 & H3 & H4).
    exists reqs. split_and!; [done| |done].
    intros Hok ->. specialize (H3 Hok). done.
  - destruct (seq_requests env d u today w) as (reqs & H1 & H2 & H3 & H4 & H5).
    exists reqs. split_and!; [done| |done].
    intros Hok ->. specialize (H4 Hok). cbn in H4. lia.
Qed.

Lemma conditional_request_headers_witness :
  new_request_ok Scenario.good_env Scenario.data_url = true
  ∧ ∃ reqs,
      sent (run Scenario.good_env
              (Pool.fetchOne Scenario.good_env "stationA" Scenario.data_url
                 "2025-06-03") Scenario.later_world).1
      = sent Scenario.later_world ++ reqs
      ∧ reqs ≠ []
      ∧ Forall (carries_conditionals Scenario.prior Scenario.data_url) reqs.
Proof.
  split; [reflexivity|].
  destruct (conditional_request_headers Scenario.good_env "stationA"
              Scenario.data_url "2025-06-03" Scenario.later_world)
    as [(reqs & H1 & H2 & H3) _].
  exists reqs. split_and!; [exact H1|apply H2; reflexivity|exact H3].
Defined.

(** C8. The destination of a task is a function of the directory, the
    URL and the date of the run: [Base] of the URL is its final path
    segment, the date is written YYYY-MM-DD, and in a directory with a
    plain name the destination is the directory, a slash, the segment
    without its [.csv] suffix, a hyphen, the date and [.csv].  Two
    dates give two destinations, and a task that downloads puts the
    file at the destination, over the file of an earlier run of the
    day, and changes no other path. *)
Theorem destination_naming d u seg t :
  valid_date t →
  final_segment u = Some seg →
  let today := Format_2006_01_02 t in
  Base u = seg
  ∧ is_stamp_of t today
  ∧ outPathOf d u today
    = Join [d; TrimSuffix seg ".csv" +:+ "-" +:+ today +:+ ".csv"]
  ∧ (∀ stem, seg = stem +:+ ".csv" → TrimSuffix seg ".csv" = stem)
  ∧ (HasSuffix seg ".csv" = false → TrimSuffix seg ".csv" = seg)
  ∧ (plain d →
     outPathOf d u today
     = d +:+ "/" +:+ TrimSuffix seg ".csv" +:+ "-" +:+ today +:+ ".csv")
  ∧ (∀ t', valid_date t' →
       outPathOf d u (Format_2006_01_02 t') = outPathOf d u today → t' = t)
  ∧ (∀ env w,
       let '(w', r) := run env (Pool.fetchOne env d u today) w in
       fs w' = fs w ∨ ∃ f, fs w' = <[outPathOf d u today := f]> (fs w))
  ∧ (∀ env w,
       let '(w', o) := run env (Seq.fetchBody env d u today) w in
       o = Seq.Fetched → ∃ f, fs w' = <[outPathOf d u today := f]> (fs w)).
Proof.
  intros Ht Hseg today. pose proof (Base_final_segment _ _ Hseg) as Hb.
  split_and!.
  - done.
  - by apply Format_is_stamp.
  - unfold outPathOf. by rewrite Hb.
  - intros stem ->. apply TrimSuffix_app.
  - apply TrimSuffix_false.
  - intros Hd. apply outPathOf_plain; [done|done|].
    eapply stamp_no_sep. by apply Format_is_stamp.
  - intros t' Ht' Heq. by eapply outPathOf_inj_date.
  - intros env w. pose proof (pool_effect env d u today w) as H. cbv zeta in H.
    destruct (run env (Pool.fetchOne env d u today) w) as [w' r].
    destruct H as [(_ & Hfs & _)|(resp & _ & _ & _ & [])]; [by left|right].
    by eexists.
  - intros env w. pose proof (seq_effect env d u today w) as H. cbv zeta in H.
    destruct (run env (Seq.fetchBody env d u today) w) as [w' o].
    destruct H as [(_ & Hne & _)|(resp0 & resp & req & _ & _ & _ & _ & _ & [])];
      intros Ho; [done|]. by eexists.
Qed.

Lemma destination_naming_witness :
  valid_date Scenario.today
  ∧ final_segment Scenario.data_url = Some "data.csv"
  ∧ outPathOf "stationA" Scenario.data_url (Format_2006_01_02 Scenario.today)
    = "stationA/data-2025-06-02.csv".
Proof.
  assert (valid_date Scenario.today) as H1 by (unfold valid_date; cbn; lia).
  assert (final_segment Scenario.data_url = Some "data.csv") as H2
    by (vm_compute; reflexivity).
  split_and!; [exact H1|exact H2|].
  destruct (destination_naming "stationA" Scenario.data_url "data.csv"
              Scenario.today H1 H2) as (_ & _ & _ & Hstem & _ & Hplain & _).
  rewrite Hplain.
  - rewrite (Hstem "data" eq_refl). vm_compute. reflexivity.
  - unfold plain. split_and!; [reflexivity|discriminate|discriminate|discriminate].
Defined.




(** C10. After a 200 whose Last-Modified is no HTTP date [main.go]
    keeps the last_modified of the earlier run in the entry, where
    [fetchOne] leaves it empty; both record the ETag, leave the time
    of the file alone and count the task as done. *)
Theorem main_go_keeps_prior_last_modified :
  let h : Header := <["Last-Modified" := ["yesterday"]]> (<["Etag" := ["v2"]]> ∅) in
  let env := Scenario.env_headers h in
  let seq := run env (Seq.fetchBody env "stationA" Scenario.data_url "2025-06-03")
               Scenario.later_world in
  let pool := run env (Pool.fetchOne env "stationA" Scenario.data_url "2025-06-03")
                Scenario.later_world in
  parse_time env "yesterday" = None
  ∧ metadata Scenario.later_world !! Scenario.data_url
    = Some {| LastModified := Scenario.stamp; ETag := "v1" |}
  ∧ seq.2 = Seq.Fetched
  ∧ metadata seq.1 !! Scenario.data_url
    = Some {| LastModified := Scenario.stamp; ETag := "v2" |}
  ∧ mtime <$> fs seq.1 !! "stationA/data-2025-06-03.csv" = Some (now env)
  ∧ pool.2 = None
  ∧ metadata pool.1 !! Scenario.data_url
    = Some {| LastModified := ""; ETag := "v2" |}
  ∧ mtime <$> fs pool.1 !! "stationA/data-2025-06-03.csv" = Some (now env).
Proof. cbv zeta. split_and!; vm_compute; reflexivity. Qed.

(* ----------------------------------------------------------------- *)
(** ** The tool for the unknown directories *)

(** [knownDirs] has the keys of the catalog, each with [true]. *)
Lemma knownDirs_lookup (ds : Unknown.DataSources) name :
  Unknown.knownDirs ds !! name = (λ _, true) <$> ds !! name.
Proof.
  unfold Unknown.knownDirs.
  apply (map_fold_weak_ind
           (λ (known : gmap string bool) (m : Unknown.DataSources),
              known !! name = (λ _, true) <$> m !! name)).
  - by rewrite !lookup_empty.
  - intros dir urls m known Hm IH. destruct (decide (dir = name)) as [->|Hne].
    + by rewrite !lookup_insert_eq.
    + by rewrite !lookup_insert_ne.
Qed.

Lemma knownDirs_index (ds : Unknown.DataSources) name :
  Unknown.known_index (Unknown.knownDirs ds) name = bool_decide (is_Some (ds !! name)).
Proof.
  unfold Unknown.known_index. rewrite knownDirs_lookup.
  by destruct (ds !! name).
Qed.

Ltac scan_step :=
  cbn [Unknown.scan Unknown.IsDir Unknown.Name fmap list_fmap orb negb].

Lemma scan_elem known es n :
  n ∈ Unknown.scan known es
  ↔ {| Unknown.Name := n; Unknown.IsDir := true |} ∈ es
    ∧ HasPrefix n "." = false ∧ n ≠ "closed-stations"
    ∧ Unknown.known_index known n = false.
Proof.
  induction es as [|[name isdir] es IH]; scan_step.
  - split; [by intros ?%elem_of_nil|by intros [?%elem_of_nil _]].
  - assert (n ∈ Unknown.scan known es
            ↔ n ∈ Unknown.scan known es
              ∨ ((isdir = true ∧ name = n) ∧ HasPrefix n "." = false
                 ∧ n ≠ "closed-stations" ∧ Unknown.known_index known n = false)
            → n ∈ Unknown.scan known es
              ↔ {| Unknown.Name := n; Unknown.IsDir := true |}
                ∈ {| Unknown.Name := name; Unknown.IsDir := isdir |} :: es
                ∧ HasPrefix n "." = false ∧ n ≠ "closed-stations"
                ∧ Unknown.known_index known n = false) as Hskip.
    { intros H. rewrite H, IH, elem_of_cons. split.
      - intros [(? & ? & ? & ?)|([-> ->] & ? & ? & ?)]; split_and!; auto.
      - intros ([Heq|?] & ? & ? & ?); [right|left]; split_and!; auto;
          by injection Heq. }
    destruct isdir; scan_step.
    + destruct (HasPrefix name ".") eqn:Hp; scan_step.
      { apply Hskip. split; [by left|]. intros [?|([_ ->] & ? & _)]; [done|congruence]. }
      destruct (String.eqb name "closed-stations") eqn:Hc; scan_step.
      { apply String.eqb_eq in Hc as ->. apply Hskip. split; [by left|].
        intros [?|([_ <-] & _ & ? & _)]; done. }
      apply String.eqb_neq in Hc.
      destruct (Unknown.known_index known name) eqn:Hk; scan_step.
      { apply Hskip. split; [by left|].
        intros [?|([_ ->] & _ & _ & ?)]; [done|congruence]. }
      rewrite !elem_of_cons, IH. split.
      * intros [->|(? & ? & ? & ?)]; split_and!; auto.
      * intros ([Heq|?] & ? & ? & ?); [left; by injection Heq|right; done].
    + apply Hskip. split; [by left|]. intros [?|([? _] & _)]; done.
Qed.

Lemma scan_sublist known es : Unknown.scan known es `sublist_of` (Unknown.Name <$> es).
Proof.
  induction es as [|[name isdir] es IH]; scan_step; [done|].
  destruct isdir; scan_step; [|by apply sublist_cons].
  destruct (HasPrefix name "." || String.eqb name "closed-stations");
    [by apply sublist_cons|].
  destruct (Unknown.known_index known name); scan_step;
    [by apply sublist_cons|by apply sublist_skip].
Qed.

Lemma scan_more (ds more : Unknown.DataSources) es :
  Unknown.scan (Unknown.knownDirs (ds ∪ more)) es
  = filter (λ n, more !! n = None) (Unknown.scan (Unknown.knownDirs ds) es).
Proof.
  induction es as [|[name isdir] es IH]; cbn [Unknown.scan Unknown.IsDir Unknown.Name];
    [done|].
  destruct isdir; [|done].
  destruct (HasPrefix name "." || String.eqb name "closed-stations"); [done|].
  rewrite !knownDirs_index.
  destruct (ds !! name) as [urls|] eqn:Hds.
  - rewrite (bool_decide_eq_true_2 (is_Some (Some urls))) by by eexists.
    rewrite bool_decide_eq_true_2; [done|].
    exists urls. by apply lookup_union_Some_l.
  - rewrite (bool_decide_eq_false_2 (is_Some None)) by (intros [? ?]; done).
    cbn [negb].
    destruct (more !! name) as [urls|] eqn:Hm.
    + rewrite bool_decide_eq_true_2.
      2:{ exists urls. rewrite lookup_union_r; done. }
      cbn [negb]. rewrite filter_cons_False; [done|]. by rewrite Hm.
    + rewrite bool_decide_eq_false_2.
      2:{ intros [x Hx]. apply lookup_union_Some_raw in Hx as [?|[_ ?]]; congruence. }
      cbn [negb]. rewrite filter_cons_True by done. by rewrite IH.
Qed.

(** X1. The tool prints the names of the directories of the working
    directory that are not hidden, are not [closed-stations] and are no
    key of [data-sources.yaml], these and no others, in the order of
    the directory, and exits with status 0; it prints no file. *)
Theorem unknown_dirs_listed (ds : Unknown.DataSources) es :
  let '(out, code) := Unknown.main (Some ds) (Some es) in
  code = 0
  ∧ out `sublist_of` (Unknown.Name <$> es)
  ∧ ∀ n, n ∈ out
         ↔ {| Unknown.Name := n; Unknown.IsDir := true |} ∈ es
           ∧ HasPrefix n "." = false ∧ n ≠ "closed-stations"
           ∧ ds !! n = None.
Proof.
  cbn [Unknown.main]. split_and!; [done|apply scan_sublist|].
  intros n. rewrite scan_elem, knownDirs_index.
  destruct (ds !! n) as [urls|].
  - rewrite bool_decide_eq_true_2 by by eexists.
    split; intros (? & ? & ? & ?); done.
  - rewrite bool_decide_eq_false_2 by (intros [? ?]; done).
    split; intros (? & ? & ? & ?); split_and!; done.
Qed.

(** X2. Keys added to [data-sources.yaml] take their names out of the
    list and change nothing else of it; once every name that was
    listed is a key, the tool prints nothing. *)
Theorem unknown_dirs_after_adding (ds more : Unknown.DataSources) es :
  (Unknown.main (Some (ds ∪ more)) (Some es)).1
  = filter (λ n, more !! n = None) (Unknown.main (Some ds) (Some es)).1
  ∧ ((∀ n, n ∈ (Unknown.main (Some ds) (Some es)).1 → is_Some (more !! n)) →
     (Unknown.main (Some (ds ∪ more)) (Some es)).1 = []).
Proof.
  cbn [Unknown.main fst]. split; [apply scan_more|]. intros Hall. rewrite scan_more.
  induction (Unknown.scan (Unknown.knownDirs ds) es) as [|n out IH]; [done|].
  rewrite filter_cons_False.
  - apply IH. intros n' Hn'. apply Hall. by right.
  - destruct (Hall n) as [x Hx]; [by left|]. by rewrite Hx.
Qed.

Lemma unknown_dirs_after_adding_witness :
  (Unknown.main (Some Unknown.sources) (Some Unknown.listing)).1 = ["stationB"]
  ∧ (Unknown.main (Some (Unknown.sources ∪ {[ "stationB" := [] ]}))
       (Some Unknown.listing)).1 = [].
Proof.
  split; [vm_compute; reflexivity|].
  apply (proj2 (unknown_dirs_after_adding Unknown.sources {[ "stationB" := [] ]}
                  Unknown.listing)).
  intros n Hn. vm_compute in Hn. apply list_elem_of_singleton in Hn as ->.
  vm_compute. by eexists.
Defined.

(* ----------------------------------------------------------------- *)
(** ** The error paths of a task *)

Lemma temp_name_intro env d w0 w' name :
  do_create_temp env d "tmp" w0 = (w', Some name) →
  ∀ w, fs w = fs w0 → Faults.temp_name env d w = Some name.
Proof.
  unfold do_create_temp, Faults.temp_name. intros H w ->.
  destruct (create_temp_ok env); [|done].
  destruct (create_temp_try _ _ _ _ _) as [n|]; [|done]. by injection H as <- <-.
Qed.

(** The last character of a temporary name is a digit. *)
Lemma temp_name_last prefix r P c :
  prefix +:+ nextRandom r = P +:+ String c "" → ∃ d, (d < 10)%N ∧ c = digit d.
Proof.
  unfold nextRandom. destruct (uitoa_last (r mod 2 ^ 32)%N) as (pre & d & Hd & ->).
  rewrite <- !app_assoc'. intros [_ H]%snoc_inj. eauto.
Qed.

Lemma digit_range d : (d < 10)%N → (48 ≤ N_of_ascii (digit d) < 58)%N.
Proof. intros Hd. unfold digit. rewrite N_ascii_embedding by lia. lia. Qed.

Lemma temp_name_not_own env d w name :
  Faults.temp_name env d w = Some name → name ∉ Faults.own_files.
Proof.
  unfold Faults.temp_name. intros Ht.
  apply create_temp_try_spec in Ht as [_ [j ->]].
  unfold Faults.own_files, metadataFile, dataSourcesFile.
  intros Hin. repeat (apply elem_of_cons in Hin as [Hin|Hin]);
    [| | |by apply elem_of_nil in Hin].
  - change ".metadata.yaml" with (".metadata.yam" +:+ String "l" "") in Hin.
    apply temp_name_last in Hin as (dg & Hd & Hc). apply digit_range in Hd.
    rewrite <- Hc in Hd. cbn in Hd. lia.
  - change (".metadata.yaml" +:+ ".tmp") with (".metadata.yaml.tm" +:+ String "p" "") in Hin.
    apply temp_name_last in Hin as (dg & Hd & Hc). apply digit_range in Hd.
    rewrite <- Hc in Hd. cbn in Hd. lia.
  - change "data-sources.yaml" with ("data-sources.yam" +:+ String "l" "") in Hin.
    apply temp_name_last in Hin as (dg & Hd & Hc). apply digit_range in Hd.
    rewrite <- Hc in Hd. cbn in Hd. lia.
Qed.

Lemma outPath_not_own d u today : outPathOf d u today ∉ Faults.own_files.
Proof.
  destruct (outPathOf_csv d u today) as [P ->].
  unfold Faults.own_files, metadataFile, dataSourcesFile.
  change ".csv" with (".cs" +:+ String "v" ""). rewrite <- app_assoc'.
  intros Hin. repeat (apply elem_of_cons in Hin as [Hin|Hin]);
    [| | |by apply elem_of_nil in Hin].
  - change ".metadata.yaml" with (".metadata.yam" +:+ String "l" "") in Hin.
    by apply snoc_inj in Hin as [_ ?].
  - change (".metadata.yaml" +:+ ".tmp") with (".metadata.yaml.tm" +:+ String "p" "") in Hin.
    by apply snoc_inj in Hin as [_ ?].
  - change "data-sources.yaml" with ("data-sources.yam" +:+ String "l" "") in Hin.
    by apply snoc_inj in Hin as [_ ?].
Qed.

(** Symbolic execution that keeps the name of the temporary file. *)
Ltac run_temp env d u today w resp :=
  let w1 := fresh "w1" in
  let name := fresh "name" in
  let Hct := fresh "Hct" in
  let Hne := fresh "Hne" in
  let Hfresh := fresh "Hfresh" in
  let Htn := fresh "Htn" in
  destruct (do_create_temp env d "tmp" _) as [w1 [name|]] eqn:Hct; cbn;
  [pose proof (temp_not_outPath _ _ _ _ _ _ u today Hct) as Hne;
   pose proof (temp_name_intro _ _ _ _ _ Hct w eq_refl) as Htn;
   apply do_create_temp_some in Hct as (Hfresh & -> & _); cbn in Hfresh;
   exec_tail env d u today resp name
  |apply do_create_temp_none in Hct as ->; cbn].

Ltac run_seq env d u today w :=
  unfold Seq.fetchBody, Seq.fail; cbn;
  destruct (NewRequest env "GET" u) as [req|] eqn:Hreq; cbn;
  [destruct (server env 0 (conditional (map_index (metadata w) u) req))
     as [resp0|] eqn:Hresp0; cbn;
   [destruct (decide (StatusCode resp0 = StatusNotModified)) as [H304|H304]; cbn;
    [|destruct (decide (StatusCode resp0 ≠ StatusOK)) as [H200|H200]; cbn;
      [|destruct (server env 1 (conditional (map_index (metadata w) u) req))
          as [resp|] eqn:Hresp; cbn;
        [run_temp env d u today w resp|]]]
   |]
  |].

Lemma leaked_fs (m : gmap string File) name f0 f :
  alter (λ _, f) name (<[name := f0]> m) = <[name := f]> m.
Proof.
  apply map_eq. intros i. destruct (decide (i = name)) as [->|Hne].
  - by rewrite lookup_alter_eq, !lookup_insert_eq.
  - by rewrite lookup_alter_ne, !lookup_insert_ne.
Qed.

(** What the loop body of [main.go] does to the files, by the way it
    ends. *)
Lemma seq_fs_cases env d u today w :
  let '(w', o) := run env (Seq.fetchBody env d u today) w in
  (o ≠ Seq.Fetched ∧ o ≠ Seq.Failed ErrRename ∧ fs w' = fs w)
  ∨ (o = Seq.Fetched ∧ ∃ f, fs w' = <[outPathOf d u today := f]> (fs w))
  ∨ (o = Seq.Failed ErrRename
     ∧ ∃ name resp, Faults.temp_name env d w = Some name
         ∧ fs w !! name = None
         ∧ server env 1 (conditional (map_index (metadata w) u)
                           {| Method := "GET"; URL := u; ReqHeader := ∅ |})
           = Some resp
         ∧ fs w' = <[name := {| content := Body resp; mtime := now env |}]> (fs w)).
Proof.
  assert (∀ req, NewRequest env "GET" u = Some req
                 → req = {| Method := "GET"; URL := u; ReqHeader := ∅ |}) as Hnr.
  { unfold NewRequest. intros req. destruct (new_request_ok env u); congruence. }
  run_seq env d u today w; try (specialize (Hnr _ eq_refl); subst req).
  all: try solve [left; split_and!; try done; by apply delete_alter_insert].
  all: try solve [right; left; split; [done|]; eexists;
                  first [by apply renamed_fs
                        |by rewrite (renamed_fs_chtimes _ _ _ _ _ _ _ Hfresh)]].
  right; right; split; [done|]. exists name, resp. split_and!; try done.
  apply leaked_fs.
Qed.

(** X3. A task that fails leaves the metadata map and the renames as
    they were and sets the error flag; after [fetchOne] the files are
    as before too, after the loop body of [main.go] they are unless
    the rename failed. *)
Theorem failed_task_keeps_state env d u today w :
  (let '(w', r) := run env (worker_task env today {| dir := d; url := u |}) w in
   ∀ e, r = Some e →
     fs w' = fs w ∧ metadata w' = metadata w ∧ moved w' = moved w
     ∧ hadError w' = true)
  ∧ (let '(w', o) := run env (Seq.fetchBody env d u today) w in
     ∀ e, o = Seq.Failed e →
       metadata w' = metadata w ∧ moved w' = moved w ∧ hadError w' = true
       ∧ (e ≠ ErrRename → fs w' = fs w)).
Proof.
  split.
  - exec_pool env d u today w; intros e He; try discriminate He.
    all: split_and!; try done; by apply delete_alter_insert.
  - run_seq env d u today w; intros e He; try discriminate He.
    all: split_and!; try done; try (intros _; by apply delete_alter_insert).
    intros Hr. by injection He as <-.
Qed.

Lemma failed_task_keeps_state_witness :
  let env := Scenario.env_truncated in
  let w := Scenario.empty_world in
  (run env (worker_task env "2025-06-02"
              {| dir := "stationA"; url := Scenario.data_url |}) w).2
  = Some ErrCopy
  ∧ metadata (run env (worker_task env "2025-06-02"
                         {| dir := "stationA"; url := Scenario.data_url |}) w).1
    = metadata w.
Proof.
  cbv zeta. split; [vm_compute; reflexivity|].
  destruct (failed_task_keeps_state Scenario.env_truncated "stationA"
              Scenario.data_url "2025-06-02" Scenario.empty_world) as [H _].
  exact (proj1 (proj2 (H ErrCopy eq_refl))).
Defined.

(** X4. When the rename to the destination fails, [fetchOne] removes
    the temporary file and the files are as before; the loop body of
    [main.go] goes on without removing it, and the temporary file
    stays in the directory with the body of the second answer. *)
Theorem rename_failure_leaves_temp env d u today w :
  (Faults.rename_failed (history env (Pool.fetchOne env d u today) w) = true →
   let '(w', r) := run env (Pool.fetchOne env d u today) w in
   r = Some ErrRename ∧ fs w' = fs w ∧ metadata w' = metadata w)
  ∧ (Faults.rename_failed (history env (Seq.fetchBody env d u today) w) = true →
     let '(w', o) := run env (Seq.fetchBody env d u today) w in
     o = Seq.Failed ErrRename ∧ metadata w' = metadata w ∧ hadError w' = true
     ∧ ∃ name resp,
         Faults.temp_name env d w = Some name
         ∧ fs w !! name = None
         ∧ server env 1 (conditional (map_index (metadata w) u)
                           {| Method := "GET"; URL := u; ReqHeader := ∅ |})
           = Some resp
         ∧ fs w' = <[name := {| content := Body resp; mtime := now env |}]> (fs w)).
Proof.
  assert (∀ req, NewRequest env "GET" u = Some req
                 → req = {| Method := "GET"; URL := u; ReqHeader := ∅ |}) as Hnr.
  { unfold NewRequest. intros req. destruct (new_request_ok env u); congruence. }
  split.
  - exec_pool env d u today w; try (intros Hrf; hist_false Hrf).
    intros _. split_and!; try done. by apply delete_alter_insert.
  - run_seq env d u today w; try (specialize (Hnr _ eq_refl); subst req);
      try (intros Hrf; hist_false Hrf).
    intros _. split_and!; try done. exists name, resp. split_and!; try done.
    apply leaked_fs.
Qed.

Lemma rename_failure_leaves_temp_witness :
  let env := Faults.no_rename Scenario.good_env in
  Faults.rename_failed
    (history env (Seq.fetchBody env "stationA" Scenario.data_url "2025-06-02")
       Scenario.empty_world) = true
  ∧ (run env (Seq.fetchBody env "stationA" Scenario.data_url "2025-06-02")
       Scenario.empty_world).2 = Seq.Failed ErrRename
  ∧ Faults.rename_failed
      (history env (Pool.fetchOne env "stationA" Scenario.data_url "2025-06-02")
         Scenario.empty_world) = true
  ∧ fs (run env (Pool.fetchOne env "stationA" Scenario.data_url "2025-06-02")
          Scenario.empty_world).1 = fs Scenario.empty_world.
Proof.
  cbv zeta.
  destruct (rename_failure_leaves_temp (Faults.no_rename Scenario.good_env)
              "stationA" Scenario.data_url "2025-06-02" Scenario.empty_world)
    as [Hp Hs].
  assert (Faults.rename_failed
            (history (Faults.no_rename Scenario.good_env)
               (Seq.fetchBody (Faults.no_rename Scenario.good_env) "stationA"
                  Scenario.data_url "2025-06-02") Scenario.empty_world) = true)
    as H1 by (vm_compute; reflexivity).
  assert (Faults.rename_failed
            (history (Faults.no_rename Scenario.good_env)
               (Pool.fetchOne (Faults.no_rename Scenario.good_env) "stationA"
                  Scenario.data_url "2025-06-02") Scenario.empty_world) = true)
    as H2 by (vm_compute; reflexivity).
  specialize (Hp H2). specialize (Hs H1).
  destruct (run (Faults.no_rename Scenario.good_env) (Seq.fetchBody _ _ _ _) _)
    as [w1 o1].
  destruct (run (Faults.no_rename Scenario.good_env) (Pool.fetchOne _ _ _ _) _)
    as [w2 r2].
  split_and!; [exact H1|apply Hs|exact H2|apply Hp].
Defined.

(** X5. A first answer whose status is neither 200 nor 304 makes the
    task fail with the status text of the answer: one request is
    sent, no file and no entry is touched, the error is logged and the
    flag is set. *)
Theorem unexpected_status_fails env d u today w resp :
  first_response env w u = Some resp →
  StatusCode resp ≠ StatusOK →
  StatusCode resp ≠ StatusNotModified →
  (let '(w', r) := run env (worker_task env today {| dir := d; url := u |}) w in
   r = Some (ErrUnexpected (Status resp))
   ∧ fs w' = fs w ∧ metadata w' = metadata w ∧ hadError w' = true
   ∧ length (sent w') = S (length (sent w))
   ∧ logs w' = logs w ++ [LogChecking u;
                          LogErrorFetching u (ErrUnexpected (Status resp))])
  ∧ (let '(w', o) := run env (Seq.fetchBody env d u today) w in
     o = Seq.Failed (ErrUnexpected (Status resp))
     ∧ fs w' = fs w ∧ metadata w' = metadata w ∧ hadError w' = true
     ∧ length (sent w') = S (length (sent w))
     ∧ logs w' = logs w ++ [LogChecking u;
                            LogUnexpectedResponse u (Status resp)]).
Proof.
  unfold first_response. intros H1 H2 H3.
  destruct (NewRequest env "GET" u) as [req|] eqn:Hreq; [|done]. cbn in H1.
  split.
  - unfold worker_task, Pool.fetchOne. cbn. rewrite Hreq. cbn. rewrite H1. cbn.
    rewrite decide_False by done. rewrite decide_True by done. cbn.
    split_and!; try done.
    + rewrite length_app. cbn. lia.
    + by rewrite <- app_assoc.
  - unfold Seq.fetchBody, Seq.fail. cbn. rewrite Hreq. cbn. rewrite H1. cbn.
    rewrite decide_False by done. rewrite decide_True by done. cbn.
    split_and!; try done.
    + rewrite length_app. cbn. lia.
    + by rewrite <- app_assoc.
Qed.

Lemma unexpected_status_fails_witness :
  let env := Faults.with_server Scenario.good_env (λ _ _, Some Faults.error_page) in
  first_response env Scenario.empty_world Scenario.data_url
  = Some Faults.error_page
  ∧ (run env (worker_task env "2025-06-02"
                {| dir := "stationA"; url := Scenario.data_url |})
       Scenario.empty_world).2
    = Some (ErrUnexpected "500 Internal Server Error")
  ∧ (run env (Seq.fetchBody env "stationA" Scenario.data_url "2025-06-02")
       Scenario.empty_world).2
    = Seq.Failed (ErrUnexpected "500 Internal Server Error").
Proof.
  cbv zeta.
  assert (first_response
            (Faults.with_server Scenario.good_env (λ _ _, Some Faults.error_page))
            Scenario.empty_world Scenario.data_url = Some Faults.error_page) as H1
    by (vm_compute; reflexivity).
  destruct (unexpected_status_fails
              (Faults.with_server Scenario.good_env (λ _ _, Some Faults.error_page))
              "stationA" Scenario.data_url "2025-06-02" Scenario.empty_world
              Faults.error_page H1) as [Hp Hs];
    [vm_compute; discriminate|vm_compute; discriminate|].
  destruct (run _ (worker_task _ _ _) _) as [w1 r1].
  destruct (run _ (Seq.fetchBody _ _ _ _) _) as [w2 o2].
  split_and!; [exact H1|apply Hp|apply Hs].
Defined.

(** X6. A task whose request cannot be built sends nothing, and one
    whose request gets no answer has sent it once; both fail with
    the files and the metadata map as they were and the flag set. *)
Theorem no_answer_fails env d u today w :
  first_response env w u = None →
  (let '(w', r) := run env (worker_task env today {| dir := d; url := u |}) w in
   r = Some (if new_request_ok env u then ErrDo else ErrNewRequest)
   ∧ fs w' = fs w ∧ metadata w' = metadata w ∧ hadError w' = true
   ∧ length (sent w')
     = (length (sent w) + if new_request_ok env u then 1 else 0)%nat)
  ∧ (let '(w', o) := run env (Seq.fetchBody env d u today) w in
     o = Seq.Failed (if new_request_ok env u then ErrDo else ErrNewRequest)
     ∧ fs w' = fs w ∧ metadata w' = metadata w ∧ hadError w' = true
     ∧ length (sent w')
       = (length (sent w) + if new_request_ok env u then 1 else 0)%nat).
Proof.
  unfold first_response, NewRequest. intros H1.
  destruct (new_request_ok env u) eqn:Hok; cbn in H1.
  - split.
    + unfold worker_task, Pool.fetchOne, NewRequest. cbn. rewrite Hok. cbn.
      rewrite H1. cbn. split_and!; try done. rewrite length_app. cbn. lia.
    + unfold Seq.fetchBody, Seq.fail, NewRequest. cbn. rewrite Hok. cbn.
      rewrite H1. cbn. split_and!; try done. rewrite length_app. cbn. lia.
  - split.
    + unfold worker_task, Pool.fetchOne, NewRequest. cbn. rewrite Hok. cbn.
      split_and!; try done; lia.
    + unfold Seq.fetchBody, Seq.fail, NewRequest. cbn. rewrite Hok. cbn.
      split_and!; try done; lia.
Qed.

Lemma no_answer_fails_witness :
  let env := Faults.no_request Scenario.good_env in
  first_response env Scenario.empty_world Scenario.data_url = None
  ∧ (run env (worker_task env "2025-06-02"
                {| dir := "stationA"; url := Scenario.data_url |})
       Scenario.empty_world).2 = Some ErrNewRequest
  ∧ sent (run env (Seq.fetchBody env "stationA" Scenario.data_url "2025-06-02")
            Scenario.empty_world).1 = [].
Proof.
  cbv zeta.
  assert (first_response (Faults.no_request Scenario.good_env)
            Scenario.empty_world Scenario.data_url = None) as H1
    by (vm_compute; reflexivity).
  destruct (no_answer_fails (Faults.no_request Scenario.good_env) "stationA"
              Scenario.data_url "2025-06-02" Scenario.empty_world H1) as [Hp Hs].
  destruct (run _ (worker_task _ _ _) _) as [w1 r1].
  destruct (run _ (Seq.fetchBody _ _ _ _) _) as [w2 o2].
  split_and!; [exact H1|apply Hp|].
  destruct Hs as (_ & _ & _ & _ & Hlen).
  cbn [fst]. apply nil_length_inv. rewrite Hlen. reflexivity.
Defined.

(* ----------------------------------------------------------------- *)
(** ** The file of a download and the files around it *)

Lemma NewRequest_get env u req :
  NewRequest env "GET" u = Some req
  → req = {| Method := "GET"; URL := u; ReqHeader := ∅ |}.
Proof. unfold NewRequest. destruct (new_request_ok env u); congruence. Qed.



(** X8. The validators go round: after a download by [fetchOne], the
    next request for the URL, in this run or a later one, carries the
    ETag of the answer as If-None-Match and its Last-Modified, when it
    is an HTTP date, as If-Modified-Since. *)
Theorem validators_returned env d u today w env2 d2 today2 :
  let '(w1, r) := run env (Pool.fetchOne env d u today) w in
  ∀ resp, first_response env w u = Some resp → StatusCode resp = StatusOK →
    r = None →
    ∃ reqs,
      sent (run env2 (Pool.fetchOne env2 d2 u today2) w1).1 = sent w1 ++ reqs
      ∧ (new_request_ok env2 u = true → reqs ≠ [])
      ∧ Forall (carries_conditionals
                  {| LastModified :=
                       match parse_time env
                               (Header_Get (RespHeader resp) "Last-Modified") with
                       | Some _ => Header_Get (RespHeader resp) "Last-Modified"
                       | None => ""
                       end;
                     ETag := Header_Get (RespHeader resp) "ETag" |} u) reqs.
Proof.
  pose proof (pool_effect env d u today w) as H. cbv zeta in H.
  destruct (run env (Pool.fetchOne env d u today) w) as [w1 r].
  intros resp Hresp Hok ->.
  destruct H as [(_ & _ & _ & H)|(resp' & Hresp' & _ & _ & [])].
  - destruct (H eq_refl) as (resp' & Hresp' & Hnm).
    unfold StatusOK, StatusNotModified in *. congruence.
  - assert (resp' = resp) as -> by congruence.
    destruct (pool_requests env2 d2 u today2 w1) as (reqs & H1 & H2 & H3 & H4).
    exists reqs. split_and!; [done| |].
    + intros Hn ->. specialize (H3 Hn). done.
    + unfold map_index in H4. rewrite dl_metadata0, lookup_insert_eq in H4.
      exact H4.
Qed.

Lemma validators_returned_witness :
  let w1 := (run Scenario.good_env
               (Pool.fetchOne Scenario.good_env "stationA" Scenario.data_url
                  "2025-06-02") Scenario.empty_world).1 in
  ∃ reqs,
    sent (run Scenario.good_env
            (Pool.fetchOne Scenario.good_env "stationA" Scenario.data_url
               "2025-06-03") w1).1 = sent w1 ++ reqs
    ∧ reqs ≠ []
    ∧ Forall (carries_conditionals
                {| LastModified := Scenario.stamp; ETag := "v1" |}
                Scenario.data_url) reqs.
Proof.
  cbv zeta.
  pose proof (validators_returned Scenario.good_env "stationA" Scenario.data_url
                "2025-06-02" Scenario.empty_world Scenario.good_env "stationA"
                "2025-06-03") as H.
  destruct (run Scenario.good_env
              (Pool.fetchOne Scenario.good_env "stationA" Scenario.data_url
                 "2025-06-02") Scenario.empty_world) as [w1 r] eqn:Hrun.
  assert (r = None) as Hr.
  { change r with (w1, r).2. rewrite <- Hrun. vm_compute. reflexivity. }
  destruct (H (Scenario.response 200 Scenario.validators)) as (reqs & H1 & H2 & H3);
    [vm_compute; reflexivity|reflexivity|exact Hr|].
  exists reqs. split_and!; [exact H1|apply H2; reflexivity|exact H3].
Defined.

(** What a task leaves of the files that are not its destination. *)
Lemma task_files_frame env d u today w :
  (let '(w', r) := run env (Pool.fetchOne env d u today) w in
   (∀ p, p ≠ outPathOf d u today → fs w' !! p = fs w !! p)
   ∧ (∀ p, p ∈ Faults.own_files → fs w' !! p = fs w !! p))
  ∧ (let '(w', o) := run env (Seq.fetchBody env d u today) w in
     (∀ p f, p ≠ outPathOf d u today → fs w !! p = Some f → fs w' !! p = Some f)
     ∧ (∀ p, p ∈ Faults.own_files → fs w' !! p = fs w !! p)).
Proof.
  split.
  - pose proof (pool_effect env d u today w) as H. cbv zeta in H.
    destruct (run env (Pool.fetchOne env d u today) w) as [w' r].
    assert (∀ p, p ≠ outPathOf d u today → fs w' !! p = fs w !! p) as Hp.
    { intros p Hne. destruct H as [(_ & -> & _)|(resp & _ & _ & _ & [])]; [done|].
      by rewrite dl_fs0, lookup_insert_ne. }
    split; [done|]. intros p Hin. apply Hp. intros ->.
    by apply outPath_not_own in Hin.
  - pose proof (seq_fs_cases env d u today w) as H.
    destruct (run env (Seq.fetchBody env d u today) w) as [w' o].
    destruct H as [(_ & _ & ->)|[(_ & f & ->)|(_ & name & resp & Htn & Hfr & _ & ->)]].
    + done.
    + split.
      * intros p f0 Hne Hp. by rewrite lookup_insert_ne.
      * intros p Hin. rewrite lookup_insert_ne; [done|]. intros <-.
        by apply outPath_not_own in Hin.
    + split.
      * intros p f0 Hne Hp. rewrite lookup_insert_ne; [done|]. intros <-. congruence.
      * intros p Hin. rewrite lookup_insert_ne; [done|]. intros <-.
        by apply temp_name_not_own in Htn.
Qed.

(** X9. A task that runs with no other goroutine in between, as
    every loop body of [main.go] does and a task of the pool when no
    other worker is at a task, changes no file but its destination:
    from its start to its return [fetchOne] leaves every other path
    as it was, and the loop body of [main.go] every other file that
    was there; neither touches the metadata file, its temporary file
    or [data-sources.yaml].  Nothing is said here of tasks that run
    at the same time. *)
Theorem task_keeps_other_files env d u today w :
  (let '(w', r) := run env (Pool.fetchOne env d u today) w in
   (∀ p, p ≠ outPathOf d u today → fs w' !! p = fs w !! p)
   ∧ (∀ p, p ∈ Faults.own_files → fs w' !! p = fs w !! p))
  ∧ (let '(w', o) := run env (Seq.fetchBody env d u today) w in
     (∀ p f, p ≠ outPathOf d u today → fs w !! p = Some f → fs w' !! p = Some f)
     ∧ (∀ p, p ∈ Faults.own_files → fs w' !! p = fs w !! p)).
Proof. apply task_files_frame. Qed.

Lemma task_keeps_other_files_witness :
  let w := set_fs (insert metadataFile {| content := "x"; mtime := 0 |})
             Scenario.empty_world in
  metadataFile ∈ Faults.own_files
  ∧ fs (run Scenario.good_env
          (Seq.fetchBody Scenario.good_env "stationA" Scenario.data_url
             "2025-06-02") w).1 !! metadataFile
    = Some {| content := "x"; mtime := 0 |}.
Proof.
  cbv zeta.
  assert (metadataFile ∈ Faults.own_files) as Hin by (by left).
  split; [exact Hin|].
  destruct (task_keeps_other_files Scenario.good_env "stationA" Scenario.data_url
              "2025-06-02"
              (set_fs (insert metadataFile {| content := "x"; mtime := 0 |})
                 Scenario.empty_world)) as [_ H].
  destruct (run Scenario.good_env (Seq.fetchBody _ _ _ _) _) as [w' o].
  destruct H as [_ H]. cbn [fst]. rewrite (H _ Hin). reflexivity.
Defined.

Lemma do_create_temp_eq env d w0 w :
  fs w = fs w0 →
  do_create_temp env d "tmp" w0
  = if create_temp_ok env then
      match Faults.temp_name env d w with
      | Some name =>
          (set_fs (insert name {| content := ""; mtime := now env |}) w0,
           Some name)
      | None => (w0, None)
      end
    else (w0, None).
Proof. intros H. unfold do_create_temp, Faults.temp_name. by rewrite H. Qed.

Lemma temp_name_fresh env d w name :
  Faults.temp_name env d w = Some name → fs w !! name = None.
Proof.
  unfold Faults.temp_name. intros Ht. by apply create_temp_try_spec in Ht as [? _].
Qed.

Lemma temp_name_not_out env d w name u today :
  Faults.temp_name env d w = Some name → name ≠ outPathOf d u today.
Proof.
  unfold Faults.temp_name. intros Ht.
  apply create_temp_try_spec in Ht as [_ [j ->]].
  destruct (outPathOf_csv d u today) as [P ->]. apply temp_name_not_csv.
Qed.

(** X10. For a URL without an entry, a server that answers the second
    request as the first, and a rename that works, the loop body of
    [main.go] and the task of the pool end alike: the same files, the
    same metadata map, the same renames, the same error flag, and an
    error in the one exactly when the other fails with it. *)
Theorem bodies_agree env d u today w :
  map_index (metadata w) u = zero_entry →
  (∀ req, server env 1 req = server env 0 req) →
  rename_ok env = true →
  let '(wp, r) := run env (worker_task env today {| dir := d; url := u |}) w in
  let '(ws, o) := run env (Seq.fetchBody env d u today) w in
  fs ws = fs wp ∧ metadata ws = metadata wp ∧ moved ws = moved wp
  ∧ hadError ws = hadError wp
  ∧ ∀ e, r = Some e ↔ o = Seq.Failed e.
Proof.
  intros Hz Hsame Hrn.
  unfold worker_task, Pool.fetchOne, Seq.fetchBody, Seq.fail. cbn. rewrite Hz.
  destruct (NewRequest env "GET" u) as [req|] eqn:Hreq; cbn.
  2:{ split_and!; try done. intros e; split; congruence. }
  destruct (server env 0 (conditional zero_entry req)) as [resp|] eqn:Hresp; cbn.
  2:{ split_and!; try done. intros e; split; congruence. }
  destruct (decide (StatusCode resp = StatusNotModified)) as [H304|H304]; cbn.
  { split_and!; try done. }
  destruct (decide (StatusCode resp ≠ StatusOK)) as [H200|H200]; cbn.
  { split_and!; try done. intros e; split; congruence. }
  rewrite Hsame, Hresp. cbn.
  rewrite !(do_create_temp_eq env d _ w) by done.
  destruct (create_temp_ok env); cbn.
  2:{ split_and!; try done. intros e; split; congruence. }
  destruct (Faults.temp_name env d w) as [name|] eqn:Htn; cbn.
  2:{ split_and!; try done. intros e; split; congruence. }
  pose proof (temp_name_fresh _ _ _ _ Htn) as Hfresh.
  pose proof (temp_name_not_out _ _ _ _ u today Htn) as Hne.
  unfold do_copy; cbn.
  destruct (copy_error env) as [ncopy|] eqn:Hce; cbn.
  { split_and!; try done. intros e; split; congruence. }
  unfold do_rename; cbn. rewrite ?lookup_alter_eq, ?lookup_insert_eq; cbn.
  rewrite Hrn. cbn.
  split_headers resp env.
  all: split_and!; try done.
  all: first [by rewrite (fetched_fs_chtimes _ _ _ _ _ _ _ Hfresh Hne),
                (renamed_fs_chtimes _ _ _ _ _ _ _ Hfresh)
             |by rewrite (fetched_fs _ _ _ _ _ _ Hfresh Hne),
                (renamed_fs _ _ _ _ _ _ Hfresh)].
Qed.

Lemma bodies_agree_witness :
  map_index (metadata Scenario.empty_world) Scenario.data_url = zero_entry
  ∧ rename_ok Scenario.good_env = true
  ∧ fs (run Scenario.good_env
          (Seq.fetchBody Scenario.good_env "stationA" Scenario.data_url
             "2025-06-02") Scenario.empty_world).1
    = fs (run Scenario.good_env
            (worker_task Scenario.good_env "2025-06-02"
               {| dir := "stationA"; url := Scenario.data_url |})
            Scenario.empty_world).1.
Proof.
  assert (map_index (metadata Scenario.empty_world) Scenario.data_url = zero_entry)
    as H1 by reflexivity.
  assert (rename_ok Scenario.good_env = true) as H3 by reflexivity.
  split_and!; [exact H1|exact H3|].
  pose proof (bodies_agree Scenario.good_env "stationA" Scenario.data_url
                "2025-06-02" Scenario.empty_world H1 (λ _, eq_refl) H3) as H.
  destruct (run Scenario.good_env (worker_task _ _ _) _) as [wp r].
  destruct (run Scenario.good_env (Seq.fetchBody _ _ _ _) _) as [ws o].
  apply H.
Defined.

(* ----------------------------------------------------------------- *)
(** ** The metadata file and the ends of [main] *)

(** All that [writeMetadata] does, by the calls that fail. *)
Lemma writeMetadata_effect c we w :
  let '(w', ok) := writeMetadata c we w in
  ok = create_ok we && encode_ok we && move_ok we
  ∧ (if ok
     then fs w' !! metadataFile
          = Some {| content := emit c (marshal (metadata w));
                    mtime := write_now we |}
          ∧ fs w' !! (metadataFile +:+ ".tmp") = None
     else fs w' !! metadataFile = fs w !! metadataFile
          ∧ (if create_ok we then is_Some (fs w' !! (metadataFile +:+ ".tmp"))
             else fs w' = fs w))
  ∧ (∀ p, p ≠ metadataFile → p ≠ metadataFile +:+ ".tmp" →
          fs w' !! p = fs w !! p)
  ∧ metadata w' = metadata w ∧ hadError w' = hadError w ∧ sent w' = sent w.
Proof.
  assert (metadataFile ≠ metadataFile +:+ ".tmp") as Hne by done.
  unfold writeMetadata.
  destruct (create_ok we), (encode_ok we), (move_ok we); cbn; split_and!; try done.
  all: try (intros p H1 H2).
  all: rewrite ?lookup_insert_eq, ?lookup_delete_eq;
    rewrite ?lookup_insert_ne by done; rewrite ?lookup_delete_ne by done;
    rewrite ?lookup_insert_eq, ?lookup_delete_eq;
    rewrite ?lookup_insert_ne by done; rewrite ?lookup_insert_ne by done;
    try done.
  all: by eexists.
Qed.

(** X11. [writeMetadata] replaces the metadata file in one step: after
    the call the file is as it was before, or it holds the whole
    document of the map, and the second exactly when no call failed,
    the temporary file then being gone.  A failure after the creation
    leaves the temporary file behind; no other path and no entry of
    the map is changed. *)
Theorem writeMetadata_atomic c we w :
  let '(w', ok) := writeMetadata c we w in
  ok = create_ok we && encode_ok we && move_ok we
  ∧ (if ok
     then fs w' !! metadataFile
          = Some {| content := emit c (marshal (metadata w));
                    mtime := write_now we |}
          ∧ fs w' !! (metadataFile +:+ ".tmp") = None
     else fs w' !! metadataFile = fs w !! metadataFile
          ∧ (if create_ok we then is_Some (fs w' !! (metadataFile +:+ ".tmp"))
             else fs w' = fs w))
  ∧ (∀ p, p ≠ metadataFile → p ≠ metadataFile +:+ ".tmp" →
          fs w' !! p = fs w !! p)
  ∧ metadata w' = metadata w ∧ hadError w' = hadError w ∧ sent w' = sent w.
Proof. apply writeMetadata_effect. Qed.



Lemma run_urls_own today d ts w p :
  p ∈ Faults.own_files → fs (Seq.run_urls today d ts w).1 !! p = fs w !! p.
Proof.
  intros Hp. revert w. induction ts as [|[u env] ts IH]; intros w; cbn; [done|].
  pose proof (task_files_frame env d u today w) as [_ H].
  destruct (run env (Seq.fetchBody env d u today) w) as [w1 o]. cbn.
  specialize (IH w1). destruct (Seq.run_urls today d ts w1) as [w2 os]. cbn in *.
  rewrite IH. by apply H.
Qed.

Lemma run_urls_sent today d ts w :
  let '(w', os) := Seq.run_urls today d ts w in
  ∃ reqs, sent w' = sent w ++ reqs ∧ (length reqs ≤ 2 * length os)%nat.
Proof.
  revert w. induction ts as [|[u env] ts IH]; intros w; cbn.
  - exists []. by rewrite app_nil_r.
  - destruct (seq_requests env d u today w) as (r1 & H1 & H2 & _).
    destruct (run env (Seq.fetchBody env d u today) w) as [w1 o]. cbn in *.
    specialize (IH w1). destruct (Seq.run_urls today d ts w1) as [w2 os].
    destruct IH as (r2 & H3 & H4). exists (r1 ++ r2). cbn. split.
    + by rewrite H3, H1, app_assoc.
    + rewrite length_app. lia.
Qed.

(** The loop over the directories up to the first that cannot be
    made. *)
Lemma run_dirs_fatal today pre bad post w :
  Forall (λ d, dj_mkdir_ok d = true) pre → dj_mkdir_ok bad = false →
  let '(w', os, ok) := Seq.run_dirs today (pre ++ bad :: post) w in
  ok = false ∧ os.*1 = catalog_tasks pre
  ∧ (∀ p, p ∈ Faults.own_files → fs w' !! p = fs w !! p)
  ∧ last (logs w') = Some (LogFatal "Failed to create directory").
Proof.
  intros Hpre Hbad. revert w. induction Hpre as [|d pre Hd Hpre IH]; intros w; cbn.
  - rewrite Hbad. cbn. split_and!; try done. by rewrite last_snoc.
  - rewrite Hd.
    pose proof (run_urls_spec today ∅ (dj_dir d) (dj_tasks d) w) as Hu.
    pose proof (λ p, run_urls_own today (dj_dir d) (dj_tasks d) w p) as Ho.
    destruct (Seq.run_urls _ _ _ w) as [w1 os1]. destruct Hu as (Hu1 & _).
    specialize (IH w1). destruct (Seq.run_dirs today _ w1) as [[w2 os2] ok].
    destruct IH as (-> & IH2 & IH3 & IH4). cbn in Ho. split_and!; try done.
    + rewrite fmap_app, Hu1, IH2. done.
    + intros p Hp. rewrite IH3 by done. by apply Ho.
Qed.

(** X13. When [os.MkdirAll] fails for a directory, [main.go] ends with
    status 1 there: the tasks of the directories before it have run,
    those after it have not, and the metadata file is not written, so
    that it is still the one of the start. *)
Theorem mkdir_failure_is_fatal i pre bad post md0 :
  in_sources i = Some (pre ++ bad :: post) →
  readMetadata (in_codec i) (in_open_ok i) (in_files i) = Some (Loaded md0) →
  Forall (λ d, dj_mkdir_ok d = true) pre →
  dj_mkdir_ok bad = false →
  let r := Seq.main i in
  Seq.exit_code r = 1
  ∧ (Seq.outcomes r).*1 = catalog_tasks pre
  ∧ (∀ p, p ∈ Faults.own_files → fs (Seq.final r) !! p = in_files i !! p)
  ∧ last (logs (Seq.final r)) = Some (LogFatal "Failed to create directory").
Proof.
  intros Hsrc Hrd Hpre Hbad. unfold Seq.main. rewrite Hsrc, Hrd.
  pose proof (run_dirs_fatal (Format_2006_01_02 (in_today i)) pre bad post
                (start_world (in_files i) md0) Hpre Hbad) as H.
  destruct (Seq.run_dirs _ _ _) as [[w os] ok].
  destruct H as (-> & H2 & H3 & H4). cbn. split_and!; done.
Qed.

Lemma mkdir_failure_is_fatal_witness :
  Seq.exit_code (Seq.main Faults.input_bad_dir) = 1
  ∧ (Seq.outcomes (Seq.main Faults.input_bad_dir)).*1
    = [{| dir := "stationA"; url := Scenario.data_url |}]
  ∧ fs (Seq.final (Seq.main Faults.input_bad_dir)) !! metadataFile = None.
Proof.
  destruct (mkdir_failure_is_fatal Faults.input_bad_dir Scenario.catalog
              Faults.bad_dir [] ∅) as (H1 & H2 & H3 & _).
  - reflexivity.
  - vm_compute. reflexivity.
  - repeat constructor.
  - reflexivity.
  - split_and!; [exact H1|exact H2|].
    rewrite H3 by (by left). reflexivity.
Defined.

(** X14. When [data-sources.yaml] or the metadata file cannot be
    read, neither program does anything: the exit status is 1, no
    task runs, no request is sent and the files are as they were. *)
Theorem failed_start_exits i :
  in_sources i = None
  ∨ readMetadata (in_codec i) (in_open_ok i) (in_files i) = None →
  (let r := Seq.main i in
   Seq.exit_code r = 1 ∧ Seq.outcomes r = []
   ∧ fs (Seq.final r) = in_files i ∧ sent (Seq.final r) = [])
  ∧ (∀ s, reachable i s →
       exit s = Some 1 ∧ results s = []
       ∧ fs (world s) = in_files i ∧ sent (world s) = []).
Proof.
  intros H. split.
  - unfold Seq.main. destruct (in_sources i) as [cat|]; [|done].
    destruct H as [H|H]; [done|]. by rewrite H.
  - assert (exit (init i) = Some 1 ∧ results (init i) = []
            ∧ fs (world (init i)) = in_files i ∧ sent (world (init i)) = []) as Hi.
    { unfold init. destruct (in_sources i) as [cat|]; [|done].
      destruct H as [H|H]; [done|]. by rewrite H. }
    intros s Hr. unfold reachable in Hr.
    apply exited_stays in Hr as ->; [done|]. destruct Hi as [-> _]. by eexists.
Qed.

Lemma failed_start_exits_witness :
  in_sources Faults.input_no_sources = None
  ∧ Seq.exit_code (Seq.main Faults.input_no_sources) = 1
  ∧ reachable Faults.input_no_sources (init Faults.input_no_sources)
  ∧ exit (init Faults.input_no_sources) = Some 1.
Proof.
  assert (in_sources Faults.input_no_sources = None) as H by reflexivity.
  assert (reachable Faults.input_no_sources (init Faults.input_no_sources)) as Hr
    by apply rtc_refl.
  destruct (failed_start_exits Faults.input_no_sources (or_introl H)) as [Hs Hp].
  split_and!; [exact H|apply Hs|exact Hr|by apply Hp].
Defined.

(** The requests of a program that sends at most [n], run on the
    nil map. *)
Lemma sends_run_nil {A} env (p : Prog A) w n :
  Guards.sends n p →
  ∃ reqs, sent (run_nil env p w).1 = sent w ++ reqs ∧ (length reqs ≤ n)%nat.
Proof.
  assert (∀ w0 : World, ∃ reqs, sent w0 = sent w0 ++ reqs ∧ (length reqs ≤ n)%nat)
    as Hnil.
  { intros w0. exists []. rewrite app_nil_r. split; [done|cbn; lia]. }
  clear Hnil. revert w n.
  induction p as [x|l k IH|u k IH|u e k IH|k IH|m r k IH|td tp k IH|cn cb k IH
                 |ro rn k IH|cp ct k IH|rp k IH];
    intros w n Hs; cbn [run_nil fst]; cbn in Hs.
  - exists []. rewrite app_nil_r. split; [done|cbn; lia].
  - apply (IH (add_log l w)), Hs.
  - apply IH, Hs.
  - destruct (unwind_keeps k w) as (_ & _ & _ & -> & _).
    exists []. rewrite app_nil_r. split; [done|cbn; lia].
  - apply (IH (set_hadError true w)), Hs.
  - destruct n as [|n]; [done|]. cbn.
    destruct (IH (server env m r) (add_sent r w) n (Hs _)) as (reqs & -> & Hl).
    exists (r :: reqs). cbn. split; [by rewrite <- app_assoc|lia].
  - pose proof (do_create_temp_keeps env td tp w) as (_ & _ & _ & E).
    destruct (do_create_temp env td tp w) as [w1 x]. cbn in E. rewrite <- E.
    apply IH, Hs.
  - apply (IH _ (do_copy env cn cb w).1), Hs.
  - pose proof (do_rename_keeps env ro rn w) as (_ & _ & _ & E).
    destruct (do_rename env ro rn w) as [w1 x]. cbn in E. rewrite <- E.
    apply IH, Hs.
  - pose proof (do_chtimes_keeps env cp ct w) as (_ & _ & _ & E).
    rewrite <- E. apply IH, Hs.
  - apply (IH (do_remove rp w)), Hs.
Qed.

Lemma sends_fetchBody env d u today : Guards.sends 2 (Seq.fetchBody env d u today).
Proof. unfold Seq.fetchBody, Seq.fail. guard_solve. Qed.

Lemma run_urls_nil_sent today d ts w :
  let '(w', os, ok) := Seq.run_urls_nil today d ts w in
  ∃ reqs, sent w' = sent w ++ reqs ∧ (length reqs ≤ 2 * length os)%nat.
Proof.
  revert w. induction ts as [|[u env] ts IH]; intros w; cbn.
  - exists []. by rewrite app_nil_r.
  - destruct (sends_run_nil env (Seq.fetchBody env d u today) w 2
                (sends_fetchBody env d u today)) as (r1 & H1 & H2).
    destruct (run_nil env (Seq.fetchBody env d u today) w) as [w1 [o|]]; cbn in *.
    + specialize (IH w1). destruct (Seq.run_urls_nil today d ts w1) as [[w2 os] ok].
      destruct IH as (r2 & H3 & H4). exists (r1 ++ r2). cbn. split.
      * by rewrite H3, H1, app_assoc.
      * rewrite length_app. lia.
    + exists r1. split; [done|cbn; lia].
Qed.

(** X15. A run of [main.go] sends at most two requests for each task
    that it runs. *)
Theorem seq_request_volume i :
  (length (sent (Seq.final (Seq.main i)))
   ≤ 2 * length (Seq.outcomes (Seq.main i)))%nat.
Proof.
  assert (∀ today cat w,
            let '(w', os, ok) := Seq.run_dirs today cat w in
            ∃ reqs, sent w' = sent w ++ reqs
                    ∧ (length reqs ≤ 2 * length os)%nat) as Hd.
  { intros today cat. induction cat as [|d cat IH]; intros w; cbn.
    - exists []. by rewrite app_nil_r.
    - destruct (dj_mkdir_ok d).
      + pose proof (run_urls_sent today (dj_dir d) (dj_tasks d) w) as Hu.
        destruct (Seq.run_urls _ _ _ w) as [w1 os1]. destruct Hu as (r1 & H1 & H2).
        specialize (IH w1). destruct (Seq.run_dirs today cat w1) as [[w2 os2] ok].
        destruct IH as (r2 & H3 & H4). exists (r1 ++ r2). split.
        * by rewrite H3, H1, app_assoc.
        * rewrite !length_app. lia.
      + exists []. by rewrite app_nil_r. }
  assert (∀ today cat w,
            let '(w', os, died) := Seq.run_dirs_nil today cat w in
            ∃ reqs, sent w' = sent w ++ reqs
                    ∧ (length reqs ≤ 2 * length os)%nat) as Hn.
  { intros today cat. induction cat as [|d cat IH]; intros w; cbn.
    - exists []. by rewrite app_nil_r.
    - destruct (dj_mkdir_ok d).
      + pose proof (run_urls_nil_sent today (dj_dir d) (dj_tasks d) w) as Hu.
        destruct (Seq.run_urls_nil _ _ _ w) as [[w1 os1] ok].
        destruct Hu as (r1 & H1 & H2). destruct ok; [|by exists r1].
        specialize (IH w1). destruct (Seq.run_dirs_nil today cat w1) as [[w2 os2] died].
        destruct IH as (r2 & H3 & H4). exists (r1 ++ r2). split.
        * by rewrite H3, H1, app_assoc.
        * rewrite !length_app. lia.
      + exists []. by rewrite app_nil_r. }
  assert (∀ w, sent (finish (in_codec i) (in_write i) w).1 = sent w) as Hfin.
  { intros w. pose proof (writeMetadata_effect (in_codec i) (in_write i) w) as Hw.
    unfold finish. destruct (writeMetadata _ _ w) as [w' ok'].
    by destruct Hw as (_ & _ & _ & _ & _ & Hs). }
  unfold Seq.main. destruct (in_sources i) as [cat|]; [|cbn; lia].
  destruct (readMetadata _ _ _) as [[|md]|]; [| |cbn; lia].
  - specialize (Hn (Format_2006_01_02 (in_today i)) cat (start_world (in_files i) ∅)).
    destruct (Seq.run_dirs_nil _ _ _) as [[w os] died]. destruct Hn as (reqs & H1 & H2).
    cbn in H1. subst reqs. destruct died as [code|]; cbn; [lia|].
    specialize (Hfin w). destruct (finish _ _ w) as [w' code]. cbn in *.
    rewrite Hfin. lia.
  - specialize (Hd (Format_2006_01_02 (in_today i)) cat (start_world (in_files i) md)).
    destruct (Seq.run_dirs _ _ _) as [[w os] ok]. destruct Hd as (reqs & H1 & H2).
    cbn in H1. subst reqs.
    destruct ok; cbn; [|lia].
    specialize (Hfin w). destruct (finish _ _ w) as [w' code]. cbn in *.
    rewrite Hfin. lia.
Qed.

(* ----------------------------------------------------------------- *)
(** ** More invariants of the worker pool *)

Lemma temp_name_any_not_own prefix r : prefix +:+ nextRandom r ∉ Faults.own_files.
Proof.
  unfold Faults.own_files, metadataFile, dataSourcesFile.
  intros Hin. repeat (apply elem_of_cons in Hin as [Hin|Hin]);
    [| | |by apply elem_of_nil in Hin].
  - change ".metadata.yaml" with (".metadata.yam" +:+ String "l" "") in Hin.
    apply temp_name_last in Hin as (dg & Hd & Hc). apply digit_range in Hd.
    rewrite <- Hc in Hd. cbn in Hd. lia.
  - change (".metadata.yaml" +:+ ".tmp") with (".metadata.yaml.tm" +:+ String "p" "") in Hin.
    apply temp_name_last in Hin as (dg & Hd & Hc). apply digit_range in Hd.
    rewrite <- Hc in Hd. cbn in Hd. lia.
  - change "data-sources.yaml" with ("data-sources.yam" +:+ String "l" "") in Hin.
    apply temp_name_last in Hin as (dg & Hd & Hc). apply digit_range in Hd.
    rewrite <- Hc in Hd. cbn in Hd. lia.
Qed.

Lemma paths_ok_worker_task env today t : Guards.paths_ok (worker_task env today t).
Proof.
  destruct t as [d u]. unfold worker_task, fetchOne.
  pose proof (outPath_not_own d u today) as Hout.
  repeat (cbn; match goal with
          | |- ∀ _ : option Response, _ => intros [?|]
          | |- ∀ _ : bool, _ => intros [|]
          | |- ∀ _ : MetadataEntry, _ => intros ?
          | |- ∀ name : string, _ ∉ _ → _ => intros ? ?
          | |- _ ∧ _ => split
          | |- context [match NewRequest ?e ?m ?u with _ => _ end] =>
              destruct (NewRequest e m u)
          | |- context [decide ?P] => destruct (decide P)
          | |- context [match parse_time ?e ?s with _ => _ end] =>
              destruct (parse_time e s)
          end); try done.
Qed.

Lemma sends_worker_task env today t : Guards.sends 1 (worker_task env today t).
Proof.
  destruct t as [d u]. unfold worker_task, fetchOne. guard_solve.
Qed.

(** One step of a program that names no file of [main] leaves these
    files as they are. *)
Lemma paths_ok_step {A} env (p : Prog A) w p' w' :
  step_prog env p w = Some (p', w') → Guards.paths_ok p →
  Guards.paths_ok p' ∧ ∀ q, q ∈ Faults.own_files → fs w' !! q = fs w !! q.
Proof.
  intros Hs Hp.
  destruct p as [a|l k|u k|u e k|k|n req k|d pat k|name body k|old new k|path t k
                |path k]; cbn in Hs, Hp; try discriminate Hs.
  - (* Log *) by simplify_eq.
  - (* MetaGet *) by simplify_eq.
  - (* MetaSet *) by simplify_eq.
  - (* FlagError *) by simplify_eq.
  - (* ClientDo *) by simplify_eq.
  - (* CreateTemp *)
    destruct (do_create_temp env d pat w) as [w1 [name|]] eqn:Hct;
      simplify_eq.
    + apply do_create_temp_some in Hct as (_ & -> & r & ->).
      pose proof (temp_name_any_not_own (temp_prefix env d pat) r) as Hn.
      split; [by apply Hp|]. intros q Hq. cbn.
      rewrite lookup_insert_ne; [done|]. by intros <-.
    + apply do_create_temp_none in Hct as ->. split; [apply Hp|done].
  - (* CopyClose *)
    destruct Hp as [Hn Hp]. simplify_eq. split; [done|]. intros q Hq. cbn.
    rewrite lookup_alter_ne; [done|]. by intros <-.
  - (* Rename *)
    destruct Hp as (Ho & Hn & Hp). unfold do_rename in Hs.
    destruct (rename_ok env); [destruct (fs w !! old)|]; simplify_eq;
      (split; [done|]); try done.
    intros q Hq. cbn. rewrite lookup_insert_ne by (by intros <-).
    rewrite lookup_delete_ne; [done|]. by intros <-.
  - (* Chtimes *)
    destruct Hp as [Hn Hp]. simplify_eq. split; [done|]. intros q Hq.
    unfold do_chtimes. destruct (chtimes_ok env); [|done]. cbn.
    rewrite lookup_alter_ne; [done|]. by intros <-.
  - (* Remove *)
    destruct Hp as [Hn Hp]. simplify_eq. split; [done|]. intros q Hq. cbn.
    rewrite lookup_delete_ne; [done|]. by intros <-.
Qed.

Ltac step_inv Hstep :=
  destruct Hstep as [s d ops He Hd|s d ops He Hd|s j ops He Hd Hq|s He Hd
                    |s i j q He Hwi Hq|s i j p p' w' He Hwi Hp Hnp
                    |s i j u e k He Hnil Hwi|s i j r He Hwi
                    |s i He Hwi Hq Hc|s He Hd Hall].

(** The deferred calls of a program that names no file of [main]
    leave these files as they are. *)
Lemma unwind_own {A} (p : Prog A) w :
  Guards.paths_ok p →
  ∀ q, q ∈ Faults.own_files → fs (unwind p w) !! q = fs w !! q.
Proof.
  revert w.
  induction p as [x|l k IH|u k IH|u e k IH|k IH|n r k IH|td tp k IH|cn cb k IH
                 |ro rn k IH|cp ct k IH|rp k IH];
    intros w Hp q Hq; cbn; try done.
  destruct Hp as [Hn Hp]. rewrite (IH _ Hp q Hq). cbn.
  rewrite lookup_delete_ne; [done|]. by intros <-.
Qed.

Lemma own_inv_boot c we files md ops :
  Guards.own_inv c we files (boot (start_world files md) ops None).
Proof.
  split_and!; cbn [boot workers world disp start_world fs]; try done; [|by left].
  intros idx j p [? _]%lookup_replicate. done.
Qed.

Lemma own_inv_step today c we cat files s s' :
  struct_inv cat s → Guards.own_inv c we files s → step today c we s s' →
  Guards.own_inv c we files s'.
Proof.
  intros Hst (Hw & Hown & Hds & Hmd) Hstep.
  assert (exit s = None → disp s ≠ Finished) as Hnf.
  { intros He Hd. destruct (inv_finished _ _ Hst Hd) as [? ?]. congruence. }
  assert (metadataFile ∈ Faults.own_files) as Hin by (by left).
  step_inv Hstep; specialize (Hnf He); specialize (Hown Hnf).
  1-4: split_and!; cbn; [done|by intros _|done|left; by apply Hown].
  - (* receive *)
    split_and!; cbn; [|by intros _|done|left; by apply Hown].
    intros i' j' p' [(? & ? & _)|[? ?]]%list_lookup_insert_Some; [|eauto].
    simplify_eq. apply paths_ok_worker_task.
  - (* a step of a task *)
    destruct (paths_ok_step _ _ _ _ _ Hp (Hw _ _ _ Hwi)) as [Hp' Hfs].
    split_and!; cbn.
    + intros i' j' p0 [(? & ? & _)|[? Hl]]%list_lookup_insert_Some;
        [by simplify_eq|eauto].
    + intros _ q Hq. rewrite Hfs by done. by apply Hown.
    + rewrite Hfs; [done|]. by do 2 right; left.
    + left. rewrite Hfs by done. by apply Hown.
  - (* a panic *)
    pose proof (unwind_own k (world s) (Hw _ _ _ Hwi)) as Hfs.
    split_and!; cbn.
    + done.
    + intros _ q Hq. rewrite Hfs by done. by apply Hown.
    + rewrite Hfs; [done|]. by do 2 right; left.
    + left. rewrite Hfs by done. by apply Hown.
  - (* a task returns *)
    split_and!; cbn; [|by intros _|done|left; by apply Hown].
    intros i' j' p0 [(-> & ? & _)|[? Hl]]%list_lookup_insert_Some; [done|eauto].
  - (* a worker returns *)
    split_and!; cbn; [|by intros _|done|left; by apply Hown].
    intros i' j' p0 [(-> & ? & _)|[? Hl]]%list_lookup_insert_Some; [done|eauto].
  - (* the end of main *)
    pose proof (writeMetadata_effect c we (world s)) as Ha.
    unfold finish. destruct (writeMetadata c we (world s)) as [w' ok].
    destruct Ha as (_ & Hfile & Hother & Hmeta & _).
    split_and!; cbn; try done.
    + rewrite Hother by done. done.
    + destruct ok.
      * right. rewrite Hmeta. apply Hfile.
      * left. destruct Hfile as [-> _]. by apply Hown.
Qed.

Lemma pool_own_inv i cat md0 s :
  in_sources i = Some cat →
  readMetadata (in_codec i) (in_open_ok i) (in_files i) = Some md0 →
  reachable i s →
  Guards.own_inv (in_codec i) (in_write i) (in_files i) s.
Proof.
  intros Hsrc Hrd Hr. pose proof Hr as Hr0. unfold reachable in Hr.
  revert s Hr Hr0. apply (rtc_ind_r (λ s, reachable i s → _)).
  - intros _. rewrite (init_start i cat md0 Hsrc Hrd).
    exact (own_inv_boot (in_codec i) (in_write i) (in_files i) (map_of md0)
             (dispatch_ops cat)).
  - intros s s' Hr Hstep IH _.
    destruct (pool_invariants i cat md0 s Hsrc Hrd Hr) as (Hst & _).
    eapply own_inv_step; [exact Hst|by apply IH|exact Hstep].
Qed.

(** X16. In the pool no worker touches the files of [main]: until
    [writeMetadata] the metadata file, its temporary file and
    [data-sources.yaml] are as at the start, and in every state of a
    run the metadata file is the one of the start or the whole
    document of the map. *)
Theorem pool_keeps_own_files i cat md0 s :
  in_sources i = Some cat →
  readMetadata (in_codec i) (in_open_ok i) (in_files i) = Some md0 →
  reachable i s →
  (disp s ≠ Finished →
   ∀ q, q ∈ Faults.own_files → fs (world s) !! q = in_files i !! q)
  ∧ fs (world s) !! dataSourcesFile = in_files i !! dataSourcesFile
  ∧ (fs (world s) !! metadataFile = in_files i !! metadataFile
     ∨ fs (world s) !! metadataFile
       = Some {| content := emit (in_codec i) (marshal (metadata (world s)));
                 mtime := write_now (in_write i) |}).
Proof.
  intros Hsrc Hrd Hr. by destruct (pool_own_inv i cat md0 s Hsrc Hrd Hr) as (_ & ?).
Qed.

Lemma pool_keeps_own_files_witness :
  in_sources Scenario.input = Some Scenario.catalog
  ∧ reachable Scenario.input (Sched.run_pool 12 Scenario.input)
  ∧ is_Some (fs (world (Sched.run_pool 12 Scenario.input))
             !! "stationA/data-2025-06-02.csv")
  ∧ fs (world (Sched.run_pool 12 Scenario.input)) !! metadataFile = None
  ∧ reachable Scenario.input (Sched.run_pool 40 Scenario.input)
  ∧ content <$> fs (world (Sched.run_pool 40 Scenario.input)) !! metadataFile
    = Some (emit Scenario.block_codec
              (marshal {[ Scenario.data_url := Scenario.prior ]})).
Proof.
  assert (readMetadata (in_codec Scenario.input) (in_open_ok Scenario.input)
            (in_files Scenario.input) = Some (Loaded ∅)) as Hrd
    by (vm_compute; reflexivity).
  pose proof (run_pool_reachable 12 Scenario.input) as Hr.
  pose proof (run_pool_reachable 40 Scenario.input) as Hr'.
  split_and!; [reflexivity|exact Hr|vm_compute; by eexists| |exact Hr'|].
  - destruct (pool_keeps_own_files Scenario.input Scenario.catalog (Loaded ∅)
                (Sched.run_pool 12 Scenario.input) eq_refl Hrd Hr) as (H & _).
    rewrite H; [reflexivity|vm_compute; discriminate|by left].
  - destruct (pool_keeps_own_files Scenario.input Scenario.catalog (Loaded ∅)
                (Sched.run_pool 40 Scenario.input) eq_refl Hrd Hr')
      as (_ & _ & [H|H]).
    + exfalso. revert H. vm_compute. discriminate.
    + rewrite H. vm_compute. reflexivity.
Defined.

Lemma stuck_at_step today c we bd s s' :
  Guards.stuck_at bd s → step today c we s s' → Guards.stuck_at bd s'.
Proof.
  intros (ops0 & Hd0 & Hcase) Hstep.
  assert (exit s = None → DMkdirAll bd false ∈ ops0) as Hin.
  { intros He. destruct Hcase as [[? _]|[?|[? _]]]; [done|congruence|congruence]. }
  step_inv Hstep; specialize (Hin He); try (rewrite Hd0 in Hd); simplify_eq.
  - (* MkdirAll *)
    exists ops. split; [done|]. left. split; [|done].
    apply elem_of_cons in Hin as [?|?]; [done|done].
  - (* MkdirAll fails *)
    exists (DMkdirAll d false :: ops). split; [done|]. by right; left.
  - (* send *)
    exists ops. split; [done|]. left. split; [|done].
    apply elem_of_cons in Hin as [?|?]; [done|done].
  - (* close *) by apply elem_of_nil in Hin.
  - exists ops0. split; [done|]. by left.
  - exists ops0. split; [done|]. by left.
  - (* a panic *) exists ops0. split; [done|]. by right; right.
  - exists ops0. split; [done|]. by left.
  - exists ops0. split; [done|]. by left.
Qed.

Lemma dispatch_ops_bad cat bad :
  bad ∈ cat → dj_mkdir_ok bad = false →
  DMkdirAll (dj_dir bad) false ∈ dispatch_ops cat.
Proof.
  intros Hin Hbad. unfold dispatch_ops. apply list_elem_of_bind.
  exists bad. split; [|done]. unfold dispatch_dir. rewrite Hbad. by left.
Qed.

(** X17. When the catalog has a directory that cannot be made, the
    pool never gets to [writeMetadata]: every exit has status 1, or
    the status 2 of a panic when the map is the nil map, and the
    metadata file is the one of the start in every state, whatever
    the workers have downloaded by then. *)
Theorem pool_mkdir_failure_is_fatal i cat bad md0 s :
  in_sources i = Some cat →
  readMetadata (in_codec i) (in_open_ok i) (in_files i) = Some md0 →
  bad ∈ cat → dj_mkdir_ok bad = false →
  reachable i s →
  disp s ≠ Finished
  ∧ (∀ code, exit s = Some code → code = 1 ∨ (code = 2 ∧ md0 = NilMap))
  ∧ (∀ q, q ∈ Faults.own_files → fs (world s) !! q = in_files i !! q).
Proof.
  intros Hsrc Hrd Hin Hbad Hr.
  assert (Guards.stuck_at (dj_dir bad) s) as (ops & Hd & Hcase).
  { unfold reachable in Hr. revert s Hr. apply rtc_ind_r.
    - rewrite (init_start i cat md0 Hsrc Hrd). exists (dispatch_ops cat).
      split; [done|]. left. split; [|done]. by apply dispatch_ops_bad.
    - intros s s' _ Hstep IH. by eapply stuck_at_step. }
  assert (disp s ≠ Finished) as Hnf by congruence.
  split_and!; [done| |].
  - intros code Hc. destruct Hcase as [[_ ?]|[?|[? Hn]]]; [congruence|left; congruence|].
    right. split; [congruence|].
    rewrite (reachable_nilmap i s Hr), (init_nilmap i cat md0 Hsrc Hrd) in Hn.
    by destruct md0.
  - destruct (pool_own_inv i cat md0 s Hsrc Hrd Hr) as (_ & H & _). by apply H.
Qed.

Lemma pool_mkdir_failure_is_fatal_witness :
  Faults.bad_dir ∈ Scenario.catalog ++ [Faults.bad_dir]
  ∧ dj_mkdir_ok Faults.bad_dir = false
  ∧ reachable Faults.input_bad_dir (Sched.run_pool 20 Faults.input_bad_dir)
  ∧ exit (Sched.run_pool 20 Faults.input_bad_dir) = Some 1
  ∧ is_Some (fs (world (Sched.run_pool 20 Faults.input_bad_dir))
             !! "stationA/data-2025-06-02.csv")
  ∧ fs (world (Sched.run_pool 20 Faults.input_bad_dir)) !! metadataFile = None
  ∧ reachable Faults.input_bad_dir (Sched.run_eager 20 Faults.input_bad_dir)
  ∧ exit (Sched.run_eager 20 Faults.input_bad_dir) = Some 1
  ∧ fs (world (Sched.run_eager 20 Faults.input_bad_dir)) !! metadataFile = None.
Proof.
  assert (Faults.bad_dir ∈ Scenario.catalog ++ [Faults.bad_dir]) as Hin.
  { apply elem_of_app. right. by left. }
  assert (readMetadata (in_codec Faults.input_bad_dir)
            (in_open_ok Faults.input_bad_dir) (in_files Faults.input_bad_dir)
          = Some (Loaded ∅)) as Hrd by (vm_compute; reflexivity).
  pose proof (run_pool_reachable 20 Faults.input_bad_dir) as Hr.
  pose proof (run_eager_reachable 20 Faults.input_bad_dir) as Hr'.
  destruct (pool_mkdir_failure_is_fatal Faults.input_bad_dir
              (Scenario.catalog ++ [Faults.bad_dir]) Faults.bad_dir (Loaded ∅)
              _ eq_refl Hrd Hin eq_refl Hr) as (_ & Hcode & Hown).
  destruct (pool_mkdir_failure_is_fatal Faults.input_bad_dir
              (Scenario.catalog ++ [Faults.bad_dir]) Faults.bad_dir (Loaded ∅)
              _ eq_refl Hrd Hin eq_refl Hr') as (_ & Hcode' & Hown').
  assert (∃ code, exit (Sched.run_pool 20 Faults.input_bad_dir) = Some code)
    as [code Hc] by (vm_compute; by eexists).
  assert (∃ code, exit (Sched.run_eager 20 Faults.input_bad_dir) = Some code)
    as [code' Hc'] by (vm_compute; by eexists).
  split_and!; [exact Hin|reflexivity|exact Hr| |vm_compute; by eexists|
               |exact Hr'| |].
  - rewrite Hc. destruct (Hcode _ Hc) as [->|[_ [=]]]. reflexivity.
  - rewrite Hown by (by left). reflexivity.
  - rewrite Hc'. destruct (Hcode' _ Hc') as [->|[_ [=]]]. reflexivity.
  - rewrite Hown' by (by left). reflexivity.
Defined.

(** One step of a program sends a request or leaves the list of the
    requests as it is, and uses up the budget by as much. *)
Lemma sends_step {A} env (p : Prog A) w p' w' n :
  step_prog env p w = Some (p', w') → Guards.sends n p →
  (sent w' = sent w ∧ Guards.sends n p')
  ∨ (∃ m req, n = S m ∧ sent w' = sent w ++ [req] ∧ Guards.sends m p').
Proof.
  intros Hs Hp.
  destruct p as [a|l k|u k|u e k|k|i req k|d pat k|name body k|old new k|path t k
                |path k]; cbn in Hs, Hp; try discriminate Hs.
  - left. by simplify_eq.
  - left. by simplify_eq.
  - left. by simplify_eq.
  - left. by simplify_eq.
  - right. destruct n as [|m]; [done|]. simplify_eq. by exists m, req.
  - left. pose proof (do_create_temp_frame env d pat w) as Hf. cbv zeta in Hf.
    destruct (do_create_temp env d pat w) as [w1 x] eqn:Hct. simplify_eq.
    split; [|done]. destruct x as [name|].
    + by apply do_create_temp_some in Hct as (_ & -> & _).
    + by apply do_create_temp_none in Hct as ->.
  - left. by simplify_eq.
  - left. unfold do_rename in Hs.
    destruct (rename_ok env); [destruct (fs w !! old)|]; by simplify_eq.
  - left. simplify_eq. split; [|done]. unfold do_chtimes. by destruct (chtimes_ok env).
  - left. by simplify_eq.
Qed.

Lemma worker_sent_busy ws cs :
  Forall2 Guards.worker_sent ws cs → (sum_list cs ≤ length (omap busy_task ws))%nat.
Proof.
  induction 1 as [|x c ws cs Hx _ IH]; cbn; [done|].
  destruct x as [|j p|]; cbn in *; [lia| |lia].
  destruct Hx as [[-> _]|[-> _]]; lia.
Qed.

Lemma vol_inv_boot w ops code : sent w = [] → Guards.vol_inv (boot w ops code).
Proof.
  intros Hw. exists (replicate maxParallel 0%nat). cbn [boot workers world results].
  split; [|rewrite Hw; cbn; lia]. by apply Forall2_replicate.
Qed.

Lemma vol_inv_step today c we s s' :
  Guards.vol_inv s → step today c we s s' → Guards.vol_inv s'.
Proof.
  intros (cs & Hcs & Hlen) Hstep. step_inv Hstep.
  1-4: by exists cs.
  - (* receive *)
    destruct (Forall2_lookup_l _ _ _ _ _ Hcs Hwi) as (c0 & Hc0 & Hx). cbn in Hx.
    subst c0. exists (<[i := 0%nat]> cs). cbn. split.
    + apply Forall2_insert; [done|]. cbn. left. split; [done|].
      apply sends_worker_task.
    + pose proof (sum_list_insert cs i 0%nat 0%nat Hc0). lia.
  - (* a step of a task *)
    destruct (Forall2_lookup_l _ _ _ _ _ Hcs Hwi) as (c0 & Hc0 & Hx). cbn in Hx.
    destruct Hx as [[-> Hx]|[-> Hx]];
      destruct (sends_step _ _ _ _ _ _ Hp Hx) as [[Hs Hx']|(m & req & ? & Hs & Hx')];
      simplify_eq.
    + exists cs. cbn. rewrite Hs. split; [|done].
      rewrite <- (list_insert_id cs i 0%nat Hc0).
      apply Forall2_insert; [done|]. cbn. by left.
    + exists (<[i := 1%nat]> cs). cbn. rewrite Hs, length_app. cbn. split.
      * apply Forall2_insert; [done|]. cbn. by right.
      * pose proof (sum_list_insert cs i 0%nat 1%nat Hc0). lia.
    + exists cs. cbn. rewrite Hs. split; [|done].
      rewrite <- (list_insert_id cs i 1%nat Hc0).
      apply Forall2_insert; [done|]. cbn. by right.
  - (* a panic *)
    destruct (unwind_keeps k (world s)) as (_ & _ & _ & Hs & _).
    exists cs. cbn. by rewrite Hs.
  - (* a task returns *)
    destruct (Forall2_lookup_l _ _ _ _ _ Hcs Hwi) as (c0 & Hc0 & Hx). cbn in Hx.
    exists (<[i := 0%nat]> cs). cbn. split.
    + apply Forall2_insert; [done|]. done.
    + pose proof (sum_list_insert cs i c0 0%nat Hc0). rewrite length_app. cbn.
      destruct Hx as [[-> _]|[-> _]]; lia.
  - (* a worker returns *)
    destruct (Forall2_lookup_l _ _ _ _ _ Hcs Hwi) as (c0 & Hc0 & Hx). cbn in Hx.
    subst c0. exists cs. cbn. split; [|done].
    rewrite <- (list_insert_id cs i 0%nat Hc0). apply Forall2_insert; [done|]. done.
  - (* the end of main *)
    pose proof (writeMetadata_effect c we (world s)) as Ha.
    unfold finish. destruct (writeMetadata c we (world s)) as [w' ok].
    destruct Ha as (_ & _ & _ & _ & _ & Hs).
    exists cs. cbn. by rewrite Hs.
Qed.

(** X18. At every moment of a run the pool has sent at most one
    request for each task that has returned or that a worker is at;
    at the end at most one for each task. *)
Theorem pool_request_volume i s :
  reachable i s →
  (length (sent (world s))
   ≤ length (results s) + length (omap busy_task (workers s)))%nat.
Proof.
  intros Hr.
  assert (Guards.vol_inv s) as (cs & Hcs & Hlen).
  { unfold reachable in Hr. revert s Hr. apply rtc_ind_r.
    - unfold init. destruct (in_sources i) as [cat|]; [|by apply vol_inv_boot].
      destruct (readMetadata _ _ _) as [[|md]|]; by apply vol_inv_boot.
    - intros s s' _ Hstep IH. by eapply vol_inv_step. }
  pose proof (worker_sent_busy _ _ Hcs). lia.
Qed.

Lemma pool_request_volume_witness :
  reachable Scenario.input (Sched.run_pool 8 Scenario.input)
  ∧ length (sent (world (Sched.run_pool 8 Scenario.input))) = 1%nat
  ∧ length (results (Sched.run_pool 8 Scenario.input)) = 0%nat
  ∧ reachable Scenario.input (Sched.run_pool 40 Scenario.input)
  ∧ (length (sent (world (Sched.run_pool 40 Scenario.input))) ≤ 1)%nat.
Proof.
  pose proof (run_pool_reachable 8 Scenario.input) as Hr.
  pose proof (run_pool_reachable 40 Scenario.input) as Hr'.
  split_and!; [exact Hr|vm_compute; reflexivity|vm_compute; reflexivity|exact Hr'|].
  etransitivity; [exact (pool_request_volume Scenario.input _ Hr')|].
  vm_compute. reflexivity.
Defined.

(** X19. The pool loses no task and runs none twice: in every state
    of a run the tasks not yet sent, those in the channel, those that
    workers are at and those that have returned are together the
    tasks of the catalog, each as often as the catalog has it; there
    are 16 workers, and one that has returned has left an empty and
    closed channel. *)
Theorem pool_task_conservation i cat md0 s :
  in_sources i = Some cat →
  readMetadata (in_codec i) (in_open_ok i) (in_files i) = Some md0 →
  reachable i s →
  omap op_task (disp_ops (disp s)) ++ (job_task <$> tasks s)
    ++ omap busy_task (workers s) ++ (results s).*1
  ≡ₚ catalog_tasks cat
  ∧ length (workers s) = 16%nat
  ∧ (WExited ∈ workers s → tasks s = [] ∧ closed s = true).
Proof.
  intros Hsrc Hrd Hr.
  destruct (pool_invariants i cat md0 s Hsrc Hrd Hr) as ([Hlen _ _ Hex _ Ht] & _).
  split_and!; [|exact Hlen|exact Hex].
  rewrite <- Ht. unfold open_tasks. by rewrite <- !app_assoc.
Qed.

Lemma pool_task_conservation_witness :
  in_sources Scenario.input = Some Scenario.catalog
  ∧ reachable Scenario.input (Sched.run_pool 8 Scenario.input)
  ∧ omap busy_task (workers (Sched.run_pool 8 Scenario.input))
    = [{| dir := "stationA"; url := Scenario.data_url |}]
  ∧ results (Sched.run_pool 8 Scenario.input) = []
  ∧ length (workers (Sched.run_pool 8 Scenario.input)) = 16%nat
  ∧ reachable Scenario.input (Sched.run_pool 20 Scenario.input)
  ∧ WExited ∈ workers (Sched.run_pool 20 Scenario.input)
  ∧ closed (Sched.run_pool 20 Scenario.input) = true.
Proof.
  assert (readMetadata (in_codec Scenario.input) (in_open_ok Scenario.input)
            (in_files Scenario.input) = Some (Loaded ∅)) as Hrd
    by (vm_compute; reflexivity).
  pose proof (run_pool_reachable 8 Scenario.input) as Hr.
  pose proof (run_pool_reachable 20 Scenario.input) as Hr'.
  destruct (pool_task_conservation Scenario.input Scenario.catalog (Loaded ∅)
              _ eq_refl Hrd Hr) as (_ & Hlen & _).
  destruct (pool_task_conservation Scenario.input Scenario.catalog (Loaded ∅)
              _ eq_refl Hrd Hr') as (_ & _ & Hex).
  assert (WExited ∈ workers (Sched.run_pool 20 Scenario.input)) as Hin.
  { vm_compute. by left. }
  split_and!; [reflexivity|exact Hr|vm_compute; reflexivity|vm_compute; reflexivity
              |exact Hlen|exact Hr'|exact Hin|by apply Hex].
Defined.

Lemma step_prog_flag {A} env (p : Prog A) w p' w' :
  step_prog env p w = Some (p', w') → hadError w = true → hadError w' = true.
Proof.
  intros Hs Hf. step_cases Hs.
  all: destruct_and?;
    repeat match goal with H : hadError _ = hadError _ |- _ => rewrite H end;
    try done.
Qed.

Lemma step_flag today c we s s' :
  step today c we s s' → hadError (world s) = true → hadError (world s') = true.
Proof.
  intros Hstep Hf. step_inv Hstep; cbn; try done.
  - by eapply step_prog_flag.
  - destruct (unwind_keeps k (world s)) as (_ & _ & Hh & _). by rewrite Hh.
  - pose proof (writeMetadata_effect c we (world s)) as Ha.
    unfold finish. destruct (writeMetadata _ _ (world s)) as [w' ok].
    destruct Ha as (_ & _ & _ & _ & Hh & _). cbn. by rewrite Hh.
Qed.

(** X20. The error flag is only ever set: once it is set in a state of
    the pool, it is set in every state that follows, whatever the
    workers and [main] do. *)
Theorem pool_flag_latched today c we s s' :
  rtc (step today c we) s s' →
  hadError (world s) = true →
  hadError (world s') = true.
Proof.
  intros Hr. induction Hr as [|s1 s2 s3 Hstep _ IH]; [done|].
  intros Hf. apply IH. by eapply step_flag.
Qed.

Lemma pool_flag_latched_witness :
  let s := boot (set_hadError true Scenario.empty_world)
             [DMkdirAll "stationA" true] None in
  let s' := set_disp (Dispatching []) s in
  rtc (step "2025-06-02" Scenario.block_codec Scenario.write_ok) s s'
  ∧ hadError (world s) = true
  ∧ hadError (world s') = true.
Proof.
  cbv zeta.
  assert (rtc (step "2025-06-02" Scenario.block_codec Scenario.write_ok)
            (boot (set_hadError true Scenario.empty_world)
               [DMkdirAll "stationA" true] None)
            (set_disp (Dispatching [])
               (boot (set_hadError true Scenario.empty_world)
                  [DMkdirAll "stationA" true] None))) as Hr.
  { apply rtc_once. by eapply step_mkdir_ok. }
  split_and!; [exact Hr|reflexivity|].
  apply (pool_flag_latched _ _ _ _ _ Hr). reflexivity.
Defined.

(* ----------------------------------------------------------------- *)
(** ** Destinations and logs *)

(** X21. In a directory with a plain name two URLs have the same
    destination exactly when their final segments are the same once
    the [.csv] suffix is taken off: the later download of the day
    then replaces the earlier one. *)
Theorem destinations_collide d u1 u2 seg1 seg2 today :
  plain d → has_sep today = false →
  final_segment u1 = Some seg1 → final_segment u2 = Some seg2 →
  outPathOf d u1 today = outPathOf d u2 today
  ↔ TrimSuffix seg1 ".csv" = TrimSuffix seg2 ".csv".
Proof.
  intros Hd Ht H1 H2.
  rewrite (outPathOf_plain d u1 seg1 today Hd H1 Ht).
  rewrite (outPathOf_plain d u2 seg2 today Hd H2 Ht).
  split; [|by intros ->].
  intros [_ Heq]%app_inj_length; [|done].
  rewrite !app_cons, !app_empty_l in Heq. injection Heq as Heq.
  apply app_inj_length in Heq as [? _]; [done|].
  apply (f_equal String.length) in Heq. rewrite !length_app' in Heq. lia.
Qed.

Lemma destinations_collide_witness :
  plain "stationA"
  ∧ final_segment "http://x/data" = Some "data"
  ∧ final_segment "http://y/old/data.csv" = Some "data.csv"
  ∧ outPathOf "stationA" "http://x/data" "2025-06-02"
    = outPathOf "stationA" "http://y/old/data.csv" "2025-06-02".
Proof.
  assert (plain "stationA") as Hd.
  { unfold plain. split_and!; [reflexivity|discriminate|discriminate|discriminate]. }
  assert (final_segment "http://x/data" = Some "data") as H1
    by (vm_compute; reflexivity).
  assert (final_segment "http://y/old/data.csv" = Some "data.csv") as H2
    by (vm_compute; reflexivity).
  split_and!; [exact Hd|exact H1|exact H2|].
  apply (destinations_collide "stationA" "http://x/data" "http://y/old/data.csv"
           "data" "data.csv" "2025-06-02" Hd eq_refl H1 H2).
  vm_compute. reflexivity.
Defined.

(** X22. The log of a call of [fetchOne] tells how it ended: after the
    line for the URL comes [Not modified] alone when the call returns
    no error and renames nothing, [Downloaded] alone when it has
    renamed the download to its destination, and nothing when it
    returns an error, which is then left to the caller to log. *)
Theorem task_log_tells env d u today w :
  let '(w', r) := run env (Pool.fetchOne env d u today) w in
  ∃ rest, logs w' = logs w ++ LogChecking u :: rest
    ∧ ((r = None ∧ moved w' = moved w ∧ rest = [LogNotModified u])
       ∨ (r = None
          ∧ (∃ name, moved w' = moved w ++ [(name, outPathOf d u today)])
          ∧ rest = [LogDownloaded u (outPathOf d u today)])
       ∨ (∃ e, r = Some e ∧ moved w' = moved w ∧ rest = [])).
Proof.
  exec_pool env d u today w.
  all: eexists; split; [by rewrite <- ?app_assoc|].
  all: first [by left
             |right; left; split_and!; [done|by eexists|done]
             |right; right; by eexists].
Qed.

